(** * KenKen: the constraint model, the candidate reductions and the
      backtracking solver of [puzzle.py], [solver.py] and [utils.py]

    The Python objects form a cyclic graph (cells know their constraints,
    constraints know their cells).  The embedding keeps the immutable
    structure in records and every mutable attribute in a heap:
    - a cell is identified by its coordinate pair, as [Cell.__eq__] and
      [Cell.__hash__] do; a constraint carries an identifier standing for
      its object identity;
    - [Cell.value], [Cell.domain] and [Constraint._reducer] live in [Heap];
      the search also carries the [stats] dictionary, which is local to
      [backtrack_solve] and invisible to the methods of [puzzle.py];
    - every method is a computation of the state-and-exception monad [M];
    - Python integers are [Z], Python sets of integers are [gset Z], and the
      order in which a set is iterated is left open ([SetOrder]);
    - a generator is the outcome of consuming it; whether the module
      [collections] still has its attribute [Iterable], which [flatten]
      reads, is left open as well ([Interpreter]). *)

From stdpp Require Import gmap list sorting.

Open Scope Z_scope.

(** ** Outcomes, heap and monad *)

Inductive exn := IndexError | ZeroDivisionError | AttributeError.

(** [OutOfFuel] is not a Python outcome: it marks that the recursion budget
    given to [solve] was too small. *)
Inductive result (A : Type) :=
  | Ok (a : A)
  | Raise (e : exn)
  | OutOfFuel.
Arguments Ok {A} a.
Arguments Raise {A} e.
Arguments OutOfFuel {A}.

Definition coord := (Z * Z)%type.

Inductive Variant :=
  | UniquenessConstraint
  | AddConstraint (value : Z)
  | MulConstraint (value : Z)
  | SubConstraint (value : Z)
  | DivConstraint (value : Z)
  | ConConstraint (value : Z).

Module Constraint.
Record t := mk { id : nat; cells : list coord; variant : Variant }.
End Constraint.

Module Cell.
Record t := mk { tuple : coord; constraints : list Constraint.t }.
Definition row (c : t) : Z := fst (tuple c).
Definition col (c : t) : Z := snd (tuple c).
End Cell.

Module Puzzle.
Record t := mk { width : Z; cells : list Cell.t; constraints : list Constraint.t }.
End Puzzle.

Record Heap := mkHeap {
  value : gmap coord Z;            (* Cell.value, absent = None *)
  domain : gmap coord (gset Z);    (* Cell.domain set on the instance *)
  reducer : gset nat               (* constraints whose _reducer is bound *)
}.

Definition M (S A : Type) : Type := S → result (A * S).

Definition ret {S A} (a : A) : M S A := λ s, Ok (a, s).
Definition raise {S A} (e : exn) : M S A := λ _, Raise e.
Definition out_of_fuel {S A} : M S A := λ _, OutOfFuel.
Definition bind {S A B} (m : M S A) (f : A → M S B) : M S B :=
  λ s, match m s with
       | Ok (a, s') => f a s'
       | Raise e => Raise e
       | OutOfFuel => OutOfFuel
       end.

Declare Scope py_scope.
Delimit Scope py_scope with py.
Notation "x <- m ;; k" := (bind m (λ x, k))
  (at level 100, m at next level, right associativity) : py_scope.
Notation "m ;;; k" := (bind m (λ _, k))
  (at level 100, right associativity) : py_scope.
Open Scope py_scope.

Definition lift {S A} (r : result A) : M S A :=
  λ s, match r with
       | Ok a => Ok (a, s)
       | Raise e => Raise e
       | OutOfFuel => OutOfFuel
       end.

(** The value a computation returns from a state, forgetting the final
    state. *)
Definition eval {S A} (m : M S A) (s : S) : result A :=
  match m s with
  | Ok (a, _) => Ok a
  | Raise e => Raise e
  | OutOfFuel => OutOfFuel
  end.

Definition modify {S} (f : S → S) : M S unit := λ s, Ok (tt, f s).

Definition with_value (c : coord) (v : option Z) (h : Heap) : Heap :=
  mkHeap (match v with
          | Some z => <[c := z]> (value h)
          | None => delete c (value h)
          end) (domain h) (reducer h).
Definition with_domain (c : coord) (d : gset Z) (h : Heap) : Heap :=
  mkHeap (value h) (<[c := d]> (domain h)) (reducer h).
Definition with_reducer (k : nat) (h : Heap) : Heap :=
  mkHeap (value h) (domain h) ({[k]} ∪ reducer h).

Definition get_value (c : coord) : M Heap (option Z) := λ h, Ok (value h !! c, h).
Definition set_value (c : coord) (v : option Z) : M Heap unit :=
  modify (with_value c v).
(** A cell without an instance attribute falls back on the class attribute
    [domain = set()]. *)
Definition get_domain (c : coord) : M Heap (gset Z) :=
  λ h, Ok (default ∅ (domain h !! c), h).
Definition set_domain (c : coord) (d : gset Z) : M Heap unit :=
  modify (with_domain c d).
Definition get_reducer (k : Constraint.t) : M Heap bool :=
  λ h, Ok (bool_decide (Constraint.id k ∈ reducer h), h).
Definition set_reducer (k : Constraint.t) : M Heap unit :=
  modify (with_reducer (Constraint.id k)).

Fixpoint map_M {S A B} (f : A → M S B) (l : list A) : M S (list B) :=
  match l with
  | [] => ret []
  | x :: l' => y <- f x ;; ys <- map_M f l' ;; ret (y :: ys)
  end.

Fixpoint filter_M {S A} (f : A → M S bool) (l : list A) : M S (list A) :=
  match l with
  | [] => ret []
  | x :: l' => b <- f x ;; ys <- filter_M f l' ;; ret (if b then x :: ys else ys)
  end.

Fixpoint for_M {S A} (f : A → M S unit) (l : list A) : M S unit :=
  match l with
  | [] => ret tt
  | x :: l' => f x ;;; for_M f l'
  end.

(** Python's [all] over a generator: stops at the first false element. *)
Fixpoint all_M {S A} (f : A → M S bool) (l : list A) : M S bool :=
  match l with
  | [] => ret true
  | x :: l' => b <- f x ;; if b then all_M f l' else ret false
  end.

Fixpoint fold_M {S A B} (f : B → A → M S B) (l : list A) (b : B) : M S B :=
  match l with
  | [] => ret b
  | x :: l' => b' <- f b x ;; fold_M f l' b'
  end.

(** ** utils.py *)

(** The order in which CPython iterates a set depends on its hash table;
    the development only assumes that it enumerates the elements. *)
Class SetOrder := {
  set_iter : gset Z → list Z;
  set_iter_perm : ∀ s, set_iter s ≡ₚ elements s
}.

(** [flatten] reads [collections.Iterable], an alias of
    [collections.abc.Iterable] that Python 3.10 removed: whether the
    attribute exists depends on the interpreter that runs the code. *)
Class Interpreter := {
  collections_Iterable : bool
}.

(** [itertools.combinations(nums, 2)] *)
Fixpoint combinations2 {A} (l : list A) : list (A * A) :=
  match l with
  | [] => []
  | x :: l' => map (pair x) l' ++ combinations2 l'
  end.

Fixpoint filter_result {A} (f : A → result bool) (l : list A) : result (list A) :=
  match l with
  | [] => Ok []
  | x :: l' =>
      match f x with
      | Ok b =>
          match filter_result f l' with
          | Ok ys => Ok (if b then x :: ys else ys)
          | Raise e => Raise e
          | OutOfFuel => OutOfFuel
          end
      | Raise e => Raise e
      | OutOfFuel => OutOfFuel
      end
  end.

(** [pairs] returns a lazy [filter] object, given here by the outcome of
    running it to its end: the pairs it lets through, or the exception of
    the predicate.  Nothing runs it before a consumer asks for a pair. *)
Definition pairs `{SetOrder} (nums : gset Z) (predicate : Z * Z → result bool)
  : result (list (Z * Z)) :=
  filter_result predicate (combinations2 (set_iter nums)).

(** [flatten] on the filter object of [pairs].  It is a generator: the
    call itself runs nothing, and the result here is what consuming the
    generator gives.  Its first step evaluates
    [isinstance(iterable, collections.Iterable)]: without the attribute
    that is an [AttributeError], before any pair is asked for.  With it,
    every pair is iterable and its two integers are not, so that they are
    yielded in turn; an exception of the filter comes out as it is. *)
Definition flatten `{Interpreter} (iterable : result (list (Z * Z))) : result (list Z) :=
  if collections_Iterable then
    match iterable with
    | Ok candidate_pairs => Ok (concat (map (λ p, [fst p; snd p]) candidate_pairs))
    | Raise e => Raise e
    | OutOfFuel => OutOfFuel
    end
  else Raise AttributeError.

Definition product (nums : list Z) : Z := fold_left Z.mul nums 1.

(** Python's builtin [sum]. *)
Definition sum (nums : list Z) : Z := fold_left Z.add nums 0.

(** ** puzzle.py: constraints *)

(** The attribute [value] exists on the [ValueConstraint] family only. *)
Definition Constraint_value (k : Constraint.t) : result Z :=
  match Constraint.variant k with
  | UniquenessConstraint => Raise AttributeError
  | AddConstraint v | MulConstraint v | SubConstraint v
  | DivConstraint v | ConConstraint v => Ok v
  end.

Definition Constraint_values (k : Constraint.t) : M Heap (list (option Z)) :=
  map_M get_value (Constraint.cells k).

Definition Constraint_cardinality (k : Constraint.t) : nat :=
  length (Constraint.cells k).

Definition Constraint_unassigned (k : Constraint.t) : M Heap (list coord) :=
  filter_M (λ c, v <- get_value c ;; ret (bool_decide (v = None))) (Constraint.cells k).

Definition Constraint_assigned (k : Constraint.t) : M Heap (list coord) :=
  filter_M (λ c, v <- get_value c ;; ret (bool_decide (v ≠ None))) (Constraint.cells k).

(** [evaluate] on a list of integers.  [values[i]] past the end raises
    [IndexError]. *)
Definition evaluate (k : Constraint.t) (values : list Z) : result bool :=
  match Constraint.variant k with
  | UniquenessConstraint =>
      Ok (bool_decide (length values = size (list_to_set values : gset Z)))
  | AddConstraint v => Ok (bool_decide (sum values = v))
  | MulConstraint v => Ok (bool_decide (product values = v))
  | SubConstraint v =>
      match values with
      | v0 :: v1 :: _ => Ok (bool_decide (Z.abs (v0 - v1) = v))
      | _ => Raise IndexError
      end
  | DivConstraint v =>
      match values with
      | v0 :: v1 :: _ => Ok (bool_decide (v0 = v1 * v) || bool_decide (v1 = v0 * v))
      | _ => Raise IndexError
      end
  | ConConstraint v =>
      match values with
      | v0 :: _ => Ok (bool_decide (v0 = v))
      | [] => Raise IndexError
      end
  end.

(** [None not in values]: the list of integers when no entry is [None]. *)
Fixpoint all_assigned (values : list (option Z)) : option (list Z) :=
  match values with
  | [] => Some []
  | None :: _ => None
  | Some v :: l =>
      match all_assigned l with
      | Some vs => Some (v :: vs)
      | None => None
      end
  end.

Definition Constraint_solved (k : Constraint.t) : M Heap bool :=
  values <- Constraint_values k ;;
  match all_assigned values with
  | None => ret false
  | Some vs => lift (evaluate k vs)
  end.

Definition Constraint_consistent (k : Constraint.t) : M Heap bool :=
  values <- Constraint_values k ;;
  match all_assigned values with
  | None => ret true
  | Some _ => Constraint_solved k
  end.

(** The values of the assigned cells, [cell.value for cell in self.assigned]. *)
Definition assigned_values (k : Constraint.t) : M Heap (list Z) :=
  cs <- Constraint_assigned k ;;
  vs <- map_M get_value cs ;;
  ret (omap id vs).

(** [total] and [remainder] are defined by [AddConstraint] and
    [MulConstraint] only. *)
Definition Constraint_total (k : Constraint.t) : M Heap Z :=
  match Constraint.variant k with
  | AddConstraint _ => vs <- assigned_values k ;; ret (sum vs)
  | MulConstraint _ => vs <- assigned_values k ;; ret (product vs)
  | _ => raise AttributeError
  end.

Definition Constraint_remainder (k : Constraint.t) : M Heap Z :=
  match Constraint.variant k with
  | AddConstraint v => t <- Constraint_total k ;; ret (v - t)
  | MulConstraint v =>
      t <- Constraint_total k ;;
      if bool_decide (t = 0) then raise ZeroDivisionError else ret (v `div` t)
  | _ => raise AttributeError
  end.

(** ** solver.py: ReductionStrategy *)

(** What a reduction returns: a set, or the generator made by [flatten],
    given by the outcome of consuming it. *)
Inductive iterable :=
  | PySet (s : gset Z)
  | PyGen (items : result (list Z)).

(** [set(...)] of a reduction's result: a generator is consumed here. *)
Definition to_set (r : iterable) : result (gset Z) :=
  match r with
  | PySet s => Ok s
  | PyGen (Ok l) => Ok (list_to_set l)
  | PyGen (Raise e) => Raise e
  | PyGen OutOfFuel => OutOfFuel
  end.

Definition symmetric_difference (a b : gset Z) : gset Z := (a ∖ b) ∪ (b ∖ a).

Definition reduce_unique (k : Constraint.t) (candidates : gset Z) : M Heap iterable :=
  values <- assigned_values k ;;
  ret (PySet (symmetric_difference candidates (list_to_set values))).

Definition reduce_add (k : Constraint.t) (candidates : gset Z) : M Heap iterable :=
  remainder <- Constraint_remainder k ;;
  unassigned <- Constraint_unassigned k ;;
  if bool_decide (length unassigned = 1%nat) then
    ret (PySet (if bool_decide (remainder ∈ candidates) then {[remainder]} else ∅))
  else
    ret (PySet (filter (λ candidate, remainder - candidate > 0) candidates)).

(** [remainder % candidate] raises when some candidate is zero. *)
Definition reduce_mul (k : Constraint.t) (candidates : gset Z) : M Heap iterable :=
  remainder <- Constraint_remainder k ;;
  unassigned <- Constraint_unassigned k ;;
  if bool_decide (length unassigned = 1%nat) then
    ret (PySet (if bool_decide (remainder ∈ candidates) then {[remainder]} else ∅))
  else if bool_decide (0 ∈ candidates) then raise ZeroDivisionError
  else ret (PySet (filter (λ candidate, remainder `mod` candidate = 0) candidates)).

(** [reduce_sub] and [reduce_div] have the same body: the pairs of
    candidates on which [constraint.evaluate] is true, flattened.  The call
    returns the generator of [flatten]: neither the filter nor [evaluate]
    has run when it returns. *)
Definition reduce_pairs `{SetOrder} `{Interpreter} (k : Constraint.t)
    (candidates : gset Z) : M Heap iterable :=
  let candidate_pairs := pairs candidates (λ p, evaluate k [fst p; snd p]) in
  ret (PyGen (flatten candidate_pairs)).

Definition reduce_sub `{SetOrder} `{Interpreter} := reduce_pairs.
Definition reduce_div `{SetOrder} `{Interpreter} := reduce_pairs.

Definition reduce_con (k : Constraint.t) (candidates : gset Z) : M Heap iterable :=
  v <- lift (Constraint_value k) ;;
  ret (PySet (if bool_decide (v ∈ candidates) then {[v]} else ∅)).

(** [Constraint.reduce]: every variant defers to its [reducer], which is
    [None] until [initialize] binds it. *)
Definition Constraint_reduce `{SetOrder} `{Interpreter} (k : Constraint.t)
    (candidates : gset Z) : M Heap iterable :=
  bound <- get_reducer k ;;
  if bound then
    match Constraint.variant k with
    | UniquenessConstraint => reduce_unique k candidates
    | AddConstraint _ => reduce_add k candidates
    | MulConstraint _ => reduce_mul k candidates
    | SubConstraint _ => reduce_sub k candidates
    | DivConstraint _ => reduce_div k candidates
    | ConConstraint _ => reduce_con k candidates
    end
  else raise AttributeError.

(** ** puzzle.py: cells and puzzle *)

(** [candidates & set(constraint.reduce(candidates))]: the result of each
    reduction is consumed by [set] before the next one is called. *)
Definition Cell_candidates `{SetOrder} `{Interpreter} (c : Cell.t) : M Heap (gset Z) :=
  candidates <- get_domain (Cell.tuple c) ;;
  fold_M (λ candidates k,
            r <- Constraint_reduce k candidates ;;
            reduced <- lift (to_set r) ;;
            ret (candidates ∩ reduced))
         (Cell.constraints c) candidates.

Definition Puzzle_domain (p : Puzzle.t) : gset Z :=
  list_to_set (seqZ 1 (Puzzle.width p)).

Definition Puzzle_unassigned (p : Puzzle.t) : M Heap (list Cell.t) :=
  filter_M (λ c, v <- get_value (Cell.tuple c) ;; ret (bool_decide (v = None)))
           (Puzzle.cells p).

Definition Puzzle_solved (p : Puzzle.t) : M Heap bool :=
  all_M Constraint_solved (Puzzle.constraints p).

Definition Puzzle_consistent (p : Puzzle.t) : M Heap bool :=
  all_M Constraint_consistent (Puzzle.constraints p).

(** ** solver.py: backtrack_solve *)

(** [sorted(..., key=...)] is stable: an element goes before the first
    element of the sorted tail whose key is not smaller. *)
Fixpoint insert_by_key {A} (x : nat * A) (l : list (nat * A)) : list (nat * A) :=
  match l with
  | [] => [x]
  | y :: l' =>
      if bool_decide (fst x ≤ fst y)%nat then x :: y :: l'
      else y :: insert_by_key x l'
  end.

Fixpoint sorted {A} (l : list (nat * A)) : list (nat * A) :=
  match l with
  | [] => []
  | x :: l' => insert_by_key x (sorted l')
  end.

Definition initialize (p : Puzzle.t) : M Heap unit :=
  for_M (λ cell, set_domain (Cell.tuple cell) (Puzzle_domain p)) (Puzzle.cells p) ;;;
  for_M set_reducer (Puzzle.constraints p).

(** The [stats] dictionary is a local variable of [backtrack_solve] that
    [solve] closes over: the search runs on the heap and on it. *)
Record Stats := mkStats { backtracks : nat; recursive_calls : nat }.

Record Search := mkSearch { heap : Heap; stats : Stats }.

Definition on_heap {A} (m : M Heap A) : M Search A :=
  λ s, match m (heap s) with
       | Ok (a, h) => Ok (a, mkSearch h (stats s))
       | Raise e => Raise e
       | OutOfFuel => OutOfFuel
       end.

Definition count_backtrack (s : Search) : Search :=
  mkSearch (heap s) (mkStats (S (backtracks (stats s))) (recursive_calls (stats s))).
Definition count_recursive_call (s : Search) : Search :=
  mkSearch (heap s) (mkStats (backtracks (stats s)) (S (recursive_calls (stats s)))).

(** The body of [for candidate in cell.candidates]; [rec] is the recursive
    call [solve()].  When the candidates are exhausted the statements after
    the loop run: [stats['backtracks'] += 1; return False]. *)
Fixpoint try_candidates (rec : M Search bool) (p : Puzzle.t) (cell : Cell.t)
    (candidates : list Z) : M Search bool :=
  match candidates with
  | [] => modify count_backtrack ;;; ret false
  | candidate :: rest =>
      on_heap (set_value (Cell.tuple cell) (Some candidate)) ;;;
      consistent <- on_heap (Puzzle_consistent p) ;;
      if consistent then
        modify count_recursive_call ;;;
        solved <- rec ;;
        if solved then ret true
        else on_heap (set_value (Cell.tuple cell) None) ;;;
             try_candidates rec p cell rest
      else on_heap (set_value (Cell.tuple cell) None) ;;;
           try_candidates rec p cell rest
  end.

(** The sort keys [len(c.candidates)] are computed for every unassigned
    cell before the list is sorted. *)
Definition solve_order `{SetOrder} `{Interpreter} (p : Puzzle.t) : M Heap (list Cell.t) :=
  unassigned <- Puzzle_unassigned p ;;
  keyed <- map_M (λ c, cs <- Cell_candidates c ;; ret (size cs, c)) unassigned ;;
  ret (map snd (sorted keyed)).

(** Only the first cell of the order is examined: the loop body ends in
    [return False].  [fuel] bounds the depth of the recursion. *)
Fixpoint solve `{SetOrder} `{Interpreter} (fuel : nat) (p : Puzzle.t) : M Search bool :=
  match fuel with
  | O => out_of_fuel
  | S fuel' =>
      order <- on_heap (solve_order p) ;;
      match order with
      | [] => on_heap (Puzzle_solved p)
      | cell :: _ =>
          candidates <- on_heap (Cell_candidates cell) ;;
          try_candidates (solve fuel' p) p cell (set_iter candidates)
      end
  end.

(** Runs a search with a new [stats] dictionary and hands it back. *)
Definition with_stats {A} (st : Stats) (m : M Search A) : M Heap (A * Stats) :=
  λ h, match m (mkSearch h st) with
       | Ok (a, s) => Ok ((a, stats s), heap s)
       | Raise e => Raise e
       | OutOfFuel => OutOfFuel
       end.

(** The recursion is given one level per cell of the puzzle, plus one for
    the call that finds no unassigned cell.  The [with_timing] decorator
    only prints; it is left out. *)
Definition backtrack_solve `{SetOrder} `{Interpreter} (p : Puzzle.t) : M Heap (bool * Stats) :=
  with_stats (mkStats 0 0)
    (on_heap (initialize p) ;;; solve (S (length (Puzzle.cells p))) p).

(** ** Puzzles as the loader builds them *)

(** A fresh heap: no cell has a value or an instance domain, no constraint
    has a reducer. *)
Definition fresh : Heap := mkHeap ∅ ∅ ∅.

(** CPython iterates a small set of small positive integers in increasing
    order. *)
Definition ascending (s : gset Z) : list Z := merge_sort Z.le (elements s).

#[local] Instance ascending_order : SetOrder :=
  {| set_iter := ascending;
     set_iter_perm := λ s, merge_sort_Permutation Z.le (elements s) |}.

(** The interpreters the code was written for, up to Python 3.9, and the
    later ones. *)
#[local] Instance python_3_9 : Interpreter := {| collections_Iterable := true |}.

Definition python_3_10 : Interpreter := {| collections_Iterable := false |}.

(** [parse_string] gives every cell the constraints that contain it, in the
    order in which they were created. *)
Definition constraints_of (ks : list Constraint.t) (c : coord) : list Constraint.t :=
  filter (λ k, c ∈ Constraint.cells k) ks.

Definition build (width : Z) (cs : list coord) (ks : list Constraint.t) : Puzzle.t :=
  Puzzle.mk width (map (λ c, Cell.mk c (constraints_of ks c)) cs) ks.

(** The 1x1 puzzle: one [$] cage of target 1, its row and its column. *)
Definition puzzle_1x1 : Puzzle.t :=
  build 1 [(0, 0)]
    [ Constraint.mk 0 [(0, 0)] (ConConstraint 1);
      Constraint.mk 1 [(0, 0)] UniquenessConstraint;
      Constraint.mk 2 [(0, 0)] UniquenessConstraint ].

(** A 2x2 puzzle whose first row holds two [$] cages of target 1. *)
Definition puzzle_clash : Puzzle.t :=
  build 2 [(0, 0); (0, 1); (1, 0); (1, 1)]
    [ Constraint.mk 0 [(0, 0)] (ConConstraint 1);
      Constraint.mk 1 [(0, 1)] (ConConstraint 1);
      Constraint.mk 2 [(1, 0); (1, 1)] (AddConstraint 3);
      Constraint.mk 3 [(0, 0); (0, 1)] UniquenessConstraint;
      Constraint.mk 4 [(0, 0); (1, 0)] UniquenessConstraint;
      Constraint.mk 5 [(1, 0); (1, 1)] UniquenessConstraint;
      Constraint.mk 6 [(0, 1); (1, 1)] UniquenessConstraint ].

(** The scenario of two cages: 3+ on the first row, 2* on the second. *)
Definition puzzle_2x2 : Puzzle.t :=
  build 2 [(0, 0); (0, 1); (1, 0); (1, 1)]
    [ Constraint.mk 0 [(0, 0); (0, 1)] (AddConstraint 3);
      Constraint.mk 1 [(1, 0); (1, 1)] (MulConstraint 2);
      Constraint.mk 2 [(0, 0); (0, 1)] UniquenessConstraint;
      Constraint.mk 3 [(0, 0); (1, 0)] UniquenessConstraint;
      Constraint.mk 4 [(1, 0); (1, 1)] UniquenessConstraint;
      Constraint.mk 5 [(0, 1); (1, 1)] UniquenessConstraint ].

(** A 2x2 puzzle that values outside [1..2] would solve: 4+ on the first
    row, 3+ on the second. *)
Definition puzzle_sums : Puzzle.t :=
  build 2 [(0, 0); (0, 1); (1, 0); (1, 1)]
    [ Constraint.mk 0 [(0, 0); (0, 1)] (AddConstraint 4);
      Constraint.mk 1 [(1, 0); (1, 1)] (AddConstraint 3);
      Constraint.mk 2 [(0, 0); (0, 1)] UniquenessConstraint;
      Constraint.mk 3 [(0, 0); (1, 0)] UniquenessConstraint;
      Constraint.mk 4 [(1, 0); (1, 1)] UniquenessConstraint;
      Constraint.mk 5 [(0, 1); (1, 1)] UniquenessConstraint ].

(** A 2x2 puzzle with a [-] and a [/] cage: 1- on the first row, 2/ on the
    second. *)
Definition puzzle_pairs : Puzzle.t :=
  build 2 [(0, 0); (0, 1); (1, 0); (1, 1)]
    [ Constraint.mk 0 [(0, 0); (0, 1)] (SubConstraint 1);
      Constraint.mk 1 [(1, 0); (1, 1)] (DivConstraint 2);
      Constraint.mk 2 [(0, 0); (0, 1)] UniquenessConstraint;
      Constraint.mk 3 [(0, 0); (1, 0)] UniquenessConstraint;
      Constraint.mk 4 [(1, 0); (1, 1)] UniquenessConstraint;
      Constraint.mk 5 [(0, 1); (1, 1)] UniquenessConstraint ].

(** A 2x2 puzzle made of four [$] cages. *)
Definition puzzle_cons : Puzzle.t :=
  build 2 [(0, 0); (0, 1); (1, 0); (1, 1)]
    [ Constraint.mk 0 [(0, 0)] (ConConstraint 1);
      Constraint.mk 1 [(0, 1)] (ConConstraint 2);
      Constraint.mk 2 [(1, 0)] (ConConstraint 2);
      Constraint.mk 3 [(1, 1)] (ConConstraint 1);
      Constraint.mk 4 [(0, 0); (0, 1)] UniquenessConstraint;
      Constraint.mk 5 [(0, 0); (1, 0)] UniquenessConstraint;
      Constraint.mk 6 [(1, 0); (1, 1)] UniquenessConstraint;
      Constraint.mk 7 [(0, 1); (1, 1)] UniquenessConstraint ].

(** The grid 1 2 / 2 1, a solution of [puzzle_2x2] and of [puzzle_pairs]. *)
Definition solved_2x2 : Heap :=
  with_value (1, 1) (Some 1) (with_value (1, 0) (Some 2)
    (with_value (0, 1) (Some 2) (with_value (0, 0) (Some 1) fresh))).

(** ** Vocabulary of the properties *)

(** A computation that reads the state and leaves it as it found it. *)
Definition readonly {S A} (m : M S A) : Prop :=
  ∀ s, m s = lift (eval m s) s.

Definition rbind {A B} (r : result A) (f : A → result B) : result B :=
  match r with
  | Ok a => f a
  | Raise e => Raise e
  | OutOfFuel => OutOfFuel
  end.

(** What the queries of [puzzle.py] read from a heap. *)
Definition values_in (h : Heap) (k : Constraint.t) : list (option Z) :=
  map (λ c, value h !! c) (Constraint.cells k).

Definition unassigned_in (h : Heap) (k : Constraint.t) : list coord :=
  filter (λ c, value h !! c = None) (Constraint.cells k).

Definition assigned_values_in (h : Heap) (k : Constraint.t) : list Z :=
  omap (λ c, value h !! c) (Constraint.cells k).

Definition solved_in (h : Heap) (k : Constraint.t) : result bool :=
  match all_assigned (values_in h k) with
  | None => Ok false
  | Some vs => evaluate k vs
  end.

Definition consistent_in (h : Heap) (k : Constraint.t) : result bool :=
  match all_assigned (values_in h k) with
  | None => Ok true
  | Some vs => evaluate k vs
  end.

Definition unassigned_cells (p : Puzzle.t) (h : Heap) : list Cell.t :=
  filter (λ c, value h !! Cell.tuple c = None) (Puzzle.cells p).


(** The two assignments of the search, [cell.value = candidate] and
    [cell.value = None], as state transformers. *)
Definition assign (cell : Cell.t) (v : Z) (s : Search) : Search :=
  mkSearch (with_value (Cell.tuple cell) (Some v) (heap s)) (stats s).

Definition unassign (cell : Cell.t) (s : Search) : Search :=
  mkSearch (with_value (Cell.tuple cell) None (heap s)) (stats s).

(** The heap [initialize] leaves: every cell of the puzzle has the domain
    [{1..N}], every constraint of the puzzle has its reducer. *)
Definition initialized (p : Puzzle.t) (h : Heap) : Heap :=
  foldl (λ h k, with_reducer (Constraint.id k) h)
    (foldl (λ h cell, with_domain (Cell.tuple cell) (Puzzle_domain p) h) h (Puzzle.cells p))
    (Puzzle.constraints p).

(** Every assigned value is one of [1..N]. *)
Definition in_range (p : Puzzle.t) (h : Heap) : Prop :=
  ∀ c v, value h !! c = Some v → 1 ≤ v ≤ Puzzle.width p.

(** Every cell of the puzzle carries the puzzle's domain. *)
Definition domains_set (p : Puzzle.t) (h : Heap) : Prop :=
  ∀ cell, cell ∈ Puzzle.cells p → domain h !! Cell.tuple cell = Some (Puzzle_domain p).

(** The rule of a constraint on the values of its cells, as the rules of
    the game state it. *)
Definition rule (k : Constraint.t) (vs : list Z) : Prop :=
  match Constraint.variant k with
  | UniquenessConstraint => NoDup vs
  | AddConstraint t => foldr Z.add 0 vs = t
  | MulConstraint t => foldr Z.mul 1 vs = t
  | SubConstraint t => ∃ a b rest, vs = a :: b :: rest ∧ Z.abs (a - b) = t
  | DivConstraint t => ∃ a b rest, vs = a :: b :: rest ∧ (a = b * t ∨ b = a * t)
  | ConConstraint t => ∃ a rest, vs = a :: rest ∧ a = t
  end.

(** *** The shape of a run of [solve]

    A call either finds every cell assigned and returns [puzzle.solved], or
    examines one cell.  For that cell it goes through the candidates in
    order: a candidate is rejected by [puzzle.consistent], or the call
    descends, and the descent fails or succeeds.  The loop ends when a
    descent succeeds or when the candidates are exhausted. *)
Inductive call :=
  | Full (solved : bool)
  | Node (cell : Cell.t) (t : tries)
with tries :=
  | Exhausted
  | Rejected (v : Z) (rest : tries)
  | Failed (v : Z) (sub : call) (rest : tries)
  | Found (v : Z) (sub : call).

Fixpoint found (t : tries) : bool :=
  match t with
  | Exhausted => false
  | Rejected _ rest | Failed _ _ rest => found rest
  | Found _ _ => true
  end.

Definition success (c : call) : bool :=
  match c with
  | Full solved => solved
  | Node _ t => found t
  end.

(** The candidates a call has assigned, in order. *)
Fixpoint tried (t : tries) : list Z :=
  match t with
  | Exhausted => []
  | Rejected v rest | Failed v _ rest => v :: tried rest
  | Found v _ => [v]
  end.

(** The assignments that passed [puzzle.consistent], in a whole run. *)
Fixpoint descents (c : call) : nat :=
  match c with
  | Full _ => 0
  | Node _ t => descents_tries t
  end
with descents_tries (t : tries) : nat :=
  match t with
  | Exhausted => 0
  | Rejected _ rest => descents_tries rest
  | Failed _ sub rest => S (descents sub + descents_tries rest)
  | Found _ sub => S (descents sub)
  end.

(** The calls that went through all the candidates of their cell, in a
    whole run. *)
Fixpoint exhausts (c : call) : nat :=
  match c with
  | Full _ => 0
  | Node _ t => exhausts_tries t
  end
with exhausts_tries (t : tries) : nat :=
  match t with
  | Exhausted => 1
  | Rejected _ rest => exhausts_tries rest
  | Failed _ sub rest => exhausts sub + exhausts_tries rest
  | Found _ sub => exhausts sub
  end.

(** The deepest nesting of descents in a run. *)
Fixpoint depth (c : call) : nat :=
  match c with
  | Full _ => 0
  | Node _ t => depth_tries t
  end
with depth_tries (t : tries) : nat :=
  match t with
  | Exhausted => 0
  | Rejected _ rest => depth_tries rest
  | Failed _ sub rest => S (depth sub) `max` depth_tries rest
  | Found _ sub => S (depth sub)
  end.

(** [runs p h c]: [c] is the run of a call entered in heap [h].
    [loops p h cell cands t]: [t] is the run of the loop over the remaining
    candidates [cands] of [cell], entered in heap [h]. *)
Inductive runs `{SetOrder} `{Interpreter} (p : Puzzle.t) : Heap → call → Prop :=
  | runs_full h solved :
      unassigned_cells p h = [] →
      eval (Puzzle_solved p) h = Ok solved →
      runs p h (Full solved)
  | runs_node h cell cs t :
      cell ∈ unassigned_cells p h →
      eval (Cell_candidates cell) h = Ok cs →
      (∀ c', c' ∈ unassigned_cells p h →
         ∃ cs', eval (Cell_candidates c') h = Ok cs' ∧ (size cs ≤ size cs')%nat) →
      loops p h cell (set_iter cs) t →
      runs p h (Node cell t)
with loops `{SetOrder} `{Interpreter} (p : Puzzle.t) : Heap → Cell.t → list Z → tries → Prop :=
  | loops_exhausted h cell :
      loops p h cell [] Exhausted
  | loops_rejected h cell v rest t :
      eval (Puzzle_consistent p) (with_value (Cell.tuple cell) (Some v) h) = Ok false →
      loops p h cell rest t →
      loops p h cell (v :: rest) (Rejected v t)
  | loops_failed h cell v rest sub t :
      eval (Puzzle_consistent p) (with_value (Cell.tuple cell) (Some v) h) = Ok true →
      runs p (with_value (Cell.tuple cell) (Some v) h) sub →
      success sub = false →
      loops p h cell rest t →
      loops p h cell (v :: rest) (Failed v sub t)
  | loops_found h cell v rest sub :
      eval (Puzzle_consistent p) (with_value (Cell.tuple cell) (Some v) h) = Ok true →
      runs p (with_value (Cell.tuple cell) (Some v) h) sub →
      success sub = true →
      loops p h cell (v :: rest) (Found v sub).

(** A call [m] follows a run and counts it in [stats]. *)
Definition traced `{SetOrder} `{Interpreter} (p : Puzzle.t) (m : M Search bool) : Prop :=
  ∀ s b s', m s = Ok (b, s') →
    ∃ c, runs p (heap s) c ∧ b = success c ∧
      recursive_calls (stats s') = (recursive_calls (stats s) + descents c)%nat ∧
      backtracks (stats s') = (backtracks (stats s) + exhausts c)%nat.

(** A call that fails leaves the heap as it found it; no call touches a
    domain or a reducer. *)
Definition restores (m : M Search bool) : Prop :=
  ∀ s b s', m s = Ok (b, s') →
    domain (heap s') = domain (heap s) ∧ reducer (heap s') = reducer (heap s) ∧
    (b = false → heap s' = heap s).

(** A call that succeeds returns in a heap where [puzzle.solved] holds. *)
Definition sound (p : Puzzle.t) (m : M Search bool) : Prop :=
  ∀ s s', m s = Ok (true, s') → eval (Puzzle_solved p) (heap s') = Ok true.

(** Only [solve] consumes fuel: nothing else can run out of it. *)
Definition fuel_free {S A} (m : M S A) : Prop := ∀ s, m s ≠ OutOfFuel.

(** What [remainder] reads from a heap. *)
Definition remainder_in (h : Heap) (k : Constraint.t) : result Z :=
  match Constraint.variant k with
  | AddConstraint v => Ok (v - sum (assigned_values_in h k))
  | MulConstraint v =>
      if bool_decide (product (assigned_values_in h k) = 0) then Raise ZeroDivisionError
      else Ok (v `div` product (assigned_values_in h k))
  | _ => Raise AttributeError
  end.

(** *** Puzzles the search engine is meant for

    [evaluate] indexes the values of a [-] or [/] cage at 0 and 1 and those
    of a [$] cage at 0; the cells of a puzzle know constraints of the puzzle
    only, so that [initialize] binds the reducer of each. *)
Definition arity_ok (k : Constraint.t) : Prop :=
  match Constraint.variant k with
  | SubConstraint _ | DivConstraint _ => (2 ≤ length (Constraint.cells k))%nat
  | ConConstraint _ => (1 ≤ length (Constraint.cells k))%nat
  | _ => True
  end.

#[local] Instance Variant_eq_dec : EqDecision Variant.
Proof. solve_decision. Defined.

#[local] Instance Constraint_eq_dec : EqDecision Constraint.t.
Proof. solve_decision. Defined.

#[local] Instance arity_ok_dec k : Decision (arity_ok k).
Proof. unfold arity_ok. destruct (Constraint.variant k); apply _. Defined.

Definition well_formed (p : Puzzle.t) : Prop :=
  Forall arity_ok (Puzzle.constraints p) ∧
  Forall (λ cell, Forall (λ k, k ∈ Puzzle.constraints p) (Cell.constraints cell))
         (Puzzle.cells p).

(** Every constraint of the puzzle has its reducer. *)
Definition reducers_set (p : Puzzle.t) (h : Heap) : Prop :=
  ∀ k, k ∈ Puzzle.constraints p → Constraint.id k ∈ reducer h.

(** No assignment of values of [1..N] solves the puzzle. *)
Definition unsatisfiable (p : Puzzle.t) : Prop :=
  ∀ h, in_range p h → eval (Puzzle_solved p) h ≠ Ok true.

(** The coordinates of the cells of a puzzle. *)
Definition coords (p : Puzzle.t) : list coord := map Cell.tuple (Puzzle.cells p).

(** A call only adds values, and only to cells of the puzzle; when it
    succeeds no cell of the puzzle is left unassigned. *)
Definition fills (p : Puzzle.t) (m : M Search bool) : Prop :=
  ∀ s b s', m s = Ok (b, s') →
    value (heap s) ⊆ value (heap s') ∧
    (∀ c, c ∉ coords p → value (heap s') !! c = value (heap s) !! c) ∧
    (b = true → unassigned_cells p (heap s') = []).

(** *** Puzzles of the game

    A [-] or [/] cage has two cells and a target that two different values
    can meet, a [$] cage has one cell.  A cell lies in each of its
    constraints, which are constraints of the puzzle, and a [-] or [/] cage
    comes first among them, as when the loader creates the cages before the
    rows and columns. *)
Definition pair_rule (k : Constraint.t) : Prop :=
  match Constraint.variant k with
  | SubConstraint _ | DivConstraint _ => True
  | _ => False
  end.

Definition cage_ok (k : Constraint.t) : Prop :=
  match Constraint.variant k with
  | SubConstraint t => length (Constraint.cells k) = 2%nat ∧ t ≠ 0
  | DivConstraint t => length (Constraint.cells k) = 2%nat ∧ t ≠ 1
  | ConConstraint _ => length (Constraint.cells k) = 1%nat
  | _ => True
  end.

#[local] Instance pair_rule_dec k : Decision (pair_rule k).
Proof. unfold pair_rule. destruct (Constraint.variant k); apply _. Defined.

#[local] Instance cage_ok_dec k : Decision (cage_ok k).
Proof. unfold cage_ok. destruct (Constraint.variant k); apply _. Defined.

(** The reduction of the constraint can be consumed: [reduce_sub] and
    [reduce_div] hand out the generator of [flatten], which needs
    [collections.Iterable]; the other reductions return sets. *)
Definition flattens `{Interpreter} (k : Constraint.t) : Prop :=
  pair_rule k → collections_Iterable = true.

#[local] Instance flattens_dec `{Interpreter} k : Decision (flattens k).
Proof. unfold flattens. apply _. Defined.

Definition cell_ok (p : Puzzle.t) (cell : Cell.t) : Prop :=
  Forall (λ k, k ∈ Puzzle.constraints p ∧ Cell.tuple cell ∈ Constraint.cells k)
         (Cell.constraints cell) ∧
  Forall (λ k, ¬ pair_rule k) (tail (Cell.constraints cell)).

Definition game_shaped (p : Puzzle.t) : Prop :=
  Forall cage_ok (Puzzle.constraints p) ∧ Forall (cell_ok p) (Puzzle.cells p).

(** [hsol] solves the puzzle with values of [1..N] and completes [h]: it
    keeps the values of [h] and adds a value for each cell of the puzzle,
    and for no other cell. *)
Definition completes (p : Puzzle.t) (h hsol : Heap) : Prop :=
  in_range p hsol ∧
  eval (Puzzle_solved p) hsol = Ok true ∧
  value h ⊆ value hsol ∧
  (∀ c, c ∈ coords p → is_Some (value hsol !! c)) ∧
  (∀ c, is_Some (value hsol !! c) → is_Some (value h !! c) ∨ c ∈ coords p).

(** * Properties *)

(** ** The monad *)

Section monad.
Context {S : Type}.

Lemma readonly_ret {A} (a : A) : readonly (ret a : M S A).
Proof. done. Qed.

Lemma readonly_raise {A} (e : exn) : readonly (raise e : M S A).
Proof. done. Qed.

Lemma readonly_lift {A} (r : result A) : readonly (lift r : M S A).
Proof. intros s. unfold eval, lift. by destruct r. Qed.

Lemma readonly_bind {A B} (m : M S A) (f : A → M S B) :
  readonly m → (∀ a, readonly (f a)) → readonly (bind m f).
Proof.
  intros Hm Hf s. unfold eval, bind. rewrite (Hm s).
  destruct (eval m s) as [a| |]; simpl; [|done..].
  rewrite (Hf a s). unfold lift. by destruct (eval (f a) s).
Qed.

Lemma eval_bind {A B} (m : M S A) (f : A → M S B) s :
  readonly m → eval (bind m f) s = rbind (eval m s) (λ a, eval (f a) s).
Proof.
  intros Hm. unfold eval at 1, bind. rewrite (Hm s).
  by destruct (eval m s).
Qed.

Lemma readonly_run {A} (m : M S A) s a s' :
  readonly m → m s = Ok (a, s') → s' = s ∧ eval m s = Ok a.
Proof.
  intros Hm Hr. unfold eval. rewrite Hr. split; [|done].
  rewrite (Hm s) in Hr. unfold eval in Hr. destruct (m s) as [[]| |]; simpl in Hr; congruence.
Qed.

Lemma readonly_map_M {A B} (f : A → M S B) l :
  (∀ x, readonly (f x)) → readonly (map_M f l).
Proof.
  intros Hf. induction l as [|x l IH]; [done|]. simpl.
  apply readonly_bind; [done|]. intros y.
  apply readonly_bind; [done|]. intros ys. apply readonly_ret.
Qed.

Lemma readonly_filter_M {A} (f : A → M S bool) l :
  (∀ x, readonly (f x)) → readonly (filter_M f l).
Proof.
  intros Hf. induction l as [|x l IH]; [done|]. simpl.
  apply readonly_bind; [done|]. intros y.
  apply readonly_bind; [done|]. intros ys. apply readonly_ret.
Qed.

Lemma readonly_all_M {A} (f : A → M S bool) l :
  (∀ x, readonly (f x)) → readonly (all_M f l).
Proof.
  intros Hf. induction l as [|x l IH]; [done|]. simpl.
  apply readonly_bind; [done|]. intros []; [done|apply readonly_ret].
Qed.

Lemma readonly_fold_M {A B} (f : B → A → M S B) l b :
  (∀ b x, readonly (f b x)) → readonly (fold_M f l b).
Proof.
  intros Hf. revert b. induction l as [|x l IH]; intros b; [done|]. simpl.
  apply readonly_bind; [done|]. intros b'. apply IH.
Qed.

(** A total, pure reading [g] of each element makes [map_M] a [map]. *)
Lemma eval_map_M {A B} (f : A → M S B) (g : A → B) l s :
  (∀ x, f x s = Ok (g x, s)) → map_M f l s = Ok (map g l, s).
Proof.
  intros Hf. induction l as [|x l IH]; [done|].
  simpl. unfold bind. rewrite Hf, IH. done.
Qed.

Lemma eval_filter_M {A} (f : A → M S bool) (P : A → Prop)
    `{∀ x, Decision (P x)} l s :
  (∀ x, f x s = Ok (bool_decide (P x), s)) → filter_M f l s = Ok (filter P l, s).
Proof.
  intros Hf. induction l as [|x l IH]; [done|].
  simpl. unfold bind. rewrite Hf, IH. unfold ret.
  rewrite filter_cons. by destruct (decide (P x)); [rewrite bool_decide_true|rewrite bool_decide_false].
Qed.
End monad.

(** ** The queries of puzzle.py *)

Lemma Constraint_values_run k h :
  Constraint_values k h = Ok (values_in h k, h).
Proof. by apply eval_map_M. Qed.

Lemma Constraint_unassigned_run k h :
  Constraint_unassigned k h = Ok (unassigned_in h k, h).
Proof. by apply (eval_filter_M _ (λ c, value h !! c = None)). Qed.

Lemma Constraint_assigned_run k h :
  Constraint_assigned k h = Ok (filter (λ c, value h !! c ≠ None) (Constraint.cells k), h).
Proof. by apply (eval_filter_M _ (λ c, value h !! c ≠ None)). Qed.

Lemma omap_filter_assigned (f : coord → option Z) l :
  omap id (map f (filter (λ c, f c ≠ None) l)) = omap f l.
Proof.
  induction l as [|c l IH]; [done|].
  rewrite filter_cons. simpl. destruct (f c) eqn:E.
  - rewrite decide_True by done. simpl. rewrite E. simpl. by f_equal.
  - rewrite decide_False by (intros ?; done). done.
Qed.

Lemma assigned_values_run k h :
  assigned_values k h = Ok (assigned_values_in h k, h).
Proof.
  unfold assigned_values, bind. rewrite Constraint_assigned_run.
  rewrite (eval_map_M get_value (λ c, value h !! c)) by done.
  unfold ret, assigned_values_in. by rewrite omap_filter_assigned.
Qed.

Lemma Constraint_solved_run k h :
  Constraint_solved k h = lift (solved_in h k) h.
Proof.
  unfold Constraint_solved, bind, solved_in. rewrite Constraint_values_run.
  by destruct (all_assigned _).
Qed.

Lemma Constraint_consistent_run k h :
  Constraint_consistent k h = lift (consistent_in h k) h.
Proof.
  unfold Constraint_consistent, bind, consistent_in. rewrite Constraint_values_run.
  destruct (all_assigned _) eqn:E; [|done].
  rewrite Constraint_solved_run. unfold solved_in. by rewrite E.
Qed.

Lemma Puzzle_unassigned_run p h :
  Puzzle_unassigned p h = Ok (unassigned_cells p h, h).
Proof. by apply (eval_filter_M _ (λ c, value h !! Cell.tuple c = None)). Qed.

Lemma eval_lift {S A} (r : result A) (s : S) : eval (lift r) s = r.
Proof. unfold eval, lift. by destruct r. Qed.

Lemma readonly_of_run {S A} (m : M S A) (g : S → result A) :
  (∀ s, m s = lift (g s) s) → readonly m.
Proof. intros Hm s. unfold eval. rewrite Hm. unfold lift. by destruct (g s). Qed.

Lemma readonly_Constraint_solved k : readonly (Constraint_solved k).
Proof. apply (readonly_of_run _ (λ h, solved_in h k)), Constraint_solved_run. Qed.

Lemma readonly_Constraint_consistent k : readonly (Constraint_consistent k).
Proof. apply (readonly_of_run _ (λ h, consistent_in h k)), Constraint_consistent_run. Qed.

Lemma readonly_Puzzle_solved p : readonly (Puzzle_solved p).
Proof. apply readonly_all_M, readonly_Constraint_solved. Qed.

Lemma readonly_Puzzle_consistent p : readonly (Puzzle_consistent p).
Proof. apply readonly_all_M, readonly_Constraint_consistent. Qed.

Lemma readonly_get_value c : readonly (get_value c).
Proof. done. Qed.

Lemma readonly_get_domain c : readonly (get_domain c).
Proof. done. Qed.

Lemma readonly_get_reducer k : readonly (get_reducer k).
Proof. done. Qed.

Create HintDb readonly.
#[local] Hint Resolve readonly_get_value readonly_get_domain readonly_get_reducer
  readonly_Constraint_solved readonly_Constraint_consistent
  readonly_Puzzle_solved readonly_Puzzle_consistent : readonly.

(** Decomposes a computation along its binds and branches. *)
Ltac readonly_step :=
  first
    [ solve [auto with readonly]
    | apply readonly_ret | apply readonly_raise | apply readonly_lift
    | apply readonly_bind; [|intros ?]
    | apply readonly_map_M; intros ?
    | apply readonly_filter_M; intros ?
    | apply readonly_all_M; intros ?
    | apply readonly_fold_M; intros ? ?
    | match goal with
      | |- readonly (if ?b then _ else _) => destruct b
      | |- readonly (match ?x with _ => _ end) => destruct x
      end ].
Ltac readonly := repeat readonly_step.

Lemma readonly_Constraint_values k : readonly (Constraint_values k).
Proof. unfold Constraint_values. readonly. Qed.

Lemma readonly_Constraint_unassigned k : readonly (Constraint_unassigned k).
Proof. unfold Constraint_unassigned. readonly. Qed.

Lemma readonly_assigned_values k : readonly (assigned_values k).
Proof. unfold assigned_values, Constraint_assigned. readonly. Qed.

#[local] Hint Resolve readonly_Constraint_values readonly_Constraint_unassigned
  readonly_assigned_values : readonly.

Lemma readonly_Constraint_remainder k : readonly (Constraint_remainder k).
Proof. unfold Constraint_remainder, Constraint_total. readonly. Qed.

#[local] Hint Resolve readonly_Constraint_remainder : readonly.

Lemma readonly_Constraint_reduce `{SetOrder} `{Interpreter} k candidates :
  readonly (Constraint_reduce k candidates).
Proof.
  unfold Constraint_reduce, reduce_unique, reduce_add, reduce_mul, reduce_sub,
    reduce_div, reduce_pairs, reduce_con.
  readonly.
Qed.

#[local] Hint Resolve readonly_Constraint_reduce : readonly.

Lemma readonly_Cell_candidates `{SetOrder} `{Interpreter} c : readonly (Cell_candidates c).
Proof. unfold Cell_candidates. readonly. Qed.

Lemma readonly_Puzzle_unassigned p : readonly (Puzzle_unassigned p).
Proof. unfold Puzzle_unassigned. readonly. Qed.

#[local] Hint Resolve readonly_Cell_candidates readonly_Puzzle_unassigned : readonly.

Lemma readonly_solve_order `{SetOrder} `{Interpreter} p : readonly (solve_order p).
Proof. unfold solve_order. readonly. Qed.

#[local] Hint Resolve readonly_solve_order : readonly.

(** ** One step of the search *)

Lemma on_heap_readonly {A} (m : M Heap A) s :
  readonly m → on_heap m s = lift (eval m (heap s)) s.
Proof.
  intros Hm. unfold on_heap. rewrite (Hm (heap s)).
  destruct s as [h st]. simpl. by destruct (eval m h).
Qed.

Lemma try_candidates_nil rec p cell s :
  try_candidates rec p cell [] s = Ok (false, count_backtrack s).
Proof. done. Qed.

Lemma try_candidates_cons rec p cell v rest s :
  try_candidates rec p cell (v :: rest) s =
    match eval (Puzzle_consistent p) (heap (assign cell v s)) with
    | Ok true =>
        match rec (count_recursive_call (assign cell v s)) with
        | Ok (true, s') => Ok (true, s')
        | Ok (false, s') => try_candidates rec p cell rest (unassign cell s')
        | Raise e => Raise e
        | OutOfFuel => OutOfFuel
        end
    | Ok false => try_candidates rec p cell rest (unassign cell (assign cell v s))
    | Raise e => Raise e
    | OutOfFuel => OutOfFuel
    end.
Proof.
  cbn [try_candidates]. unfold bind at 1. unfold on_heap at 1, set_value at 1, modify at 1.
  fold (assign cell v s). unfold bind at 1.
  rewrite on_heap_readonly by auto with readonly.
  destruct (eval (Puzzle_consistent p) (heap (assign cell v s))) as [[]| |]; simpl; try done.
  unfold bind at 1, modify at 1. unfold bind at 1.
  destruct (rec _) as [[[] s']| |]; try done.
Qed.

Lemma solve_O `{SetOrder} `{Interpreter} p s : solve 0 p s = OutOfFuel.
Proof. done. Qed.

Lemma solve_S `{SetOrder} `{Interpreter} fuel p s :
  solve (S fuel) p s =
    match eval (solve_order p) (heap s) with
    | Ok [] => lift (eval (Puzzle_solved p) (heap s)) s
    | Ok (cell :: _) =>
        match eval (Cell_candidates cell) (heap s) with
        | Ok cs => try_candidates (solve fuel p) p cell (set_iter cs) s
        | Raise e => Raise e
        | OutOfFuel => OutOfFuel
        end
    | Raise e => Raise e
    | OutOfFuel => OutOfFuel
    end.
Proof.
  cbn [solve]. unfold bind at 1. rewrite on_heap_readonly by auto with readonly.
  destruct (eval (solve_order p) (heap s)) as [[|cell order]| |]; simpl; try done.
  - by rewrite on_heap_readonly by auto with readonly.
  - unfold bind at 1. rewrite on_heap_readonly by auto with readonly.
    by destruct (eval (Cell_candidates cell) (heap s)).
Qed.

(** ** The solve order *)

Lemma insert_by_key_perm {A} (x : nat * A) l : insert_by_key x l ≡ₚ x :: l.
Proof.
  induction l as [|y l IH]; [done|]. simpl. case_bool_decide; [done|].
  rewrite IH. apply Permutation_swap.
Qed.

Lemma sorted_perm {A} (l : list (nat * A)) : sorted l ≡ₚ l.
Proof.
  induction l as [|x l IH]; [done|]. simpl.
  by rewrite insert_by_key_perm, IH.
Qed.

Lemma insert_by_key_head {A} (x : nat * A) l z r :
  (∀ y r', l = y :: r' → ∀ w, w ∈ l → (fst y ≤ fst w)%nat) →
  insert_by_key x l = z :: r →
  ∀ w, w ∈ x :: l → (fst z ≤ fst w)%nat.
Proof.
  intros Hl Hins w Hw. destruct l as [|y l].
  - simpl in Hins. inversion Hins; subst. apply list_elem_of_singleton in Hw. by subst.
  - specialize (Hl y l eq_refl). simpl in Hins. case_bool_decide as Hle.
    + inversion Hins; subst. apply elem_of_cons in Hw as [->|Hw]; [done|].
      specialize (Hl w Hw). lia.
    + inversion Hins; subst. apply elem_of_cons in Hw as [->|Hw]; [lia|].
      by apply Hl.
Qed.

Lemma sorted_head {A} (l : list (nat * A)) z r :
  sorted l = z :: r → ∀ w, w ∈ l → (fst z ≤ fst w)%nat.
Proof.
  revert z r. induction l as [|x l IH]; intros z r Hs w Hw.
  - by apply elem_of_nil in Hw.
  - simpl in Hs. apply (insert_by_key_head x (sorted l) z r); [|exact Hs|].
    + intros y r' Hy w' Hw'. apply (IH y r' Hy). by rewrite <- (sorted_perm l).
    + by rewrite (sorted_perm l).
Qed.

Lemma map_M_readonly_Forall2 {S A B} (f : A → M S B) l s ys :
  (∀ x, readonly (f x)) →
  eval (map_M f l) s = Ok ys → Forall2 (λ x y, eval (f x) s = Ok y) l ys.
Proof.
  intros Hf. revert ys. induction l as [|x l IH]; intros ys; simpl.
  - unfold eval, ret. intros [= <-]. constructor.
  - rewrite eval_bind by done.
    destruct (eval (f x) s) as [y| |] eqn:Hy; simpl; try done.
    rewrite eval_bind by by apply readonly_map_M.
    destruct (eval (map_M f l) s) as [ys'| |] eqn:Hys; simpl; try done.
    unfold eval, ret. intros [= <-]. constructor; [done|by apply IH].
Qed.

(** The cell examined by a call: unassigned, and with the fewest
    candidates among the unassigned cells. *)
Lemma solve_order_head `{SetOrder} `{Interpreter} p h cell order :
  eval (solve_order p) h = Ok (cell :: order) →
  cell ∈ unassigned_cells p h ∧
  ∃ cs, eval (Cell_candidates cell) h = Ok cs ∧
    ∀ c', c' ∈ unassigned_cells p h →
      ∃ cs', eval (Cell_candidates c') h = Ok cs' ∧ (size cs ≤ size cs')%nat.
Proof.
  unfold solve_order. rewrite eval_bind by auto with readonly.
  unfold eval at 1. rewrite Puzzle_unassigned_run. simpl.
  set (key := λ c : Cell.t, cs <- Cell_candidates c ;; ret (size cs, c)).
  assert (Hkey : ∀ c, readonly (key c)) by (intros c; unfold key; readonly).
  rewrite eval_bind by by apply readonly_map_M.
  destruct (eval (map_M key _) h) as [keyed| |] eqn:Hk; simpl; try done.
  unfold eval, ret. intros [= Hsort].
  apply map_M_readonly_Forall2 in Hk; [|done].
  assert (Hread : ∀ c kc, eval (key c) h = Ok kc →
            snd kc = c ∧ ∃ cs, eval (Cell_candidates c) h = Ok cs ∧ fst kc = size cs).
  { intros c kc. unfold key. rewrite eval_bind by auto with readonly.
    destruct (eval (Cell_candidates c) h) as [cs| |]; simpl; try done.
    unfold eval, ret. intros [= <-]. eauto. }
  destruct (sorted keyed) as [|z r] eqn:Hz; [done|].
  simpl in Hsort. injection Hsort as Hcell _.
  assert (Hzin : z ∈ keyed).
  { rewrite <- (sorted_perm keyed), Hz. left. }
  apply list_elem_of_lookup in Hzin as [i Hi].
  destruct (Forall2_lookup_r _ _ _ _ _ Hk Hi) as (c & Hc & Hcz).
  apply Hread in Hcz as (Hsnd & cs & Hcs & Hfst).
  rewrite Hcell in Hsnd. subst c. split.
  { by eapply list_elem_of_lookup_2. }
  exists cs. split; [done|]. intros c' Hc'.
  apply list_elem_of_lookup in Hc' as [j Hj].
  destruct (Forall2_lookup_l _ _ _ _ _ Hk Hj) as (w & Hw & Hcw).
  apply Hread in Hcw as (_ & cs' & Hcs' & Hfst').
  exists cs'. split; [done|]. rewrite <- Hfst, <- Hfst'.
  eapply sorted_head; [done|]. by eapply list_elem_of_lookup_2.
Qed.

Lemma solve_order_nil `{SetOrder} `{Interpreter} p h :
  eval (solve_order p) h = Ok [] → unassigned_cells p h = [].
Proof.
  unfold solve_order. rewrite eval_bind by auto with readonly.
  unfold eval at 1. rewrite Puzzle_unassigned_run. simpl.
  set (key := λ c : Cell.t, cs <- Cell_candidates c ;; ret (size cs, c)).
  assert (Hkey : ∀ c, readonly (key c)) by (intros c; unfold key; readonly).
  rewrite eval_bind by by apply readonly_map_M.
  destruct (eval (map_M key _) h) as [keyed| |] eqn:Hk; simpl; try done.
  unfold eval, ret. intros [= Hsort].
  apply map_M_readonly_Forall2 in Hk; [|done].
  apply Forall2_length in Hk.
  apply (f_equal length) in Hsort. rewrite length_map, (sorted_perm keyed) in Hsort.
  simpl in Hsort. apply length_zero_iff_nil. lia.
Qed.

(** ** What the search does to the heap *)

Lemma with_value_undo c v h :
  value h !! c = None → with_value c None (with_value c (Some v) h) = h.
Proof.
  intros Hc. destruct h as [vals doms reds]. unfold with_value. simpl in *.
  by rewrite delete_insert_eq, delete_id.
Qed.

Lemma unassigned_cells_spec p h cell :
  cell ∈ unassigned_cells p h ↔ cell ∈ Puzzle.cells p ∧ value h !! Cell.tuple cell = None.
Proof. unfold unassigned_cells. rewrite list_elem_of_filter. tauto. Qed.

Lemma try_candidates_restores rec p cell cands :
  restores rec →
  ∀ s, value (heap s) !! Cell.tuple cell = None →
  ∀ b s', try_candidates rec p cell cands s = Ok (b, s') →
    domain (heap s') = domain (heap s) ∧ reducer (heap s') = reducer (heap s) ∧
    (b = false → heap s' = heap s).
Proof.
  intros Hrec. induction cands as [|v rest IH]; intros s Hnone b s'.
  - rewrite try_candidates_nil. by intros [= <- <-].
  - rewrite try_candidates_cons.
    assert (Hundo : heap (unassign cell (assign cell v s)) = heap s)
      by by apply with_value_undo.
    destruct (eval (Puzzle_consistent p) _) as [[]| |]; try done.
    + destruct (rec _) as [[[] s2]| |] eqn:Hr; try done.
      * intros [= <- <-]. apply Hrec in Hr as (? & ? & _). by split_and!.
      * apply Hrec in Hr as (_ & _ & Hheap). specialize (Hheap eq_refl).
        assert (Heq : heap (unassign cell s2) = heap s).
        { unfold unassign. simpl. rewrite Hheap. by apply with_value_undo. }
        intros Ht. apply IH in Ht; [|by rewrite Heq]. by rewrite Heq in Ht.
    + intros Ht. apply IH in Ht; [|by rewrite Hundo]. by rewrite Hundo in Ht.
Qed.

Lemma solve_restores `{SetOrder} `{Interpreter} fuel p : restores (solve fuel p).
Proof.
  induction fuel as [|fuel IH]; intros s b s'; [done|].
  rewrite solve_S.
  destruct (eval (solve_order p) (heap s)) as [[|cell order]| |] eqn:Ho; try done.
  - destruct (eval (Puzzle_solved p) (heap s)); simpl; try done. by intros [= <- <-].
  - destruct (eval (Cell_candidates cell) (heap s)) as [cs| |]; try done.
    apply try_candidates_restores; [done|].
    apply solve_order_head in Ho as [Hin _].
    by apply unassigned_cells_spec in Hin as [_ ?].
Qed.

Lemma try_candidates_sound rec p cell cands :
  sound p rec → sound p (try_candidates rec p cell cands).
Proof.
  intros Hrec. induction cands as [|v rest IH]; intros s s'.
  - by rewrite try_candidates_nil.
  - rewrite try_candidates_cons.
    destruct (eval (Puzzle_consistent p) _) as [[]| |]; try done.
    + destruct (rec _) as [[[] s2]| |] eqn:Hr; try done.
      * intros [= <-]. by apply Hrec in Hr.
      * apply IH.
    + apply IH.
Qed.

Lemma solve_sound `{SetOrder} `{Interpreter} fuel p : sound p (solve fuel p).
Proof.
  induction fuel as [|fuel IH]; intros s s'; [done|].
  rewrite solve_S.
  destruct (eval (solve_order p) (heap s)) as [[|cell order]| |]; try done.
  - destruct (eval (Puzzle_solved p) (heap s)) as [[]| |] eqn:Hs; simpl; try done.
    by intros [= <-].
  - destruct (eval (Cell_candidates cell) (heap s)) as [cs| |]; try done.
    by apply try_candidates_sound.
Qed.

(** ** Termination *)

Lemma fuel_free_bind {S A B} (m : M S A) (f : A → M S B) :
  fuel_free m → (∀ a, fuel_free (f a)) → fuel_free (bind m f).
Proof.
  intros Hm Hf s. unfold bind. specialize (Hm s).
  destruct (m s) as [[a s']| |]; [apply Hf|done|done].
Qed.

Lemma fuel_free_map_M {S A B} (f : A → M S B) l :
  (∀ x, fuel_free (f x)) → fuel_free (map_M f l).
Proof.
  intros Hf. induction l as [|x l IH]; [done|]. simpl.
  apply fuel_free_bind; [done|]. intros y.
  apply fuel_free_bind; [done|]. by intros ys s.
Qed.

Lemma fuel_free_filter_M {S A} (f : A → M S bool) l :
  (∀ x, fuel_free (f x)) → fuel_free (filter_M f l).
Proof.
  intros Hf. induction l as [|x l IH]; [done|]. simpl.
  apply fuel_free_bind; [done|]. intros y.
  apply fuel_free_bind; [done|]. by intros ys s.
Qed.

Lemma fuel_free_all_M {S A} (f : A → M S bool) l :
  (∀ x, fuel_free (f x)) → fuel_free (all_M f l).
Proof.
  intros Hf. induction l as [|x l IH]; [done|]. simpl.
  apply fuel_free_bind; [done|]. by intros [].
Qed.

Lemma fuel_free_fold_M {S A B} (f : B → A → M S B) l b :
  (∀ b x, fuel_free (f b x)) → fuel_free (fold_M f l b).
Proof.
  intros Hf. revert b. induction l as [|x l IH]; intros b; [done|]. simpl.
  apply fuel_free_bind; [done|]. intros b'. apply IH.
Qed.

Lemma fuel_free_lift {S A} (r : result A) :
  r ≠ OutOfFuel → fuel_free (lift r : M S A).
Proof. intros Hr s. unfold lift. by destruct r. Qed.

Lemma evaluate_fuel k values : evaluate k values ≠ OutOfFuel.
Proof.
  unfold evaluate.
  destruct (Constraint.variant k); try done; by destruct values as [|? [|? ?]].
Qed.

Lemma filter_result_fuel {A} (f : A → result bool) l :
  (∀ x, f x ≠ OutOfFuel) → filter_result f l ≠ OutOfFuel.
Proof.
  intros Hf. induction l as [|x l IH]; [done|]. simpl.
  specialize (Hf x). destruct (f x); try done.
  by destruct (filter_result f l).
Qed.

(** ** The reductions, read from a heap *)

Lemma Constraint_remainder_run k h :
  Constraint_remainder k h = lift (remainder_in h k) h.
Proof.
  unfold Constraint_remainder, Constraint_total, remainder_in.
  destruct (Constraint.variant k); try done.
  - unfold bind. by rewrite assigned_values_run.
  - unfold bind. rewrite assigned_values_run. simpl. by case_bool_decide.
Qed.

Lemma reduce_unique_run k candidates h :
  reduce_unique k candidates h
  = Ok (PySet (symmetric_difference candidates (list_to_set (assigned_values_in h k))), h).
Proof. unfold reduce_unique, bind. by rewrite assigned_values_run. Qed.

Lemma reduce_add_run k candidates h :
  reduce_add k candidates h =
    match remainder_in h k with
    | Ok remainder =>
        Ok (PySet (if bool_decide (length (unassigned_in h k) = 1%nat)
                   then if bool_decide (remainder ∈ candidates) then {[remainder]} else ∅
                   else filter (λ candidate, remainder - candidate > 0) candidates), h)
    | Raise e => Raise e
    | OutOfFuel => OutOfFuel
    end.
Proof.
  unfold reduce_add, bind. rewrite Constraint_remainder_run.
  destruct (remainder_in h k) as [r| |]; simpl; try done.
  rewrite Constraint_unassigned_run. by case_bool_decide.
Qed.

Lemma reduce_mul_run k candidates h :
  reduce_mul k candidates h =
    match remainder_in h k with
    | Ok remainder =>
        if bool_decide (length (unassigned_in h k) = 1%nat)
        then Ok (PySet (if bool_decide (remainder ∈ candidates) then {[remainder]} else ∅), h)
        else if bool_decide (0 ∈ candidates) then Raise ZeroDivisionError
        else Ok (PySet (filter (λ candidate, remainder `mod` candidate = 0) candidates), h)
    | Raise e => Raise e
    | OutOfFuel => OutOfFuel
    end.
Proof.
  unfold reduce_mul, bind. rewrite Constraint_remainder_run.
  destruct (remainder_in h k) as [r| |]; simpl; try done.
  rewrite Constraint_unassigned_run. repeat case_bool_decide; done.
Qed.

Lemma reduce_con_run k candidates h :
  reduce_con k candidates h =
    match Constraint_value k with
    | Ok v => Ok (PySet (if bool_decide (v ∈ candidates) then {[v]} else ∅), h)
    | Raise e => Raise e
    | OutOfFuel => OutOfFuel
    end.
Proof. unfold reduce_con, bind, lift. by destruct (Constraint_value k). Qed.

Lemma reduce_pairs_run `{SetOrder} `{Interpreter} k candidates h :
  reduce_pairs k candidates h
  = Ok (PyGen (flatten (pairs candidates (λ p, evaluate k [fst p; snd p]))), h).
Proof. done. Qed.

(** What [set(...)] makes of the result of a reduction: the generator of a
    [-] or [/] cage is consumed, the other reductions return a set. *)
Lemma Constraint_reduce_gen `{SetOrder} `{Interpreter} k candidates h r :
  pair_rule k → eval (Constraint_reduce k candidates) h = Ok r →
  r = PyGen (flatten (pairs candidates (λ p, evaluate k [fst p; snd p]))).
Proof.
  unfold pair_rule, eval, Constraint_reduce, bind, get_reducer.
  case_bool_decide; [|by intros _ ?].
  destruct (Constraint.variant k); try done; intros _;
    unfold reduce_sub, reduce_div; rewrite reduce_pairs_run; by intros [= <-].
Qed.

Lemma Constraint_reduce_set `{SetOrder} `{Interpreter} k candidates h r :
  ¬ pair_rule k → eval (Constraint_reduce k candidates) h = Ok r → ∃ s, r = PySet s.
Proof.
  unfold pair_rule, eval, Constraint_reduce, bind, get_reducer.
  case_bool_decide; [|by intros _ ?].
  destruct (Constraint.variant k) as [|t|t|t|t|t]; try (by intros []); intros _.
  - rewrite reduce_unique_run. intros [= <-]. eauto.
  - rewrite reduce_add_run. destruct (remainder_in h k); try done. intros [= <-]. eauto.
  - rewrite reduce_mul_run. destruct (remainder_in h k); try done.
    repeat case_bool_decide; try done; intros [= <-]; eauto.
  - rewrite reduce_con_run. destruct (Constraint_value k); try done. intros [= <-]. eauto.
Qed.

(** One step of the loop of [Cell.candidates], read from a heap. *)
Lemma reduce_step_eval `{SetOrder} `{Interpreter} k (b : gset Z) h :
  eval (r <- Constraint_reduce k b ;; reduced <- lift (to_set r) ;; ret (b ∩ reduced)) h
  = rbind (eval (Constraint_reduce k b) h)
          (λ r, rbind (to_set r) (λ reduced, Ok (b ∩ reduced))).
Proof.
  unfold eval, bind.
  destruct (Constraint_reduce k b h) as [[r h']| |]; try done. simpl.
  unfold lift. by destruct (to_set r).
Qed.

Create HintDb fuel_free.

Ltac fuel_free_step :=
  first
    [ solve [auto with fuel_free]
    | apply fuel_free_bind; [|intros ?]
    | apply fuel_free_map_M; intros ?
    | apply fuel_free_filter_M; intros ?
    | apply fuel_free_all_M; intros ?
    | apply fuel_free_fold_M; intros ? ?
    | apply fuel_free_lift
    | apply evaluate_fuel
    | apply filter_result_fuel; intros ?
    | match goal with
      | |- fuel_free (if ?b then _ else _) => destruct b
      | |- fuel_free (match ?x with _ => _ end) => destruct x
      end
    | by intros ? ].
Ltac fuel_free := repeat fuel_free_step.

Lemma fuel_free_Puzzle_solved p : fuel_free (Puzzle_solved p).
Proof.
  unfold Puzzle_solved, Constraint_solved, Constraint_values, get_value. fuel_free.
Qed.

Lemma fuel_free_Puzzle_consistent p : fuel_free (Puzzle_consistent p).
Proof.
  unfold Puzzle_consistent, Constraint_consistent, Constraint_solved,
    Constraint_values, get_value.
  fuel_free.
Qed.

Lemma fuel_free_Constraint_reduce `{SetOrder} `{Interpreter} k candidates :
  fuel_free (Constraint_reduce k candidates).
Proof.
  unfold Constraint_reduce, reduce_unique, reduce_add, reduce_mul, reduce_sub,
    reduce_div, reduce_pairs, reduce_con, Constraint_remainder, Constraint_total,
    assigned_values, Constraint_assigned, Constraint_unassigned, pairs,
    Constraint_value.
  fuel_free.
Qed.

#[local] Hint Resolve fuel_free_Constraint_reduce : fuel_free.

Lemma to_set_fuel `{SetOrder} `{Interpreter} k candidates h r :
  eval (Constraint_reduce k candidates) h = Ok r → to_set r ≠ OutOfFuel.
Proof.
  intros Hr. destruct (decide (pair_rule k)) as [Hk|Hk].
  - rewrite (Constraint_reduce_gen k candidates h r Hk Hr). simpl.
    unfold flatten, pairs. destruct collections_Iterable; [|done].
    pose proof (filter_result_fuel (λ p : Z * Z, evaluate k [p.1; p.2])
                  (combinations2 (set_iter candidates))
                  (λ p, evaluate_fuel k [p.1; p.2])) as Hf.
    by destruct (filter_result _ _).
  - by destruct (Constraint_reduce_set k candidates h r Hk Hr) as [s ->].
Qed.

Lemma fuel_free_Cell_candidates `{SetOrder} `{Interpreter} c : fuel_free (Cell_candidates c).
Proof.
  unfold Cell_candidates. apply fuel_free_bind; [by intros ?|]. intros d.
  apply fuel_free_fold_M. intros b k h. unfold bind at 1.
  destruct (Constraint_reduce k b h) as [[r h']| |] eqn:Hr; [|done|].
  - assert (Hs : to_set r ≠ OutOfFuel).
    { apply (to_set_fuel k b h). unfold eval. by rewrite Hr. }
    unfold bind, lift. by destruct (to_set r).
  - by apply fuel_free_Constraint_reduce in Hr.
Qed.

#[local] Hint Resolve fuel_free_Cell_candidates fuel_free_Puzzle_solved
  fuel_free_Puzzle_consistent : fuel_free.

Lemma fuel_free_solve_order `{SetOrder} `{Interpreter} p : fuel_free (solve_order p).
Proof. unfold solve_order, Puzzle_unassigned. fuel_free. Qed.

#[local] Hint Resolve fuel_free_solve_order : fuel_free.

Lemma eval_fuel_free {S A} (m : M S A) s : fuel_free m → eval m s ≠ OutOfFuel.
Proof. intros Hm. unfold eval. specialize (Hm s). by destruct (m s) as [[]| |]. Qed.

(** The number of unassigned cells is what the recursion consumes. *)
Lemma filter_length_lt {A} (P Q : A → Prop) `{∀ x, Decision (P x)}
    `{∀ x, Decision (Q x)} (l : list A) x :
  (∀ y, Q y → P y) → x ∈ l → P x → ¬ Q x →
  (length (filter Q l) < length (filter P l))%nat.
Proof.
  intros HQP Hin HP HQ.
  assert (Hle : ∀ l', (length (filter Q l') ≤ length (filter P l'))%nat).
  { induction l' as [|y l' IH]; [done|]. rewrite !filter_cons.
    destruct (decide (Q y)) as [HQy|].
    - rewrite decide_True by auto. simpl. lia.
    - destruct (decide (P y)); simpl; lia. }
  induction l as [|y l IH]; [by apply elem_of_nil in Hin|].
  rewrite !filter_cons. apply elem_of_cons in Hin as [<-|Hin].
  - destruct (decide (Q x)); [done|]. destruct (decide (P x)); [|done].
    simpl. specialize (Hle l). lia.
  - specialize (IH Hin). destruct (decide (Q y)) as [HQy|].
    + rewrite decide_True by auto. simpl. lia.
    + destruct (decide (P y)); simpl; lia.
Qed.

Lemma assign_decreases p cell v h :
  cell ∈ unassigned_cells p h →
  (length (unassigned_cells p (with_value (Cell.tuple cell) (Some v) h))
   < length (unassigned_cells p h))%nat.
Proof.
  intros [Hin Hnone]%unassigned_cells_spec. unfold unassigned_cells.
  apply (filter_length_lt _ _ _ cell); [|done|done|].
  - intros c. simpl. destruct (decide (Cell.tuple cell = Cell.tuple c)) as [->|Hne].
    + by rewrite lookup_insert_eq.
    + by rewrite lookup_insert_ne.
  - simpl. by rewrite lookup_insert_eq.
Qed.

Lemma try_candidates_fuel rec p cell cands n :
  restores rec →
  (∀ s1, (length (unassigned_cells p (heap s1)) < n)%nat → rec s1 ≠ OutOfFuel) →
  ∀ s, cell ∈ unassigned_cells p (heap s) →
       (length (unassigned_cells p (heap s)) ≤ n)%nat →
       try_candidates rec p cell cands s ≠ OutOfFuel.
Proof.
  intros Hres Hrec. induction cands as [|v rest IH]; intros s Hin Hn; [done|].
  rewrite try_candidates_cons.
  assert (Hnone : value (heap s) !! Cell.tuple cell = None)
    by by apply unassigned_cells_spec in Hin as [_ ?].
  assert (Hundo : heap (unassign cell (assign cell v s)) = heap s)
    by by apply with_value_undo.
  pose proof (eval_fuel_free (Puzzle_consistent p) (heap (assign cell v s))
                (fuel_free_Puzzle_consistent p)) as Hc.
  destruct (eval (Puzzle_consistent p) _) as [[]| |]; try done.
  - assert (Hlt : (length (unassigned_cells p (heap (count_recursive_call (assign cell v s)))) < n)%nat).
    { simpl. pose proof (assign_decreases p cell v (heap s) Hin). lia. }
    specialize (Hrec _ Hlt).
    destruct (rec _) as [[[] s2]| |] eqn:Hr; try done.
    apply Hres in Hr as (_ & _ & Hheap). specialize (Hheap eq_refl).
    assert (Heq : heap (unassign cell s2) = heap s).
    { unfold unassign. simpl. rewrite Hheap. by apply with_value_undo. }
    apply IH; by rewrite Heq.
  - apply IH; by rewrite Hundo.
Qed.

(** Fuel above the number of unassigned cells is never used up. *)
Lemma solve_fuel `{SetOrder} `{Interpreter} fuel p s :
  (length (unassigned_cells p (heap s)) < fuel)%nat → solve fuel p s ≠ OutOfFuel.
Proof.
  revert s. induction fuel as [|fuel IH]; intros s Hlt; [lia|].
  rewrite solve_S.
  pose proof (eval_fuel_free (solve_order p) (heap s) (fuel_free_solve_order p)) as Ho.
  destruct (eval (solve_order p) (heap s)) as [[|cell order]| |] eqn:Hord; try done.
  - pose proof (eval_fuel_free (Puzzle_solved p) (heap s) (fuel_free_Puzzle_solved p)).
    by destruct (eval (Puzzle_solved p) (heap s)).
  - pose proof (eval_fuel_free (Cell_candidates cell) (heap s)
                  (fuel_free_Cell_candidates cell)).
    destruct (eval (Cell_candidates cell) (heap s)) as [cs| |]; try done.
    apply solve_order_head in Hord as [Hin _].
    apply (try_candidates_fuel _ _ _ _ fuel); [apply solve_restores|apply IH|done|lia].
Qed.

(** [initialize] as a heap transformer. *)
Lemma for_M_modify {S A} (g : A → S → S) l s :
  for_M (λ x, modify (g x)) l s = Ok (tt, foldl (λ s x, g x s) s l).
Proof.
  revert s. induction l as [|x l IH]; intros s; [done|].
  simpl. unfold bind, modify at 1. by rewrite IH.
Qed.

Lemma initialize_run p h : initialize p h = Ok (tt, initialized p h).
Proof.
  unfold initialize, bind, set_domain, set_reducer.
  rewrite (for_M_modify (λ cell, with_domain (Cell.tuple cell) (Puzzle_domain p))).
  by rewrite (for_M_modify (λ k, with_reducer (Constraint.id k))).
Qed.

Lemma foldl_with_reducer (ks : list Constraint.t) h :
  value (foldl (λ h k, with_reducer (Constraint.id k) h) h ks) = value h ∧
  domain (foldl (λ h k, with_reducer (Constraint.id k) h) h ks) = domain h ∧
  ∀ k, k ∈ ks ∨ Constraint.id k ∈ reducer h →
       Constraint.id k ∈ reducer (foldl (λ h k, with_reducer (Constraint.id k) h) h ks).
Proof.
  revert h. induction ks as [|k0 ks IH]; intros h; simpl.
  - split_and!; [done..|]. intros k [Hk|Hk]; [by apply elem_of_nil in Hk|done].
  - destruct (IH (with_reducer (Constraint.id k0) h)) as (Hv & Hd & Hr).
    split_and!; [done..|]. intros k Hk. apply Hr.
    destruct Hk as [[->|Hk]%elem_of_cons|Hk]; [right|by left|right]; simpl.
    + by apply elem_of_union_l, elem_of_singleton.
    + by apply elem_of_union_r.
Qed.

Lemma foldl_with_domain (cs : list Cell.t) d h :
  value (foldl (λ h cell, with_domain (Cell.tuple cell) d h) h cs) = value h ∧
  reducer (foldl (λ h cell, with_domain (Cell.tuple cell) d h) h cs) = reducer h ∧
  ∀ c, c ∈ cs ∨ domain h !! Cell.tuple c = Some d →
       domain (foldl (λ h cell, with_domain (Cell.tuple cell) d h) h cs) !! Cell.tuple c
       = Some d.
Proof.
  revert h. induction cs as [|c0 cs IH]; intros h; simpl.
  - split_and!; [done..|]. intros c [Hc|Hc]; [by apply elem_of_nil in Hc|done].
  - destruct (IH (with_domain (Cell.tuple c0) d h)) as (Hv & Hr & Hd).
    split_and!; [done..|]. intros c Hc. apply Hd.
    destruct Hc as [[->|Hc]%elem_of_cons|Hc]; [right|by left|right]; simpl.
    + by rewrite lookup_insert_eq.
    + destruct (decide (Cell.tuple c0 = Cell.tuple c)) as [->|Hne].
      * by rewrite lookup_insert_eq.
      * by rewrite lookup_insert_ne.
Qed.

Lemma initialized_value p h : value (initialized p h) = value h.
Proof.
  unfold initialized.
  destruct (foldl_with_reducer (Puzzle.constraints p)
    (foldl (λ h cell, with_domain (Cell.tuple cell) (Puzzle_domain p) h) h (Puzzle.cells p)))
    as (-> & _ & _).
  by destruct (foldl_with_domain (Puzzle.cells p) (Puzzle_domain p) h) as (-> & _ & _).
Qed.

Lemma initialized_domains p h : domains_set p (initialized p h).
Proof.
  intros cell Hcell. unfold initialized.
  destruct (foldl_with_reducer (Puzzle.constraints p)
    (foldl (λ h cell, with_domain (Cell.tuple cell) (Puzzle_domain p) h) h (Puzzle.cells p)))
    as (_ & -> & _).
  destruct (foldl_with_domain (Puzzle.cells p) (Puzzle_domain p) h) as (_ & _ & Hd).
  apply Hd. by left.
Qed.

Lemma initialized_reducers p h k :
  k ∈ Puzzle.constraints p → Constraint.id k ∈ reducer (initialized p h).
Proof.
  intros Hk. unfold initialized.
  destruct (foldl_with_reducer (Puzzle.constraints p)
    (foldl (λ h cell, with_domain (Cell.tuple cell) (Puzzle_domain p) h) h (Puzzle.cells p)))
    as (_ & _ & Hr).
  apply Hr. by left.
Qed.

Lemma backtrack_solve_run `{SetOrder} `{Interpreter} p h :
  backtrack_solve p h =
    match solve (S (length (Puzzle.cells p))) p (mkSearch (initialized p h) (mkStats 0 0)) with
    | Ok (b, s) => Ok ((b, stats s), heap s)
    | Raise e => Raise e
    | OutOfFuel => OutOfFuel
    end.
Proof.
  unfold backtrack_solve, with_stats, bind, on_heap. simpl.
  by rewrite initialize_run.
Qed.

(** ** Candidates stay inside the domain *)

Lemma Puzzle_domain_spec p v : v ∈ Puzzle_domain p ↔ 1 ≤ v ≤ Puzzle.width p.
Proof.
  unfold Puzzle_domain. rewrite elem_of_list_to_set, elem_of_seqZ. lia.
Qed.

Lemma fold_intersect_subset `{SetOrder} `{Interpreter} ks b h b' :
  eval (fold_M (λ candidates k,
                  r <- Constraint_reduce k candidates ;;
                  reduced <- lift (to_set r) ;;
                  ret (candidates ∩ reduced)) ks b) h = Ok b' →
  b' ⊆ b.
Proof.
  revert b. induction ks as [|k ks IH]; intros b; simpl.
  - unfold eval, ret. by intros [= <-].
  - rewrite eval_bind by readonly. rewrite reduce_step_eval.
    destruct (eval (Constraint_reduce k b) h) as [r| |]; simpl; try done.
    destruct (to_set r) as [reduced| |]; simpl; try done.
    intros Hf%IH. etrans; [exact Hf|]. apply intersection_subseteq_l.
Qed.

Lemma Cell_candidates_subset `{SetOrder} `{Interpreter} c h cs :
  eval (Cell_candidates c) h = Ok cs → cs ⊆ default ∅ (domain h !! Cell.tuple c).
Proof.
  unfold Cell_candidates. rewrite eval_bind by readonly.
  unfold eval at 1, get_domain. simpl. apply fold_intersect_subset.
Qed.

Lemma in_range_assign p cell v h :
  in_range p h → 1 ≤ v ≤ Puzzle.width p →
  in_range p (with_value (Cell.tuple cell) (Some v) h).
Proof.
  intros Hr Hv c w. simpl.
  destruct (decide (Cell.tuple cell = c)) as [->|Hne].
  - rewrite lookup_insert_eq. by intros [= <-].
  - rewrite lookup_insert_ne by done. apply Hr.
Qed.

Lemma set_iter_elem `{SetOrder} (s : gset Z) v : v ∈ set_iter s ↔ v ∈ s.
Proof. by rewrite (set_iter_perm s), elem_of_elements. Qed.

(** The values the search assigns are candidates, hence in the domain. *)
Lemma try_candidates_in_range rec p cell cands :
  restores rec →
  (∀ s1 b s2, domains_set p (heap s1) → in_range p (heap s1) →
              rec s1 = Ok (b, s2) → in_range p (heap s2)) →
  Forall (λ v, 1 ≤ v ≤ Puzzle.width p) cands →
  ∀ s, value (heap s) !! Cell.tuple cell = None →
       domains_set p (heap s) → in_range p (heap s) →
  ∀ b s', try_candidates rec p cell cands s = Ok (b, s') → in_range p (heap s').
Proof.
  intros Hres Hrec. induction cands as [|v rest IH]; intros Hall s Hnone Hdom Hin b s'.
  - rewrite try_candidates_nil. by intros [= <- <-].
  - apply Forall_cons in Hall as [Hv Hall]. rewrite try_candidates_cons.
    assert (Hundo : heap (unassign cell (assign cell v s)) = heap s)
      by by apply with_value_undo.
    destruct (eval (Puzzle_consistent p) _) as [[]| |]; try done.
    + destruct (rec _) as [[[] s2]| |] eqn:Hr; try done.
      * intros [= <- <-]. apply Hrec in Hr; [done|exact Hdom|].
        by apply in_range_assign.
      * apply Hres in Hr as (_ & _ & Hheap). specialize (Hheap eq_refl).
        assert (Heq : heap (unassign cell s2) = heap s).
        { unfold unassign. simpl. rewrite Hheap. by apply with_value_undo. }
        apply IH; by rewrite ?Heq.
    + apply IH; by rewrite ?Hundo.
Qed.

Lemma solve_in_range `{SetOrder} `{Interpreter} fuel p s b s' :
  domains_set p (heap s) → in_range p (heap s) →
  solve fuel p s = Ok (b, s') → in_range p (heap s').
Proof.
  revert s b s'. induction fuel as [|fuel IH]; intros s b s' Hdom Hin; [done|].
  rewrite solve_S.
  destruct (eval (solve_order p) (heap s)) as [[|cell order]| |] eqn:Ho; try done.
  - destruct (eval (Puzzle_solved p) (heap s)); simpl; try done. by intros [= <- <-].
  - destruct (eval (Cell_candidates cell) (heap s)) as [cs| |] eqn:Hcs; try done.
    apply solve_order_head in Ho as [[Hcell Hnone]%unassigned_cells_spec _].
    apply try_candidates_in_range; try done; [apply solve_restores|].
    apply Forall_forall. intros v Hv%set_iter_elem.
    apply Cell_candidates_subset in Hcs. apply Hcs in Hv.
    rewrite (Hdom cell Hcell) in Hv. by apply Puzzle_domain_spec.
Qed.

(** ** What a solved puzzle satisfies *)

Lemma all_M_true {S A} (f : A → M S bool) l s :
  (∀ x, readonly (f x)) →
  eval (all_M f l) s = Ok true → ∀ x, x ∈ l → eval (f x) s = Ok true.
Proof.
  intros Hf. induction l as [|y l IH]; intros Hall x Hx.
  - by apply elem_of_nil in Hx.
  - simpl in Hall. rewrite eval_bind in Hall by done.
    destruct (eval (f y) s) as [[]| |] eqn:Hy; simpl in Hall; try done.
    apply elem_of_cons in Hx as [->|Hx]; [done|by apply IH].
Qed.

Lemma all_assigned_Some values vs :
  all_assigned values = Some vs ↔ values = map Some vs.
Proof.
  revert vs. induction values as [|[v|] l IH]; intros vs; simpl.
  - split; [by intros [= <-]|by destruct vs].
  - destruct (all_assigned l) as [vs'|] eqn:E.
    + split.
      * intros [= <-]. simpl. f_equal. by apply IH.
      * destruct vs as [|w vs]; [done|]. simpl. intros [= -> Hl].
        apply IH in Hl. by injection Hl as ->.
    + split; [done|]. destruct vs as [|w vs]; [done|]. simpl. intros [= -> Hl].
      by apply IH in Hl.
  - split; [done|]. by destruct vs.
Qed.

Lemma sum_foldr vs : sum vs = foldr Z.add 0 vs.
Proof. unfold sum. apply fold_symmetric; intros; lia. Qed.

Lemma product_foldr vs : product vs = foldr Z.mul 1 vs.
Proof. unfold product. apply fold_symmetric; intros; lia. Qed.

Lemma unique_NoDup (vs : list Z) :
  length vs = size (list_to_set vs : gset Z) → NoDup vs.
Proof.
  assert (Hle : ∀ l : list Z, (size (list_to_set l : gset Z) ≤ length l)%nat).
  { induction l as [|x l IH]; [done|]. simpl.
    rewrite size_union_alt, size_singleton.
    assert ((size ((list_to_set l : gset Z) ∖ {[x]}) ≤ size (list_to_set l : gset Z))%nat)
      by apply subseteq_size, subseteq_difference_l, reflexivity.
    lia. }
  induction vs as [|x vs IH]; intros Hlen; [constructor|].
  simpl in Hlen. destruct (decide (x ∈ vs)) as [Hin|Hnin].
  - assert (Heq : ({[x]} ∪ list_to_set vs : gset Z) = list_to_set vs).
    { apply subseteq_union_1_L, singleton_subseteq_l, elem_of_list_to_set. done. }
    rewrite Heq in Hlen. specialize (Hle vs). lia.
  - constructor; [done|]. apply IH.
    rewrite size_union, size_singleton in Hlen; [lia|].
    apply disjoint_singleton_l. by rewrite elem_of_list_to_set.
Qed.

(** A solved constraint: assigned everywhere, and its rule holds. *)
Lemma solved_in_true h k :
  solved_in h k = Ok true →
  ∃ vs, values_in h k = map Some vs ∧ evaluate k vs = Ok true ∧ rule k vs.
Proof.
  unfold solved_in. destruct (all_assigned (values_in h k)) as [vs|] eqn:Hvs; [|done].
  apply all_assigned_Some in Hvs. intros Hev. exists vs. split_and!; [done..|].
  unfold evaluate in Hev. unfold rule.
  destruct (Constraint.variant k) as [|t|t|t|t|t].
  - injection Hev as Hev%bool_decide_eq_true. by apply unique_NoDup.
  - injection Hev as Hev%bool_decide_eq_true. by rewrite <- sum_foldr.
  - injection Hev as Hev%bool_decide_eq_true. by rewrite <- product_foldr.
  - destruct vs as [|a [|b rest]]; try done.
    injection Hev as Hev%bool_decide_eq_true. eauto.
  - destruct vs as [|a [|b rest]]; try done.
    injection Hev as Hev%orb_true_iff. exists a, b, rest. split; [done|].
    destruct Hev as [?%bool_decide_eq_true|?%bool_decide_eq_true]; auto.
  - destruct vs as [|a rest]; try done.
    injection Hev as Hev%bool_decide_eq_true. eauto.
Qed.

Lemma Puzzle_solved_true p h k :
  eval (Puzzle_solved p) h = Ok true → k ∈ Puzzle.constraints p →
  solved_in h k = Ok true.
Proof.
  intros Hs Hk. apply (all_M_true Constraint_solved _ h) with (x := k) in Hs;
    [|apply readonly_Constraint_solved|done].
  unfold eval in Hs. rewrite Constraint_solved_run in Hs.
  unfold lift in Hs. by destruct (solved_in h k).
Qed.

(** Distinct values of [1..N] in [N] cells are each value exactly once. *)
Lemma latin_line (vs : list Z) (n : Z) :
  NoDup vs → (∀ v, v ∈ vs → 1 ≤ v ≤ n) → length vs = Z.to_nat n → vs ≡ₚ seqZ 1 n.
Proof.
  intros Hnd Hr Hlen. apply submseteq_length_Permutation.
  - apply NoDup_submseteq; [done|]. intros v Hv%Hr. apply elem_of_seqZ. lia.
  - rewrite length_seqZ. lia.
Qed.

Lemma values_in_range p h k vs :
  in_range p h → values_in h k = map Some vs → ∀ v, v ∈ vs → 1 ≤ v ≤ Puzzle.width p.
Proof.
  intros Hr Hvs v Hv.
  assert (Hin : Some v ∈ values_in h k) by (rewrite Hvs; by apply list_elem_of_fmap_2).
  unfold values_in in Hin. apply list_elem_of_fmap in Hin as (c & Hc & _).
  by apply (Hr c).
Qed.

(** ** Every run of the search has the shape of [runs] *)

Lemma try_candidates_traced `{SetOrder} `{Interpreter} rec p cell cands :
  restores rec → traced p rec →
  ∀ s, value (heap s) !! Cell.tuple cell = None →
  ∀ b s', try_candidates rec p cell cands s = Ok (b, s') →
    ∃ t, loops p (heap s) cell cands t ∧ b = found t ∧
      recursive_calls (stats s') = (recursive_calls (stats s) + descents_tries t)%nat ∧
      backtracks (stats s') = (backtracks (stats s) + exhausts_tries t)%nat.
Proof.
  intros Hres Hrec. induction cands as [|v rest IH]; intros s Hnone b s'.
  - rewrite try_candidates_nil. intros [= <- <-]. exists Exhausted.
    split_and!; [constructor|done|simpl; lia|simpl; lia].
  - rewrite try_candidates_cons.
    assert (Hundo : heap (unassign cell (assign cell v s)) = heap s)
      by by apply with_value_undo.
    destruct (eval (Puzzle_consistent p) _) as [[]| |] eqn:Hc; try done.
    + destruct (rec _) as [[[] s2]| |] eqn:Hr; try done.
      * intros [= <- <-]. apply Hrec in Hr as (sub & Hsub & Hb & Hrc & Hbt).
        exists (Found v sub). simpl in *.
        split_and!; [by constructor|done|lia|lia].
      * pose proof (Hres _ _ _ Hr) as (_ & _ & Hheap). specialize (Hheap eq_refl).
        apply Hrec in Hr as (sub & Hsub & Hb & Hrc & Hbt).
        assert (Heq : heap (unassign cell s2) = heap s).
        { unfold unassign. simpl. rewrite Hheap. by apply with_value_undo. }
        intros Ht. apply IH in Ht as (t & Ht & Hf & Hrc' & Hbt'); [|by rewrite Heq].
        rewrite Heq in Ht. exists (Failed v sub t). simpl in *.
        split_and!; [by constructor|done|lia|lia].
    + intros Ht. apply IH in Ht as (t & Ht & Hf & Hrc' & Hbt'); [|by rewrite Hundo].
      rewrite Hundo in Ht. exists (Rejected v t). simpl in *.
      split_and!; [by constructor|done|lia|lia].
Qed.

Lemma solve_traced `{SetOrder} `{Interpreter} fuel p : traced p (solve fuel p).
Proof.
  induction fuel as [|fuel IH]; intros s b s'; [done|].
  rewrite solve_S.
  destruct (eval (solve_order p) (heap s)) as [[|cell order]| |] eqn:Ho; try done.
  - destruct (eval (Puzzle_solved p) (heap s)) as [solved| |] eqn:Hs; simpl; try done.
    intros [= <- <-]. exists (Full solved).
    split_and!; [|done|simpl; lia|simpl; lia].
    constructor; [by apply solve_order_nil|done].
  - destruct (eval (Cell_candidates cell) (heap s)) as [cs| |] eqn:Hcs; try done.
    apply solve_order_head in Ho as (Hin & cs0 & Hcs0 & Hmin).
    assert (cs0 = cs) as -> by congruence.
    intros Ht. apply try_candidates_traced in Ht as (t & Ht & Hb & Hrc & Hbt);
      [|apply solve_restores|done|by apply unassigned_cells_spec in Hin as [_ ?]].
    exists (Node cell t). split_and!; [|done..]. by econstructor.
Qed.

(** A loop that does not find a solution has gone through every candidate;
    one that does has gone through the candidates up to the one found. *)
Lemma loops_tried `{SetOrder} `{Interpreter} p h cell cands t :
  loops p h cell cands t →
  tried t `prefix_of` cands ∧ (found t = false → tried t = cands).
Proof.
  induction 1 as [| ? ? ? ? ? ? ? [IH1 IH2] | ? ? ? ? ? ? ? ? ? ? [IH1 IH2] | ]; simpl.
  - done.
  - split; [by apply prefix_cons|]. intros Hf. f_equal. by apply IH2.
  - split; [by apply prefix_cons|]. intros Hf. f_equal. by apply IH2.
  - split; [|done]. apply prefix_cons, prefix_nil.
Qed.

(** A call that examines a cell and fails counts one backtrack of its own. *)
Lemma loops_exhausts `{SetOrder} `{Interpreter} p h cell cands t :
  loops p h cell cands t → found t = false → (1 ≤ exhausts_tries t)%nat.
Proof.
  induction 1 as [| | ? ? ? ? ? ? ? ? ? ? IH | ]; simpl; intros Hf.
  - lia.
  - auto.
  - specialize (IH Hf). lia.
  - done.
Qed.

Scheme runs_loops_ind := Minimality for runs Sort Prop
  with loops_runs_ind := Minimality for loops Sort Prop.

Lemma unassigned_cells_length p h :
  (length (unassigned_cells p h) ≤ length (Puzzle.cells p))%nat.
Proof. apply length_filter. Qed.

(** Every descent is entered with one unassigned cell fewer, so the
    nesting of descents is bounded by the number of unassigned cells. *)
Lemma runs_depth `{SetOrder} `{Interpreter} p h c :
  runs p h c → (depth c ≤ length (unassigned_cells p h))%nat.
Proof.
  revert h c.
  apply (runs_loops_ind _ _ p
    (λ h c, (depth c ≤ length (unassigned_cells p h))%nat)
    (λ h cell cands t, cell ∈ unassigned_cells p h →
       (depth_tries t ≤ length (unassigned_cells p h))%nat)); simpl.
  - lia.
  - auto.
  - lia.
  - auto.
  - intros h cell v rest sub t _ _ Hsub _ _ IH Hin.
    pose proof (assign_decreases p cell v h Hin). specialize (IH Hin). lia.
  - intros h cell v rest sub _ _ Hsub _ Hin.
    pose proof (assign_decreases p cell v h Hin). lia.
Qed.

(** ** Which reductions narrow *)

Lemma combinations2_elem {A} (l : list A) a b :
  (a, b) ∈ combinations2 l → a ∈ l ∧ b ∈ l.
Proof.
  induction l as [|x l IH]; simpl; [by intros ?%elem_of_nil|].
  intros [Hin|Hin]%elem_of_app.
  - apply list_elem_of_fmap in Hin as (y & [= -> ->] & Hy). split; [left|by right].
  - destruct (IH Hin). split; by right.
Qed.

Lemma filter_result_elem {A} (f : A → result bool) l ys x :
  filter_result f l = Ok ys → x ∈ ys → x ∈ l.
Proof.
  revert ys. induction l as [|y l IH]; intros ys; simpl.
  - by intros [= <-].
  - destruct (f y) as [b| |]; try done.
    destruct (filter_result f l) as [ys'| |]; try done.
    intros [= <-] Hx. destruct b.
    + apply elem_of_cons in Hx as [->|Hx]; [left|right; by apply (IH ys')].
    + right. by apply (IH ys').
Qed.

(** [flatten] yields something only where [collections.Iterable] exists
    and the filter of [pairs] has run to its end. *)
Lemma flatten_Ok `{Interpreter} (r : result (list (Z * Z))) items :
  flatten r = Ok items →
  collections_Iterable = true ∧
  ∃ l, r = Ok l ∧ items = concat (map (λ p : Z * Z, [p.1; p.2]) l).
Proof.
  unfold flatten. destruct collections_Iterable; [|done].
  destruct r as [l| |]; try done. intros [= <-]. eauto.
Qed.

Lemma flatten_elem (l : list (Z * Z)) v :
  v ∈ concat (map (λ p : Z * Z, [p.1; p.2]) l) → ∃ p, p ∈ l ∧ (v = fst p ∨ v = snd p).
Proof.
  induction l as [|p l IH]; simpl; [by intros ?%elem_of_nil|].
  intros [->|[->|Hv]%elem_of_cons]%elem_of_cons.
  - exists p. split; [left|by left].
  - exists p. split; [left|by right].
  - destruct (IH Hv) as (q & Hq & Hvq). exists q. split; [by right|done].
Qed.

Lemma only_if_present_subset (v : Z) (candidates : gset Z) :
  (if bool_decide (v ∈ candidates) then {[v]} else ∅) ⊆ candidates.
Proof.
  case_bool_decide; [by apply singleton_subseteq_l|apply empty_subseteq].
Qed.

Lemma filter_subset (P : Z → Prop) `{∀ x, Decision (P x)} (candidates : gset Z) :
  filter P candidates ⊆ candidates.
Proof. intros x Hx. by apply elem_of_filter in Hx as [_ ?]. Qed.

(** Every reduction other than the uniqueness one returns a subset. *)
Lemma Constraint_reduce_subset `{SetOrder} `{Interpreter} k candidates h r reduced :
  Constraint.variant k ≠ UniquenessConstraint →
  eval (Constraint_reduce k candidates) h = Ok r → to_set r = Ok reduced →
  reduced ⊆ candidates.
Proof.
  intros Hk Hr. destruct (decide (pair_rule k)) as [Hpair|Hpair].
  - rewrite (Constraint_reduce_gen k candidates h r Hpair Hr). simpl.
    destruct (flatten _) as [items| |] eqn:Hf; try done. intros [= <-].
    apply flatten_Ok in Hf as (_ & ps & Hps & ->). unfold pairs in Hps.
    intros v Hv%elem_of_list_to_set.
    apply flatten_elem in Hv as ([a b] & Hp & Hv).
    apply (filter_result_elem _ _ _ _ Hps), combinations2_elem in Hp as [Ha Hb].
    apply set_iter_elem in Ha, Hb. simpl in Hv. by destruct Hv as [->| ->].
  - revert Hr. unfold eval, Constraint_reduce, bind, get_reducer.
    case_bool_decide; [|done]. unfold pair_rule in Hpair.
    destruct (Constraint.variant k) as [|t|t|t|t|t]; try done.
    + rewrite reduce_add_run. destruct (remainder_in h k) as [rem| |]; try done.
      intros [= <-]. simpl. intros [= <-].
      case_bool_decide; [apply only_if_present_subset|apply filter_subset].
    + rewrite reduce_mul_run. destruct (remainder_in h k) as [rem| |]; try done.
      case_bool_decide;
        [intros [= <-]; simpl; intros [= <-]; apply only_if_present_subset|].
      case_bool_decide; [done|]. intros [= <-]. simpl. intros [= <-].
      apply filter_subset.
    + rewrite reduce_con_run. destruct (Constraint_value k) as [v| |]; try done.
      intros [= <-]. simpl. intros [= <-]. apply only_if_present_subset.
Qed.

(** ** Nothing raises on a well-formed puzzle *)

Lemma all_assigned_length values vs :
  all_assigned values = Some vs → length vs = length values.
Proof. intros ->%all_assigned_Some. by rewrite length_map. Qed.

Lemma evaluate_ok k vs :
  arity_ok k → length vs = length (Constraint.cells k) → ∃ b, evaluate k vs = Ok b.
Proof.
  unfold arity_ok, evaluate. intros Hk Hlen.
  destruct (Constraint.variant k); eauto;
    destruct vs as [|v0 [|v1 vs]]; eauto; simpl in Hlen; lia.
Qed.

Lemma evaluate_pair_ok k a b : ∃ r, evaluate k [a; b] = Ok r.
Proof. unfold evaluate. destruct (Constraint.variant k); eauto. Qed.

Lemma solved_in_ok h k : arity_ok k → ∃ b, solved_in h k = Ok b.
Proof.
  intros Hk. unfold solved_in.
  destruct (all_assigned (values_in h k)) as [vs|] eqn:Hvs; [|eauto].
  apply evaluate_ok; [done|]. apply all_assigned_length in Hvs.
  unfold values_in in Hvs. by rewrite length_map in Hvs.
Qed.

Lemma consistent_in_ok h k : arity_ok k → ∃ b, consistent_in h k = Ok b.
Proof.
  intros Hk. unfold consistent_in.
  destruct (all_assigned (values_in h k)) as [vs|] eqn:Hvs; [|eauto].
  apply evaluate_ok; [done|]. apply all_assigned_length in Hvs.
  unfold values_in in Hvs. by rewrite length_map in Hvs.
Qed.

Lemma all_M_ok {S A} (f : A → M S bool) l s :
  (∀ x, readonly (f x)) →
  (∀ x, x ∈ l → ∃ b, eval (f x) s = Ok b) → ∃ b, eval (all_M f l) s = Ok b.
Proof.
  intros Hf. induction l as [|x l IH]; intros Hl; simpl.
  - by exists true.
  - rewrite eval_bind by done. destruct (Hl x) as [[] ->]; [left| |]; simpl.
    + apply IH. intros y Hy. apply Hl. by right.
    + by exists false.
Qed.

Lemma map_M_ok {S A B} (f : A → M S B) l s :
  (∀ x, readonly (f x)) →
  (∀ x, x ∈ l → ∃ y, eval (f x) s = Ok y) → ∃ ys, eval (map_M f l) s = Ok ys.
Proof.
  intros Hf. induction l as [|x l IH]; intros Hl; simpl.
  - by exists [].
  - rewrite eval_bind by done. destruct (Hl x) as [y ->]; [left|]. simpl.
    rewrite eval_bind by by apply readonly_map_M.
    destruct IH as [ys ->]; [intros z Hz; apply Hl; by right|]. simpl.
    by exists (y :: ys).
Qed.

Lemma Puzzle_solved_ok p h :
  well_formed p → ∃ b, eval (Puzzle_solved p) h = Ok b.
Proof.
  intros [Har _]. apply all_M_ok; [apply readonly_Constraint_solved|].
  intros k Hk. unfold eval. rewrite Constraint_solved_run.
  destruct (solved_in_ok h k) as [b ->]; [|by exists b].
  by apply (proj1 (Forall_forall _ _) Har).
Qed.

Lemma Puzzle_consistent_ok p h :
  well_formed p → ∃ b, eval (Puzzle_consistent p) h = Ok b.
Proof.
  intros [Har _]. apply all_M_ok; [apply readonly_Constraint_consistent|].
  intros k Hk. unfold eval. rewrite Constraint_consistent_run.
  destruct (consistent_in_ok h k) as [b ->]; [|by exists b].
  by apply (proj1 (Forall_forall _ _) Har).
Qed.

Lemma product_nonzero vs : Forall (λ v, v ≠ 0) vs → product vs ≠ 0.
Proof.
  rewrite product_foldr. induction 1 as [|v vs Hv _ IH]; simpl; lia.
Qed.

Lemma assigned_values_nonzero p h k :
  in_range p h → Forall (λ v, v ≠ 0) (assigned_values_in h k).
Proof.
  intros Hr. apply Forall_forall. intros v Hv.
  unfold assigned_values_in in Hv. apply list_elem_of_omap in Hv as (c & _ & Hc).
  apply Hr in Hc. lia.
Qed.

Lemma filter_result_ok {A} (f : A → result bool) l :
  (∀ x, ∃ b, f x = Ok b) → ∃ ys, filter_result f l = Ok ys.
Proof.
  intros Hf. induction l as [|x l [ys IH]]; simpl; [eauto|].
  destruct (Hf x) as [b ->]. rewrite IH. eauto.
Qed.

Lemma Constraint_reduce_ok `{SetOrder} `{Interpreter} p k candidates h :
  Constraint.id k ∈ reducer h → flattens k → in_range p h → 0 ∉ candidates →
  ∃ r reduced, eval (Constraint_reduce k candidates) h = Ok r ∧ to_set r = Ok reduced.
Proof.
  intros Hbound Hfl Hr Hz. unfold eval, Constraint_reduce, bind, get_reducer.
  rewrite bool_decide_true by done. unfold flattens, pair_rule in Hfl.
  destruct (Constraint.variant k) as [|t|t|t|t|t] eqn:Hk.
  - rewrite reduce_unique_run. eauto.
  - rewrite reduce_add_run. unfold remainder_in. rewrite Hk. eauto.
  - rewrite reduce_mul_run. unfold remainder_in. rewrite Hk.
    rewrite bool_decide_false by by eapply product_nonzero, assigned_values_nonzero.
    case_bool_decide; [eauto|]. rewrite bool_decide_false by done. eauto.
  - unfold reduce_sub. rewrite reduce_pairs_run. unfold pairs, flatten.
    rewrite (Hfl I).
    destruct (filter_result_ok (λ p0 : Z * Z, evaluate k [p0.1; p0.2])
                (combinations2 (set_iter candidates))) as [ps Hps];
      [intros [a b]; apply evaluate_pair_ok|].
    eexists _, _. split; [done|]. simpl. by rewrite Hps.
  - unfold reduce_div. rewrite reduce_pairs_run. unfold pairs, flatten.
    rewrite (Hfl I).
    destruct (filter_result_ok (λ p0 : Z * Z, evaluate k [p0.1; p0.2])
                (combinations2 (set_iter candidates))) as [ps Hps];
      [intros [a b]; apply evaluate_pair_ok|].
    eexists _, _. split; [done|]. simpl. by rewrite Hps.
  - rewrite reduce_con_run. unfold Constraint_value. rewrite Hk. eauto.
Qed.

Lemma fold_intersect_ok `{SetOrder} `{Interpreter} p ks b h :
  (∀ k, k ∈ ks → Constraint.id k ∈ reducer h) → Forall flattens ks →
  in_range p h → 0 ∉ b →
  ∃ b', eval (fold_M (λ candidates k,
                        r <- Constraint_reduce k candidates ;;
                        reduced <- lift (to_set r) ;;
                        ret (candidates ∩ reduced)) ks b) h = Ok b'.
Proof.
  intros Hks Hfl Hr. revert b. induction ks as [|k ks IH]; intros b Hz; simpl.
  - by exists b.
  - apply Forall_cons in Hfl as [Hk Hfl].
    rewrite eval_bind by readonly. rewrite reduce_step_eval.
    destruct (Constraint_reduce_ok p k b h) as (r & reduced & -> & Hs);
      [apply Hks; left|done..|].
    simpl. rewrite Hs. simpl. apply IH; [|done|].
    + intros k' Hk'. apply Hks. by right.
    + intros Hin. apply Hz. by apply elem_of_intersection in Hin as [? _].
Qed.

Lemma Cell_candidates_returns `{SetOrder} `{Interpreter} p cell h :
  well_formed p → Forall flattens (Cell.constraints cell) → cell ∈ Puzzle.cells p →
  domains_set p h → reducers_set p h → in_range p h →
  ∃ cs, eval (Cell_candidates cell) h = Ok cs.
Proof.
  intros [_ Hwf] Hfl Hcell Hdom Hred Hr. unfold Cell_candidates.
  rewrite eval_bind by readonly. unfold eval at 1, get_domain. simpl.
  rewrite (Hdom cell Hcell). simpl.
  pose proof (proj1 (Forall_forall _ _) Hwf cell Hcell) as Hks.
  apply (fold_intersect_ok p); [|done|done|].
  - intros k Hk. apply Hred. by apply (proj1 (Forall_forall _ _) Hks).
  - rewrite Puzzle_domain_spec. lia.
Qed.

Lemma Cell_candidates_ok `{SetOrder} `{Interpreter} p cell h :
  well_formed p → Forall flattens (Puzzle.constraints p) → cell ∈ Puzzle.cells p →
  domains_set p h → reducers_set p h → in_range p h →
  ∃ cs, eval (Cell_candidates cell) h = Ok cs.
Proof.
  intros Hwf Hfl Hcell. apply Cell_candidates_returns; [done| |done].
  destruct Hwf as [_ Hwf].
  pose proof (proj1 (Forall_forall _ _) Hwf cell Hcell) as Hks.
  apply Forall_forall. intros k Hk.
  apply (proj1 (Forall_forall _ _) Hfl), (proj1 (Forall_forall _ _) Hks), Hk.
Qed.

Lemma solve_order_ok `{SetOrder} `{Interpreter} p h :
  well_formed p → Forall flattens (Puzzle.constraints p) →
  domains_set p h → reducers_set p h → in_range p h →
  ∃ order, eval (solve_order p) h = Ok order.
Proof.
  intros Hwf Hfl Hdom Hred Hr. unfold solve_order.
  rewrite eval_bind by readonly.
  unfold eval at 1. rewrite Puzzle_unassigned_run. simpl.
  set (key := λ c : Cell.t, cs <- Cell_candidates c ;; ret (size cs, c)).
  assert (Hkey : ∀ c, readonly (key c)) by (intros c; unfold key; readonly).
  rewrite eval_bind by by apply readonly_map_M.
  destruct (map_M_ok key (unassigned_cells p h) h Hkey) as [keyed ->]; [|simpl; eauto].
  intros c [Hc _]%unassigned_cells_spec. unfold key.
  rewrite eval_bind by readonly.
  destruct (Cell_candidates_ok p c h) as [cs ->]; [done..|]. simpl. eauto.
Qed.

(** The heaps of the search: domains and reducers as [initialize] set
    them, values in [1..N]. *)
Lemma try_candidates_safe rec p cell cands n :
  well_formed p → restores rec →
  (∀ s1, domains_set p (heap s1) → reducers_set p (heap s1) → in_range p (heap s1) →
         (length (unassigned_cells p (heap s1)) < n)%nat →
         ∃ b s2, rec s1 = Ok (b, s2)) →
  Forall (λ v, 1 ≤ v ≤ Puzzle.width p) cands →
  ∀ s, cell ∈ unassigned_cells p (heap s) →
       domains_set p (heap s) → reducers_set p (heap s) → in_range p (heap s) →
       (length (unassigned_cells p (heap s)) ≤ n)%nat →
       ∃ b s', try_candidates rec p cell cands s = Ok (b, s').
Proof.
  intros Hwf Hres Hrec.
  induction cands as [|v rest IH]; intros Hall s Hin Hdom Hred Hr Hn.
  - rewrite try_candidates_nil. eauto.
  - apply Forall_cons in Hall as [Hv Hall]. rewrite try_candidates_cons.
    assert (Hnone : value (heap s) !! Cell.tuple cell = None)
      by by apply unassigned_cells_spec in Hin as [_ ?].
    assert (Hundo : heap (unassign cell (assign cell v s)) = heap s)
      by by apply with_value_undo.
    destruct (Puzzle_consistent_ok p (heap (assign cell v s)) Hwf) as [[] ->].
    + destruct (Hrec (count_recursive_call (assign cell v s))) as (b & s2 & Hr2);
        [exact Hdom|exact Hred|by apply in_range_assign| |].
      { simpl. pose proof (assign_decreases p cell v (heap s) Hin). lia. }
      rewrite Hr2. destruct b; [eauto|].
      apply Hres in Hr2 as (_ & _ & Hheap). specialize (Hheap eq_refl).
      assert (Heq : heap (unassign cell s2) = heap s).
      { unfold unassign. simpl. rewrite Hheap. by apply with_value_undo. }
      apply IH; by rewrite ?Heq.
    + apply IH; by rewrite ?Hundo.
Qed.

Lemma solve_safe `{SetOrder} `{Interpreter} fuel p s :
  well_formed p → Forall flattens (Puzzle.constraints p) →
  domains_set p (heap s) → reducers_set p (heap s) → in_range p (heap s) →
  (length (unassigned_cells p (heap s)) < fuel)%nat →
  ∃ b s', solve fuel p s = Ok (b, s').
Proof.
  intros Hwf Hfl. revert s. induction fuel as [|fuel IH]; intros s Hdom Hred Hr Hlt; [lia|].
  rewrite solve_S.
  destruct (solve_order_ok p (heap s)) as [[|cell order] Ho]; try done; rewrite Ho.
  - destruct (Puzzle_solved_ok p (heap s) Hwf) as [b ->]. simpl. eauto.
  - apply solve_order_head in Ho as [Hin _].
    pose proof Hin as [Hcell _]%unassigned_cells_spec.
    destruct (Cell_candidates_ok p cell (heap s)) as [cs Hcs]; try done. rewrite Hcs.
    apply (try_candidates_safe _ _ _ _ fuel); try done.
    + apply solve_restores.
    + apply Forall_forall. intros v Hv%set_iter_elem.
      apply Cell_candidates_subset in Hcs. apply Hcs in Hv.
      rewrite (Hdom cell Hcell) in Hv. by apply Puzzle_domain_spec.
    + lia.
Qed.

(** ** Running the search on a given puzzle *)

Lemma set_iter_singleton `{SetOrder} (s : gset Z) x : s = {[x]} → set_iter s = [x].
Proof.
  intros ->. apply Permutation_singleton_r.
  by rewrite (set_iter_perm {[x]}), elements_singleton.
Qed.

Lemma set_iter_empty `{SetOrder} (s : gset Z) : s = ∅ → set_iter s = [].
Proof.
  intros ->. apply Permutation_nil_r.
  by rewrite (set_iter_perm ∅), elements_empty.
Qed.

(** Replaces a query on a closed heap by the value it computes to. *)
Ltac run_query :=
  match goal with
  | |- context [@eval ?S ?A ?m ?h] =>
      let r := eval vm_compute in (@eval S A m h) in
      replace (@eval S A m h) with r by (vm_compute; reflexivity)
  end.

(** * The claims *)

(** C1.  If [backtrack_solve] returns success, [puzzle.solved] holds in the
    heap it returns in: every constraint of the puzzle has all its cells
    assigned and [evaluate] is true on their values, so its rule holds
    (distinct values on a row or column, the target reached by the sum,
    product, difference, quotient or single value of a cage).  When the
    values present at the call were in [1..N], a uniqueness constraint over
    [N] cells holds each value of [1..N] exactly once. *)
Theorem backtrack_solve_solved `{SetOrder} `{Interpreter} p h st h' :
  backtrack_solve p h = Ok ((true, st), h') →
  eval (Puzzle_solved p) h' = Ok true ∧
  ∀ k, k ∈ Puzzle.constraints p →
    ∃ vs, values_in h' k = map Some vs ∧ evaluate k vs = Ok true ∧ rule k vs ∧
      (Constraint.variant k = UniquenessConstraint → in_range p h →
       Constraint_cardinality k = Z.to_nat (Puzzle.width p) →
       vs ≡ₚ seqZ 1 (Puzzle.width p)).
Proof.
  rewrite backtrack_solve_run.
  destruct (solve _ p _) as [[b s]| |] eqn:Hsolve; try done.
  intros [= -> <- <-].
  pose proof (solve_sound _ _ _ _ Hsolve) as Hsolved. split; [done|].
  intros k Hk.
  destruct (solved_in_true (heap s) k) as (vs & Hvs & Hev & Hrule);
    [by apply (Puzzle_solved_true p)|].
  exists vs. split_and!; try done.
  intros Hu Hin Hcard. apply latin_line.
  - unfold rule in Hrule. by rewrite Hu in Hrule.
  - apply (values_in_range p (heap s) k); [|done].
    apply solve_in_range in Hsolve; [done|apply initialized_domains|].
    simpl. unfold in_range. by rewrite initialized_value.
  - rewrite <- Hcard. unfold Constraint_cardinality.
    apply (f_equal length) in Hvs. unfold values_in in Hvs.
    by rewrite !length_map in Hvs.
Qed.

Lemma backtrack_solve_solved_witness :
  let h' := with_value (1, 1) (Some 1) (with_value (1, 0) (Some 2)
              (with_value (0, 1) (Some 2) (with_value (0, 0) (Some 1)
                 (initialized puzzle_2x2 fresh)))) in
  backtrack_solve puzzle_2x2 fresh = Ok ((true, mkStats 0 4), h') ∧
  eval (Puzzle_solved puzzle_2x2) h' = Ok true ∧
  ∀ k, k ∈ Puzzle.constraints puzzle_2x2 →
    ∃ vs, values_in h' k = map Some vs ∧ evaluate k vs = Ok true ∧ rule k vs ∧
      (Constraint.variant k = UniquenessConstraint → in_range puzzle_2x2 fresh →
       Constraint_cardinality k = Z.to_nat (Puzzle.width puzzle_2x2) →
       vs ≡ₚ seqZ 1 (Puzzle.width puzzle_2x2)).
Proof.
  intros h'.
  assert (Hrun : backtrack_solve puzzle_2x2 fresh = Ok ((true, mkStats 0 4), h'))
    by (vm_compute; reflexivity).
  split; [exact Hrun|].
  exact (backtrack_solve_solved puzzle_2x2 fresh (mkStats 0 4) h' Hrun).
Defined.

(** C5.  When every cell of the puzzle is unassigned at the call and
    [backtrack_solve] returns failure, every cell is unassigned again at
    return: the values of the heap are those of the call. *)
Theorem backtrack_solve_failure_unassigns `{SetOrder} `{Interpreter} p h st h' :
  (∀ cell, cell ∈ Puzzle.cells p → value h !! Cell.tuple cell = None) →
  backtrack_solve p h = Ok ((false, st), h') →
  value h' = value h ∧
  ∀ cell, cell ∈ Puzzle.cells p → value h' !! Cell.tuple cell = None.
Proof.
  intros Hnone. rewrite backtrack_solve_run.
  destruct (solve _ p _) as [[b s]| |] eqn:Hsolve; try done.
  intros [= -> <- <-].
  apply solve_restores in Hsolve as (_ & _ & Hheap). specialize (Hheap eq_refl).
  simpl in Hheap. rewrite Hheap, initialized_value. done.
Qed.

Lemma backtrack_solve_failure_unassigns_witness :
  backtrack_solve puzzle_clash fresh
    = Ok ((false, mkStats 2 1), initialized puzzle_clash fresh) ∧
  value (initialized puzzle_clash fresh) = value fresh ∧
  ∀ cell, cell ∈ Puzzle.cells puzzle_clash →
    value (initialized puzzle_clash fresh) !! Cell.tuple cell = None.
Proof.
  assert (Hrun : backtrack_solve puzzle_clash fresh
                 = Ok ((false, mkStats 2 1), initialized puzzle_clash fresh))
    by (vm_compute; reflexivity).
  split; [exact Hrun|].
  exact (backtrack_solve_failure_unassigns puzzle_clash fresh (mkStats 2 1)
           (initialized puzzle_clash fresh) (λ _ _, eq_refl) Hrun).
Defined.

(** C6.  A call of [solve] that returns follows a run [c] of the shape
    [runs]: with an unassigned cell left it examines exactly one cell, which
    is unassigned and has the fewest candidates among the unassigned cells;
    it assigns candidates of that cell in iteration order, and when it fails
    it has gone through all of them, whatever other cells are unassigned.
    [recursive_calls] grows by the number of assignments of the run that
    passed [puzzle.consistent], [backtracks] by the number of calls of the
    run that exhausted their cell. *)
Theorem solve_examines_one_cell `{SetOrder} `{Interpreter} fuel p s b s' :
  solve fuel p s = Ok (b, s') →
  ∃ c, runs p (heap s) c ∧ b = success c ∧
    recursive_calls (stats s') = (recursive_calls (stats s) + descents c)%nat ∧
    backtracks (stats s') = (backtracks (stats s) + exhausts c)%nat ∧
    (unassigned_cells p (heap s) ≠ [] →
     ∃ cell cs t, c = Node cell t ∧
       cell ∈ unassigned_cells p (heap s) ∧
       eval (Cell_candidates cell) (heap s) = Ok cs ∧
       (∀ c', c' ∈ unassigned_cells p (heap s) →
          ∃ cs', eval (Cell_candidates c') (heap s) = Ok cs' ∧ (size cs ≤ size cs')%nat) ∧
       tried t `prefix_of` set_iter cs ∧
       (b = false → tried t = set_iter cs ∧ (1 ≤ exhausts c)%nat)).
Proof.
  intros Hsolve. apply solve_traced in Hsolve as (c & Hc & Hb & Hrc & Hbt).
  exists c. split_and!; try done. intros Hne.
  destruct Hc as [h solved Hnil _|h cell cs t Hin Hcs Hmin Hloop]; [done|].
  exists cell, cs, t. split_and!; try done.
  - by apply (loops_tried _ _ _ _ _ Hloop).
  - intros ->. simpl in Hb. symmetry in Hb. split.
    + by apply (loops_tried _ _ _ _ _ Hloop).
    + simpl. by apply (loops_exhausts _ _ _ _ _ Hloop).
Qed.

Lemma solve_examines_one_cell_witness :
  let s := mkSearch (initialized puzzle_clash fresh) (mkStats 0 0) in
  let s' := mkSearch (initialized puzzle_clash fresh) (mkStats 2 1) in
  solve 5 puzzle_clash s = Ok (false, s') ∧
  ∃ c, runs puzzle_clash (heap s) c ∧ false = success c ∧
    recursive_calls (stats s') = (recursive_calls (stats s) + descents c)%nat ∧
    backtracks (stats s') = (backtracks (stats s) + exhausts c)%nat ∧
    (unassigned_cells puzzle_clash (heap s) ≠ [] →
     ∃ cell cs t, c = Node cell t ∧
       cell ∈ unassigned_cells puzzle_clash (heap s) ∧
       eval (Cell_candidates cell) (heap s) = Ok cs ∧
       (∀ c', c' ∈ unassigned_cells puzzle_clash (heap s) →
          ∃ cs', eval (Cell_candidates c') (heap s) = Ok cs' ∧ (size cs ≤ size cs')%nat) ∧
       tried t `prefix_of` set_iter cs ∧
       (false = false → tried t = set_iter cs ∧ (1 ≤ exhausts c)%nat)).
Proof.
  intros s s'.
  assert (Hrun : solve 5 puzzle_clash s = Ok (false, s')) by (vm_compute; reflexivity).
  split; [exact Hrun|].
  exact (solve_examines_one_cell 5 puzzle_clash s false s' Hrun).
Defined.

(** C7.  [backtrack_solve] never runs out of the recursion budget of one
    level per cell: a descent is made in a heap with fewer unassigned cells
    than the call had, so the descents of a run nest no deeper than the
    number of unassigned cells, which is at most the number of cells of the
    puzzle, [N * N] on a full grid. *)
Theorem backtrack_solve_terminates `{SetOrder} `{Interpreter} p h :
  backtrack_solve p h ≠ OutOfFuel ∧
  (∀ fuel s, (length (unassigned_cells p (heap s)) < fuel)%nat →
     solve fuel p s ≠ OutOfFuel) ∧
  (∀ cell v s, cell ∈ unassigned_cells p (heap s) →
     (length (unassigned_cells p (heap (assign cell v s)))
      < length (unassigned_cells p (heap s)))%nat) ∧
  (∀ fuel s b s', solve fuel p s = Ok (b, s') →
     ∃ c, runs p (heap s) c ∧ b = success c ∧
       (depth c ≤ length (unassigned_cells p (heap s)))%nat ∧
       (length (unassigned_cells p (heap s)) ≤ length (Puzzle.cells p))%nat ∧
       (length (Puzzle.cells p) = Z.to_nat (Puzzle.width p * Puzzle.width p) →
        (depth c ≤ Z.to_nat (Puzzle.width p * Puzzle.width p))%nat)).
Proof.
  split_and!.
  - rewrite backtrack_solve_run.
    pose proof (solve_fuel (S (length (Puzzle.cells p))) p
                  (mkSearch (initialized p h) (mkStats 0 0))) as Hfuel.
    destruct (solve _ p _) as [[b s]| |]; try done.
    exfalso. apply Hfuel; [|done].
    simpl. pose proof (unassigned_cells_length p (initialized p h)). lia.
  - intros fuel s. apply solve_fuel.
  - intros cell v s. apply assign_decreases.
  - intros fuel s b s' Hsolve.
    apply solve_traced in Hsolve as (c & Hc & Hb & _).
    pose proof (runs_depth _ _ _ Hc) as Hd.
    pose proof (unassigned_cells_length p (heap s)) as Hl.
    exists c. split_and!; try done. intros Hn. lia.
Qed.

(** C4.  On an [AddConstraint], with [remainder] the target minus the sum
    of the assigned values: with exactly one unassigned cell [reduce_add]
    returns [{remainder}] when [remainder] is a candidate and the empty set
    otherwise; with more than one it returns exactly the candidates [c] with
    [remainder - c > 0], so [remainder] itself is left out. *)
Theorem reduce_add_remainder k target candidates h :
  Constraint.variant k = AddConstraint target →
  let remainder := target - foldr Z.add 0 (assigned_values_in h k) in
  ∃ reduced, reduce_add k candidates h = Ok (PySet reduced, h) ∧
    (length (unassigned_in h k) = 1%nat →
       reduced = if bool_decide (remainder ∈ candidates) then {[remainder]} else ∅) ∧
    ((1 < length (unassigned_in h k))%nat →
       (∀ c, c ∈ reduced ↔ c ∈ candidates ∧ remainder - c > 0) ∧ remainder ∉ reduced).
Proof.
  intros Hk remainder. rewrite reduce_add_run. unfold remainder_in. rewrite Hk.
  rewrite sum_foldr. fold remainder. eexists. split; [done|]. split.
  - intros Hone. by rewrite bool_decide_true.
  - intros Hmore. rewrite bool_decide_false by lia.
    split; [|rewrite elem_of_filter; lia].
    intros c. rewrite elem_of_filter. tauto.
Qed.

Lemma reduce_add_remainder_witness :
  let k := Constraint.mk 0 [(0, 0); (0, 1); (0, 2)] (AddConstraint 6) in
  let h := with_value (0, 0) (Some 2) fresh in
  let remainder := 6 - foldr Z.add 0 (assigned_values_in h k) in
  remainder = 4 ∧
  ∃ reduced, reduce_add k {[1; 2; 3; 4]} h = Ok (PySet reduced, h) ∧
    (length (unassigned_in h k) = 1%nat →
       reduced = if bool_decide (remainder ∈ ({[1; 2; 3; 4]} : gset Z))
                 then {[remainder]} else ∅) ∧
    ((1 < length (unassigned_in h k))%nat →
       (∀ c, c ∈ reduced ↔ c ∈ ({[1; 2; 3; 4]} : gset Z) ∧ remainder - c > 0) ∧
       remainder ∉ reduced).
Proof.
  intros k h remainder. split; [reflexivity|].
  exact (reduce_add_remainder k 6 {[1; 2; 3; 4]} h eq_refl).
Defined.

(** C2, as the code has it.  On the 1x1 puzzle with one [$] cage of target
    1, whatever the iteration order of sets, [backtrack_solve] returns
    success with the cell assigned 1, and [recursive_calls] is 1: the single
    assignment passes [puzzle.consistent] and is counted before the
    recursive call that finds the puzzle solved. *)
Theorem backtrack_solve_1x1 `{SetOrder} `{Interpreter} :
  backtrack_solve puzzle_1x1 fresh
  = Ok ((true, mkStats 0 1), with_value (0, 0) (Some 1) (initialized puzzle_1x1 fresh)).
Proof.
  rewrite backtrack_solve_run.
  change (length (Puzzle.cells puzzle_1x1)) with 1%nat.
  rewrite solve_S. simpl heap.
  run_query. run_query.
  rewrite (set_iter_singleton _ 1) by (vm_compute; reflexivity).
  rewrite try_candidates_cons. run_query.
  rewrite solve_S. run_query. run_query. reflexivity.
Qed.

(** C2 as stated fails: on the 1x1 puzzle [recursive_calls] is not 0 when
    [backtrack_solve] returns. *)
Lemma backtrack_solve_1x1_not_zero :
  ¬ ∃ st h', @backtrack_solve ascending_order python_3_9 puzzle_1x1 fresh = Ok ((true, st), h') ∧
             recursive_calls st = 0%nat.
Proof.
  intros (st & h' & Hrun & Hzero).
  assert (E : @backtrack_solve ascending_order python_3_9 puzzle_1x1 fresh
              = Ok ((true, mkStats 0 1),
                    with_value (0, 0) (Some 1) (initialized puzzle_1x1 fresh)))
    by (vm_compute; reflexivity).
  rewrite E in Hrun. injection Hrun as <- _. discriminate Hzero.
Qed.

(** C8.  On a well-formed puzzle that no assignment of values of [1..N]
    solves, entered with values in range and at least one unassigned cell,
    [backtrack_solve] returns failure and has counted at least one
    backtrack, provided the reductions of the puzzle can be consumed (no
    [-] or [/] cage, or an interpreter with [collections.Iterable]).  The
    2x2 grid with two [$] cages of target 1 on its first row is such a
    puzzle, and so is the 2x2 grid with the cages 4+ and 3+. *)
Theorem backtrack_solve_unsatisfiable `{SetOrder} `{Interpreter} p h :
  well_formed p → Forall flattens (Puzzle.constraints p) →
  in_range p h → unassigned_cells p h ≠ [] → unsatisfiable p →
  ∃ st h', backtrack_solve p h = Ok ((false, st), h') ∧ (1 ≤ backtracks st)%nat.
Proof.
  intros Hwf Hfl Hr Hne Hunsat. rewrite backtrack_solve_run.
  set (s := mkSearch (initialized p h) (mkStats 0 0)).
  assert (Hvalue : unassigned_cells p (heap s) = unassigned_cells p h).
  { unfold unassigned_cells. simpl. by rewrite initialized_value. }
  assert (Hrange : in_range p (heap s)).
  { simpl. unfold in_range. by rewrite initialized_value. }
  destruct (solve_safe (S (length (Puzzle.cells p))) p s) as (b & s' & Hsolve);
    [done|done|apply initialized_domains|intros k Hk; by apply initialized_reducers
    |done| |].
  { pose proof (unassigned_cells_length p (heap s)). lia. }
  rewrite Hsolve. destruct b.
  { exfalso. apply (Hunsat (heap s')); [|by apply solve_sound in Hsolve].
    apply solve_in_range in Hsolve; [done|apply initialized_domains|done]. }
  exists (stats s'), (heap s'). split; [done|].
  apply solve_traced in Hsolve as (c & Hc & Hb & _ & Hbt).
  rewrite Hbt. simpl.
  destruct Hc as [h0 solved Hnil _|h0 cell cs t _ _ _ Hloop]; [by rewrite Hvalue in Hnil|].
  simpl in *. by apply (loops_exhausts _ _ _ _ _ Hloop).
Qed.

Lemma puzzle_clash_unsatisfiable : unsatisfiable puzzle_clash.
Proof.
  intros h _ Hsolved.
  destruct (solved_in_true h (Constraint.mk 0 [(0, 0)] (ConConstraint 1)))
    as (vs0 & Hvs0 & _ & a0 & rest0 & -> & ->).
  { apply (Puzzle_solved_true puzzle_clash); [done|]. simpl. set_solver. }
  destruct (solved_in_true h (Constraint.mk 1 [(0, 1)] (ConConstraint 1)))
    as (vs1 & Hvs1 & _ & a1 & rest1 & -> & ->).
  { apply (Puzzle_solved_true puzzle_clash); [done|]. simpl. set_solver. }
  destruct (solved_in_true h (Constraint.mk 3 [(0, 0); (0, 1)] UniquenessConstraint))
    as (vs & Hvs & _ & Hnodup).
  { apply (Puzzle_solved_true puzzle_clash); [done|]. simpl. set_solver. }
  unfold values_in in *. simpl in *.
  injection Hvs0 as Hv0 _. injection Hvs1 as Hv1 _.
  rewrite Hv0, Hv1 in Hvs. destruct vs as [|x [|y [|]]]; try done.
  injection Hvs as <- <-. unfold rule in Hnodup. simpl in Hnodup.
  apply NoDup_cons in Hnodup as [Hnin _]. apply Hnin. left.
Qed.

Lemma puzzle_clash_well_formed : well_formed puzzle_clash.
Proof. apply (bool_decide_unpack _). vm_compute. exact I. Qed.

(** Two values of [1..2] that sum to 4 are equal, so the first row of
    [puzzle_sums] cannot hold distinct ones; with values out of range
    it can, as 1 and 3 do. *)
Lemma puzzle_sums_unsatisfiable : unsatisfiable puzzle_sums.
Proof.
  intros h Hr Hsolved.
  destruct (solved_in_true h (Constraint.mk 0 [(0, 0); (0, 1)] (AddConstraint 4)))
    as (vs & Hvs & _ & Hsum).
  { apply (Puzzle_solved_true puzzle_sums); [done|]. apply list_elem_of_here. }
  destruct (solved_in_true h (Constraint.mk 2 [(0, 0); (0, 1)] UniquenessConstraint))
    as (vs' & Hvs' & _ & Hnodup).
  { apply (Puzzle_solved_true puzzle_sums); [done|].
    do 2 apply list_elem_of_further. apply list_elem_of_here. }
  assert (vs' = vs) as ->.
  { unfold values_in in *. simpl in *. rewrite Hvs in Hvs'.
    by apply (inj (fmap Some)) in Hvs'. }
  pose proof (values_in_range puzzle_sums h _ vs Hr Hvs) as Hin.
  destruct vs as [|a [|b [|]]]; try done.
  unfold rule in Hsum, Hnodup. simpl in Hsum, Hnodup.
  assert (Ha : 1 ≤ a ≤ 2) by (apply Hin; left).
  assert (Hb : 1 ≤ b ≤ 2) by (apply Hin; right; left).
  apply NoDup_cons in Hnodup as [Hnin _]. apply Hnin.
  replace b with a by lia. left.
Qed.

Lemma puzzle_sums_well_formed : well_formed puzzle_sums.
Proof. apply (bool_decide_unpack _). vm_compute. exact I. Qed.

Lemma backtrack_solve_unsatisfiable_witness :
  (∃ st h', backtrack_solve puzzle_clash fresh = Ok ((false, st), h') ∧
            (1 ≤ backtracks st)%nat) ∧
  (∃ st h', backtrack_solve puzzle_sums fresh = Ok ((false, st), h') ∧
            (1 ≤ backtracks st)%nat).
Proof.
  split.
  - apply (backtrack_solve_unsatisfiable puzzle_clash fresh).
    + exact puzzle_clash_well_formed.
    + apply (bool_decide_unpack _). vm_compute. exact I.
    + intros c v Hc. vm_compute in Hc. discriminate Hc.
    + vm_compute. discriminate.
    + exact puzzle_clash_unsatisfiable.
  - apply (backtrack_solve_unsatisfiable puzzle_sums fresh).
    + exact puzzle_sums_well_formed.
    + apply (bool_decide_unpack _). vm_compute. exact I.
    + intros c v Hc. vm_compute in Hc. discriminate Hc.
    + vm_compute. discriminate.
    + exact puzzle_sums_unsatisfiable.
Defined.

(** C3 at an input the search reaches on [puzzle_cons]: with (0,0) assigned
    1, the first-row uniqueness constraint is asked to reduce [{2}], what the
    [$] cage of (0,1) left of the domain.  [reduce_unique] returns [{1, 2}]:
    the symmetric difference adds the assigned value 1, which was not a
    candidate.  The heap is unchanged. *)
Theorem reduce_unique_adds :
  let k := Constraint.mk 4 [(0, 0); (0, 1)] UniquenessConstraint in
  let h := with_value (0, 0) (Some 1) (initialized puzzle_cons fresh) in
  reduce_unique k {[2]} h = Ok (PySet {[1; 2]}, h) ∧
  1 ∈ ({[1; 2]} : gset Z) ∧ 1 ∉ ({[2]} : gset Z).
Proof.
  intros k h. split; [|split].
  - vm_compute. reflexivity.
  - apply elem_of_union_l, elem_of_singleton. reflexivity.
  - intros Hin%elem_of_singleton. discriminate Hin.
Qed.

(** C9.  [Cell.candidates] returns in the heap it was called in, so no
    value, domain or reducer has changed; evaluated again it gives the same
    outcome; its outcome is determined by the values, domains and reducers
    of the heap; and inside the search it leaves the statistics alone too. *)
Theorem Cell_candidates_pure `{SetOrder} `{Interpreter} c h :
  (∀ cs h', Cell_candidates c h = Ok (cs, h') →
     h' = h ∧ value h' = value h ∧ domain h' = domain h ∧ reducer h' = reducer h) ∧
  (Cell_candidates c ;;; Cell_candidates c) h = Cell_candidates c h ∧
  (∀ x y h', (x <- Cell_candidates c ;; y <- Cell_candidates c ;; ret (x, y)) h
             = Ok ((x, y), h') → x = y ∧ h' = h) ∧
  (∀ h2, value h2 = value h → domain h2 = domain h → reducer h2 = reducer h →
     Cell_candidates c h2 = Cell_candidates c h) ∧
  (∀ s cs s', on_heap (Cell_candidates c) s = Ok (cs, s') → s' = s).
Proof.
  pose proof (readonly_Cell_candidates c) as Hro. split_and!.
  - intros cs h' Hrun. apply readonly_run in Hrun as [-> _]; done.
  - unfold bind. rewrite (Hro h).
    destruct (eval (Cell_candidates c) h) as [cs| |] eqn:Hcs; simpl; try done.
    rewrite (Hro h), Hcs. done.
  - intros x y h'. unfold bind.
    destruct (Cell_candidates c h) as [[x' h1]| |] eqn:H1; try done.
    apply readonly_run in H1 as [-> H1]; [|done].
    destruct (Cell_candidates c h) as [[y' h2]| |] eqn:H2; try done.
    apply readonly_run in H2 as [-> H2]; [|done].
    intros [= <- <- <-]. split; [congruence|done].
  - intros h2 Hv Hd Hr. destruct h, h2. simpl in *. by subst.
  - intros s cs s'. rewrite on_heap_readonly by done.
    destruct (eval (Cell_candidates c) (heap s)); simpl; try done. by intros [= _ <-].
Qed.

(** C10.  In a heap that has the domains [initialize] set, whatever the
    values of the cells, the candidates of a cell of the puzzle are among
    [1..N]; this does not depend on what a single reduction returns, each
    result being intersected with the running set.  On a well-formed
    puzzle, with the reducers bound and the values in range, the candidates
    are computed without an exception where the reductions of the puzzle
    can be consumed (no [-] or [/] cage, or an interpreter with
    [collections.Iterable]). *)
Theorem Cell_candidates_in_domain `{SetOrder} `{Interpreter} p h0 cell h :
  cell ∈ Puzzle.cells p →
  domain h = domain (initialized p h0) →
  (∀ cs, eval (Cell_candidates cell) h = Ok cs →
     cs ⊆ Puzzle_domain p ∧ ∀ v, v ∈ cs → 1 ≤ v ≤ Puzzle.width p) ∧
  (well_formed p → Forall flattens (Puzzle.constraints p) →
   reducer h = reducer (initialized p h0) → in_range p h →
   ∃ cs, eval (Cell_candidates cell) h = Ok cs).
Proof.
  intros Hcell Hdom.
  assert (Hset : domains_set p h).
  { intros c Hc. rewrite Hdom. by apply initialized_domains. }
  split.
  - intros cs Hcs. apply Cell_candidates_subset in Hcs.
    rewrite (Hset cell Hcell) in Hcs. simpl in Hcs. split; [done|].
    intros v Hv. by apply Puzzle_domain_spec, Hcs.
  - intros Hwf Hfl Hred Hr. apply (Cell_candidates_ok p); try done.
    intros k Hk. rewrite Hred. by apply initialized_reducers.
Qed.

Lemma Cell_candidates_in_domain_witness :
  let cell := Cell.mk (0, 1) (constraints_of (Puzzle.constraints puzzle_cons) (0, 1)) in
  let h := with_value (0, 0) (Some 1) (initialized puzzle_cons fresh) in
  eval (Cell_candidates cell) h = Ok {[2]} ∧
  (∀ cs, eval (Cell_candidates cell) h = Ok cs →
     cs ⊆ Puzzle_domain puzzle_cons ∧ ∀ v, v ∈ cs → 1 ≤ v ≤ Puzzle.width puzzle_cons) ∧
  (well_formed puzzle_cons → Forall flattens (Puzzle.constraints puzzle_cons) →
   reducer h = reducer (initialized puzzle_cons fresh) →
   in_range puzzle_cons h → ∃ cs, eval (Cell_candidates cell) h = Ok cs).
Proof.
  intros cell h. split; [vm_compute; reflexivity|].
  apply (Cell_candidates_in_domain puzzle_cons fresh cell h).
  - simpl. apply list_elem_of_further, list_elem_of_here.
  - reflexivity.
Defined.

(** * Further properties of the reductions *)

Lemma set_iter_NoDup `{SetOrder} (s : gset Z) : NoDup (set_iter s).
Proof. rewrite (set_iter_perm s). apply NoDup_elements. Qed.

(** [combinations] pairs each element with the later ones: on a list
    without duplicates, every two distinct elements meet in one order or
    the other, and no element meets itself. *)
Lemma combinations2_distinct {A} (l : list A) a b :
  NoDup l → (a, b) ∈ combinations2 l → a ≠ b.
Proof.
  induction 1 as [|x l Hx Hnd IH]; simpl; [by intros ?%elem_of_nil|].
  intros [Hin|Hin]%elem_of_app; [|by apply IH].
  apply list_elem_of_fmap in Hin as (y & [= -> ->] & Hy). by intros ->.
Qed.

Lemma combinations2_meet {A} (l : list A) a b :
  a ∈ l → b ∈ l → a ≠ b → (a, b) ∈ combinations2 l ∨ (b, a) ∈ combinations2 l.
Proof.
  induction l as [|x l IH]; simpl; [by intros ?%elem_of_nil|].
  intros [->|Ha]%elem_of_cons [->|Hb]%elem_of_cons Hne; try done.
  - left. apply elem_of_app. left. by apply list_elem_of_fmap_2.
  - right. apply elem_of_app. left. by apply list_elem_of_fmap_2.
  - destruct (IH Ha Hb Hne); [left|right]; apply elem_of_app; by right.
Qed.

Lemma filter_result_total {A} (f : A → result bool) (g : A → bool) l :
  (∀ x, f x = Ok (g x)) →
  filter_result f l = Ok (List.filter g l).
Proof.
  intros Hf. induction l as [|x l IH]; [done|]. simpl.
  rewrite Hf, IH. by destruct (g x).
Qed.

Lemma flatten_elem_inv (l : list (Z * Z)) a b :
  (a, b) ∈ l →
  a ∈ concat (map (λ p : Z * Z, [p.1; p.2]) l) ∧
  b ∈ concat (map (λ p : Z * Z, [p.1; p.2]) l).
Proof.
  induction l as [|p l IH]; simpl; [by intros ?%elem_of_nil|].
  intros [<-|Hin]%elem_of_cons; simpl.
  - split; [left|right; left].
  - destruct (IH Hin). split; by do 2 right.
Qed.

(** The pair reduction under a symmetric rule [g].  The call returns a
    generator and nothing else happens.  Consumed without
    [collections.Iterable], the generator raises; consumed with it, it
    yields the candidates that make the rule true with some other
    candidate. *)
Lemma reduce_pairs_partner `{SetOrder} `{Interpreter} k (g : Z → Z → bool) candidates h :
  (∀ a b, evaluate k [a; b] = Ok (g a b)) → (∀ a b, g a b = g b a) →
  ∃ items, reduce_pairs k candidates h = Ok (PyGen items, h) ∧
    (collections_Iterable = false → items = Raise AttributeError) ∧
    (collections_Iterable = true →
     ∃ l, items = Ok l ∧
       ∀ x, x ∈ l ↔ x ∈ candidates ∧ ∃ y, y ∈ candidates ∧ y ≠ x ∧ g x y = true).
Proof.
  intros Hev Hsym. rewrite reduce_pairs_run. unfold pairs, flatten.
  rewrite (filter_result_total _ (λ p, g p.1 p.2)) by (intros [a b]; apply Hev).
  eexists. split; [done|]. split; intros ->; [done|].
  eexists. split; [done|]. intros x. split.
  - intros ([a b] & Hp & Hx)%flatten_elem.
    apply list_elem_of_In, filter_In in Hp as [Hp Hg]. apply list_elem_of_In in Hp.
    pose proof (combinations2_distinct _ _ _ (set_iter_NoDup candidates) Hp) as Hne.
    apply combinations2_elem in Hp as [Ha Hb]. apply set_iter_elem in Ha, Hb.
    simpl in *. destruct Hx as [->| ->].
    + split; [done|]. exists b. by split_and!.
    + split; [done|]. exists a. rewrite Hsym. by split_and!.
  - intros (Hx & y & Hy & Hne & Hg).
    destruct (combinations2_meet (set_iter candidates) x y) as [Hp|Hp];
      [by apply set_iter_elem|by apply set_iter_elem|done| |].
    + apply (flatten_elem_inv _ x y), list_elem_of_In, filter_In.
      split; [by apply list_elem_of_In|done].
    + apply (flatten_elem_inv _ y x), list_elem_of_In, filter_In.
      split; [by apply list_elem_of_In|]. simpl. by rewrite Hsym.
Qed.

(** X1.  [reduce_sub] on a [-] cage returns a generator, without raising
    and without touching the heap.  Where [collections.Iterable] is missing
    (Python 3.10 and later), consuming the generator raises
    [AttributeError], whatever the candidates.  Where it exists, and
    whatever the iteration order, the generator yields exactly the
    candidates that lie at distance [target] from another candidate; with a
    target of zero or less it yields nothing. *)
Theorem reduce_sub_partner `{SetOrder} `{Interpreter} k target candidates h :
  Constraint.variant k = SubConstraint target →
  ∃ items, reduce_sub k candidates h = Ok (PyGen items, h) ∧
    (collections_Iterable = false → items = Raise AttributeError) ∧
    (collections_Iterable = true →
     ∃ l, items = Ok l ∧
       (∀ x, x ∈ l ↔
          x ∈ candidates ∧ ∃ y, y ∈ candidates ∧ y ≠ x ∧ Z.abs (x - y) = target) ∧
       (target ≤ 0 → l = [])).
Proof.
  intros Hk.
  destruct (reduce_pairs_partner k (λ a b, bool_decide (Z.abs (a - b) = target))
              candidates h) as (items & Hrun & Hmissing & Hitems).
  - intros a b. unfold evaluate. by rewrite Hk.
  - intros a b. apply bool_decide_ext. lia.
  - exists items. split; [done|]. split; [done|].
    intros (l & -> & Hl)%Hitems. exists l. split; [done|]. split.
    + intros x. rewrite Hl. by setoid_rewrite bool_decide_eq_true.
    + intros Ht. apply elem_of_nil_inv. intros x (_ & y & _ & Hne & Habs)%Hl.
      apply bool_decide_eq_true in Habs. lia.
Qed.

Lemma reduce_sub_partner_witness :
  let k := Constraint.mk 0 [(0, 0); (0, 1)] (SubConstraint 2) in
  (∃ l, @reduce_sub ascending_order python_3_9 k {[1; 2; 3; 4]} fresh
        = Ok (PyGen (Ok l), fresh) ∧
     (∀ x, x ∈ l ↔
        x ∈ ({[1; 2; 3; 4]} : gset Z) ∧
        ∃ y, y ∈ ({[1; 2; 3; 4]} : gset Z) ∧ y ≠ x ∧ Z.abs (x - y) = 2) ∧
     (2 ≤ 0 → l = [])) ∧
  @reduce_sub ascending_order python_3_10 k {[1; 2; 3; 4]} fresh
  = Ok (PyGen (Raise AttributeError), fresh).
Proof.
  intros k. split.
  - destruct (@reduce_sub_partner ascending_order python_3_9 k 2 {[1; 2; 3; 4]} fresh eq_refl)
      as (items & Hrun & _ & Hitems).
    destruct (Hitems eq_refl) as (l & -> & Hl). by exists l.
  - destruct (@reduce_sub_partner ascending_order python_3_10 k 2 {[1; 2; 3; 4]} fresh eq_refl)
      as (items & Hrun & Hmissing & _).
    by rewrite (Hmissing eq_refl) in Hrun.
Defined.

(** X2.  [reduce_div] on a [/] cage returns a generator, without raising
    and without touching the heap.  Where [collections.Iterable] is missing
    (Python 3.10 and later), consuming the generator raises
    [AttributeError], whatever the candidates.  Where it exists, and
    whatever the iteration order, the generator yields exactly the
    candidates [x] for which another candidate [y] has [x = y * target] or
    [y = x * target]; with target 1 it yields nothing. *)
Theorem reduce_div_partner `{SetOrder} `{Interpreter} k target candidates h :
  Constraint.variant k = DivConstraint target →
  ∃ items, reduce_div k candidates h = Ok (PyGen items, h) ∧
    (collections_Iterable = false → items = Raise AttributeError) ∧
    (collections_Iterable = true →
     ∃ l, items = Ok l ∧
       (∀ x, x ∈ l ↔
          x ∈ candidates ∧
          ∃ y, y ∈ candidates ∧ y ≠ x ∧ (x = y * target ∨ y = x * target)) ∧
       (target = 1 → l = [])).
Proof.
  intros Hk.
  destruct (reduce_pairs_partner k
              (λ a b, bool_decide (a = b * target) || bool_decide (b = a * target))
              candidates h) as (items & Hrun & Hmissing & Hitems).
  - intros a b. unfold evaluate. by rewrite Hk.
  - intros a b. apply orb_comm.
  - exists items. split; [done|]. split; [done|].
    intros (l & -> & Hl)%Hitems. exists l. split; [done|]. split.
    + intros x. rewrite Hl. setoid_rewrite orb_true_iff.
      by setoid_rewrite bool_decide_eq_true.
    + intros ->. apply elem_of_nil_inv. intros x (_ & y & _ & Hne & Hg)%Hl.
      apply orb_true_iff in Hg as [Hg|Hg]; apply bool_decide_eq_true in Hg; lia.
Qed.

Lemma reduce_div_partner_witness :
  let k := Constraint.mk 0 [(0, 0); (0, 1)] (DivConstraint 2) in
  (∃ l, @reduce_div ascending_order python_3_9 k {[1; 2; 3; 4]} fresh
        = Ok (PyGen (Ok l), fresh) ∧
     (∀ x, x ∈ l ↔
        x ∈ ({[1; 2; 3; 4]} : gset Z) ∧
        ∃ y, y ∈ ({[1; 2; 3; 4]} : gset Z) ∧ y ≠ x ∧ (x = y * 2 ∨ y = x * 2)) ∧
     (2 = 1 → l = [])) ∧
  @reduce_div ascending_order python_3_10 k {[1; 2; 3; 4]} fresh
  = Ok (PyGen (Raise AttributeError), fresh).
Proof.
  intros k. split.
  - destruct (@reduce_div_partner ascending_order python_3_9 k 2 {[1; 2; 3; 4]} fresh eq_refl)
      as (items & Hrun & _ & Hitems).
    destruct (Hitems eq_refl) as (l & -> & Hl). by exists l.
  - destruct (@reduce_div_partner ascending_order python_3_10 k 2 {[1; 2; 3; 4]} fresh eq_refl)
      as (items & Hrun & Hmissing & _).
    by rewrite (Hmissing eq_refl) in Hrun.
Defined.

(** X3.  [reduce_mul] on a [*] cage, with [total] the product of the
    assigned values.  It raises [ZeroDivisionError] when [total] is zero,
    and, unless exactly one cell is unassigned, when zero is a candidate.
    Otherwise, with [remainder = target // total]: one unassigned cell
    leaves [{remainder}] if it is a candidate and nothing if not; any other
    number leaves the candidates that divide [remainder]. *)
Theorem reduce_mul_remainder k target candidates h :
  Constraint.variant k = MulConstraint target →
  let total := foldr Z.mul 1 (assigned_values_in h k) in
  let remainder := target `div` total in
  (total = 0 → reduce_mul k candidates h = Raise ZeroDivisionError) ∧
  (total ≠ 0 → length (unassigned_in h k) = 1%nat →
     reduce_mul k candidates h
     = Ok (PySet (if bool_decide (remainder ∈ candidates) then {[remainder]} else ∅), h)) ∧
  (total ≠ 0 → length (unassigned_in h k) ≠ 1%nat → 0 ∈ candidates →
     reduce_mul k candidates h = Raise ZeroDivisionError) ∧
  (total ≠ 0 → length (unassigned_in h k) ≠ 1%nat → 0 ∉ candidates →
     ∃ reduced, reduce_mul k candidates h = Ok (PySet reduced, h) ∧
       ∀ c, c ∈ reduced ↔ c ∈ candidates ∧ (c | remainder)).
Proof.
  intros Hk total remainder. rewrite reduce_mul_run. unfold remainder_in.
  rewrite Hk, product_foldr. fold total. fold remainder. split_and!.
  - intros Hz. by rewrite bool_decide_true.
  - intros Hz Hone. by rewrite bool_decide_false, bool_decide_true.
  - intros Hz Hmany H0. by rewrite bool_decide_false, bool_decide_false, bool_decide_true.
  - intros Hz Hmany H0. rewrite bool_decide_false, bool_decide_false, bool_decide_false by done.
    eexists. split; [done|]. intros c. rewrite elem_of_filter.
    assert (c ∈ candidates → c ≠ 0) by (by intros ? ->).
    split.
    + intros [Hmod Hin]. split; [done|]. apply Z.mod_divide; auto.
    + intros [Hin Hdiv]. split; [|done]. apply Z.mod_divide; auto.
Qed.

Lemma reduce_mul_remainder_witness :
  let k := Constraint.mk 0 [(0, 0); (0, 1); (0, 2)] (MulConstraint 12) in
  let h := with_value (0, 0) (Some 2) fresh in
  let total := foldr Z.mul 1 (assigned_values_in h k) in
  let remainder := 12 `div` total in
  remainder = 6 ∧
  (total = 0 → reduce_mul k {[1; 2; 3; 4]} h = Raise ZeroDivisionError) ∧
  (total ≠ 0 → length (unassigned_in h k) = 1%nat →
     reduce_mul k {[1; 2; 3; 4]} h
     = Ok (PySet (if bool_decide (remainder ∈ ({[1; 2; 3; 4]} : gset Z))
                  then {[remainder]} else ∅), h)) ∧
  (total ≠ 0 → length (unassigned_in h k) ≠ 1%nat → 0 ∈ ({[1; 2; 3; 4]} : gset Z) →
     reduce_mul k {[1; 2; 3; 4]} h = Raise ZeroDivisionError) ∧
  (total ≠ 0 → length (unassigned_in h k) ≠ 1%nat → 0 ∉ ({[1; 2; 3; 4]} : gset Z) →
     ∃ reduced, reduce_mul k {[1; 2; 3; 4]} h = Ok (PySet reduced, h) ∧
       ∀ c, c ∈ reduced ↔ c ∈ ({[1; 2; 3; 4]} : gset Z) ∧ (c | remainder)).
Proof.
  intros k h total remainder. split; [reflexivity|].
  exact (reduce_mul_remainder k 12 {[1; 2; 3; 4]} h eq_refl).
Defined.

(** X4.  When [Constraint.reduce] returns and [set(...)] of its result is
    [reduced], then [reduced] is a subset of the candidates given exactly
    when the constraint is not a uniqueness constraint or every value
    assigned in the group is itself a candidate: only [reduce_unique] can
    add, and it adds the assigned values that were not candidates. *)
Theorem reduce_narrows_iff `{SetOrder} `{Interpreter} k candidates h r reduced :
  eval (Constraint_reduce k candidates) h = Ok r → to_set r = Ok reduced →
  (reduced ⊆ candidates ↔
   Constraint.variant k ≠ UniquenessConstraint ∨
   (list_to_set (assigned_values_in h k) : gset Z) ⊆ candidates).
Proof.
  intros Hr. destruct (decide (Constraint.variant k = UniquenessConstraint)) as [Hk|Hk].
  - revert Hr. unfold eval, Constraint_reduce, bind, get_reducer.
    case_bool_decide; [|done]. rewrite Hk, reduce_unique_run. intros [= <-]. simpl.
    intros [= <-]. unfold symmetric_difference. split.
    + intros Hsub. right. intros x Hx. destruct (decide (x ∈ candidates)); [done|].
      apply Hsub, elem_of_union_r, elem_of_difference. done.
    + intros [?|Hsub]; [done|]. intros x [Hx|Hx]%elem_of_union.
      * by apply elem_of_difference in Hx as [? _].
      * apply elem_of_difference in Hx as [Hx _]. by apply Hsub.
  - intros Hs. split; [by left|]. intros _.
    by apply (Constraint_reduce_subset k candidates h r).
Qed.

Lemma reduce_narrows_iff_witness :
  let k := Constraint.mk 4 [(0, 0); (0, 1)] UniquenessConstraint in
  let h := with_value (0, 0) (Some 1) (initialized puzzle_cons fresh) in
  eval (Constraint_reduce k {[2]}) h = Ok (PySet {[1; 2]}) ∧
  to_set (PySet {[1; 2]}) = Ok {[1; 2]} ∧
  (({[1; 2]} : gset Z) ⊆ ({[2]} : gset Z) ↔
   Constraint.variant k ≠ UniquenessConstraint ∨
   (list_to_set (assigned_values_in h k) : gset Z) ⊆ ({[2]} : gset Z)).
Proof.
  intros k h.
  assert (Hrun : eval (Constraint_reduce k {[2]}) h = Ok (PySet {[1; 2]}))
    by (vm_compute; reflexivity).
  split; [exact Hrun|]. split; [reflexivity|].
  exact (reduce_narrows_iff k {[2]} h (PySet {[1; 2]}) {[1; 2]} Hrun eq_refl).
Defined.

(** Folding uniqueness constraints in [Cell.candidates] removes the values
    assigned in their groups: the intersection undoes what the symmetric
    difference adds. *)
Lemma fold_unique_removes `{SetOrder} `{Interpreter} uniqs b h :
  Forall (λ u, Constraint.variant u = UniquenessConstraint) uniqs →
  (∀ u, u ∈ uniqs → Constraint.id u ∈ reducer h) →
  eval (fold_M (λ candidates k,
                  r <- Constraint_reduce k candidates ;;
                  reduced <- lift (to_set r) ;;
                  ret (candidates ∩ reduced)) uniqs b) h
  = Ok (b ∖ ⋃ (map (λ u, list_to_set (assigned_values_in h u)) uniqs)).
Proof.
  intros Hall. revert b. induction Hall as [|u uniqs Hu _ IH]; intros b Hbound; simpl.
  - unfold eval, ret. f_equal. apply set_eq. intros x.
    rewrite elem_of_difference. split; [|tauto]. intros ?. split; [done|].
    apply not_elem_of_empty.
  - rewrite eval_bind by readonly. rewrite reduce_step_eval.
    assert (Hred : eval (Constraint_reduce u b) h
              = Ok (PySet (symmetric_difference b (list_to_set (assigned_values_in h u))))).
    { unfold eval, Constraint_reduce, bind, get_reducer.
      rewrite bool_decide_true by (apply Hbound; left).
      by rewrite Hu, reduce_unique_run. }
    rewrite Hred. simpl.
    rewrite IH by (intros u' Hu'; apply Hbound; by right).
    f_equal. apply set_eq. intros x. unfold symmetric_difference.
    rewrite !elem_of_difference, elem_of_intersection, !elem_of_union,
      !elem_of_difference. tauto.
Qed.

(** X5.  For a cell whose constraints are a cage followed by uniqueness
    constraints, as the loader builds them, the candidates are what the
    cage's reduction keeps of the domain, without the values assigned in the
    cell's rows and columns; when the result of the cage's reduction cannot
    be consumed, its exception is the outcome. *)
Theorem Cell_candidates_cage_then_unique `{SetOrder} `{Interpreter} cell cage uniqs h r :
  Cell.constraints cell = cage :: uniqs →
  Forall (λ u, Constraint.variant u = UniquenessConstraint) uniqs →
  (∀ u, u ∈ uniqs → Constraint.id u ∈ reducer h) →
  eval (Constraint_reduce cage (default ∅ (domain h !! Cell.tuple cell))) h = Ok r →
  eval (Cell_candidates cell) h
  = rbind (to_set r) (λ reduced,
      Ok ((default ∅ (domain h !! Cell.tuple cell) ∩ reduced)
          ∖ ⋃ (map (λ u, list_to_set (assigned_values_in h u)) uniqs))).
Proof.
  intros Hks Hall Hbound Hr. unfold Cell_candidates.
  rewrite eval_bind by readonly. unfold eval at 1, get_domain. simpl.
  rewrite Hks. simpl. rewrite eval_bind by readonly. rewrite reduce_step_eval.
  rewrite Hr. simpl. destruct (to_set r) as [reduced| |]; simpl; try done.
  by apply fold_unique_removes.
Qed.

Lemma Cell_candidates_cage_then_unique_witness :
  let cage := Constraint.mk 1 [(0, 1)] (ConConstraint 2) in
  let row := Constraint.mk 4 [(0, 0); (0, 1)] UniquenessConstraint in
  let col := Constraint.mk 7 [(0, 1); (1, 1)] UniquenessConstraint in
  let cell := Cell.mk (0, 1) [cage; row; col] in
  let h := with_value (0, 0) (Some 1) (initialized puzzle_cons fresh) in
  eval (Cell_candidates cell) h
  = Ok ((default ∅ (domain h !! Cell.tuple cell) ∩ {[2]})
        ∖ ⋃ (map (λ u, list_to_set (assigned_values_in h u)) [row; col])).
Proof.
  intros cage row col cell h.
  apply (Cell_candidates_cage_then_unique cell cage [row; col] h (PySet {[2]})).
  - reflexivity.
  - repeat constructor.
  - intros u Hu.
    apply elem_of_cons in Hu as [->|Hu]; [apply (bool_decide_unpack _); vm_compute; exact I|].
    apply list_elem_of_singleton in Hu as ->. apply (bool_decide_unpack _).
    vm_compute. exact I.
  - vm_compute. reflexivity.
Defined.

(** X6.  Before [initialize] has bound its reducer, [Constraint.reduce]
    raises [AttributeError], and so does [Cell.candidates] on a cell whose
    first constraint has no reducer; a cell without constraints has its
    domain for candidates, the empty set when none was set. *)
Theorem candidates_need_reducer `{SetOrder} `{Interpreter} :
  (∀ k candidates h, Constraint.id k ∉ reducer h →
     Constraint_reduce k candidates h = Raise AttributeError) ∧
  (∀ c k ks h, Cell.constraints c = k :: ks → Constraint.id k ∉ reducer h →
     Cell_candidates c h = Raise AttributeError) ∧
  (∀ c h, Cell.constraints c = [] →
     Cell_candidates c h = Ok (default ∅ (domain h !! Cell.tuple c), h)) ∧
  (∀ c, Cell.constraints c = [] → Cell_candidates c fresh = Ok (∅, fresh)).
Proof.
  assert (Hreduce : ∀ k candidates h, Constraint.id k ∉ reducer h →
            Constraint_reduce k candidates h = Raise AttributeError).
  { intros k candidates h Hk. unfold Constraint_reduce, bind, get_reducer.
    by rewrite bool_decide_false. }
  split_and!; [done| | |].
  - intros c k ks h Hks Hk. unfold Cell_candidates, bind, get_domain.
    rewrite Hks. simpl. unfold bind. by rewrite Hreduce.
  - intros c h Hks. unfold Cell_candidates, bind, get_domain. by rewrite Hks.
  - intros c Hks. unfold Cell_candidates, bind, get_domain. by rewrite Hks.
Qed.

(** * Further properties of the constraints *)

(** X7.  [evaluate] raises nothing but [IndexError], and exactly when the
    list is too short for the indices it reads: fewer than two values for a
    [-] or [/] cage, none for a [$] cage.  Values past those indices are
    ignored, and the other variants accept any list. *)
Theorem evaluate_index_error k values :
  (evaluate k values = Raise IndexError ↔
     match Constraint.variant k with
     | SubConstraint _ | DivConstraint _ => (length values < 2)%nat
     | ConConstraint _ => values = []
     | _ => False
     end) ∧
  (∀ e, evaluate k values = Raise e → e = IndexError) ∧
  (∀ more, evaluate k values ≠ Raise IndexError →
     match Constraint.variant k with
     | SubConstraint _ | DivConstraint _ | ConConstraint _ =>
         evaluate k (values ++ more) = evaluate k values
     | _ => True
     end).
Proof.
  unfold evaluate. split_and!.
  - destruct (Constraint.variant k); destruct values as [|v0 [|v1 vs]]; simpl;
      split; (done || lia || auto).
  - intros e. destruct (Constraint.variant k); destruct values as [|v0 [|v1 vs]];
      simpl; congruence.
  - intros more. destruct (Constraint.variant k); destruct values as [|v0 [|v1 vs]];
      simpl; done.
Qed.

(** How [solved] and [consistent] relate on one heap. *)
Lemma all_assigned_None values :
  all_assigned values = None ↔ None ∈ values.
Proof.
  induction values as [|[v|] l IH]; simpl.
  - split; [done|by intros ?%elem_of_nil].
  - destruct (all_assigned l).
    + split; [done|]. intros [?|Hin]%elem_of_cons; [done|]. by apply IH in Hin.
    + split; [|done]. intros _. right. by apply IH.
  - split; [|done]. intros _. left.
Qed.

Lemma all_M_lift {S A} (f : A → M S bool) (g : A → result bool) l s :
  (∀ x, f x s = lift (g x) s) →
  (∀ x, x ∈ l → g x = Ok true) → all_M f l s = Ok (true, s).
Proof.
  intros Hf. induction l as [|x l IH]; intros Hl; [done|].
  simpl. unfold bind. rewrite Hf, (Hl x) by left. simpl.
  apply IH. intros y Hy. apply Hl. by right.
Qed.

(** X8.  A constraint with an unassigned cell is consistent and not solved,
    without [evaluate] being called; a fully assigned constraint is
    consistent exactly when it is solved, exceptions included.  Hence a
    solved puzzle is consistent. *)
Theorem solved_and_consistent :
  (∀ k h, None ∈ values_in h k →
     Constraint_solved k h = Ok (false, h) ∧ Constraint_consistent k h = Ok (true, h)) ∧
  (∀ k h, None ∉ values_in h k → Constraint_consistent k h = Constraint_solved k h) ∧
  (∀ p h, eval (Puzzle_solved p) h = Ok true → Puzzle_consistent p h = Ok (true, h)).
Proof.
  split_and!.
  - intros k h Hnone%all_assigned_None.
    rewrite Constraint_solved_run, Constraint_consistent_run.
    unfold solved_in, consistent_in. by rewrite Hnone.
  - intros k h Hall. rewrite Constraint_solved_run, Constraint_consistent_run.
    unfold solved_in, consistent_in.
    destruct (all_assigned (values_in h k)) eqn:E; [done|].
    by apply all_assigned_None in E.
  - intros p h Hsolved.
    apply (all_M_lift _ (λ k, consistent_in h k));
      [intros k; apply Constraint_consistent_run|].
    intros k Hk. pose proof (Puzzle_solved_true p h k Hsolved Hk) as Hks.
    unfold solved_in in Hks. unfold consistent_in.
    by destruct (all_assigned (values_in h k)).
Qed.

(** * Further properties of the search *)

(** Without [collections.Iterable], the generator of a [-] or [/] cage
    cannot be consumed. *)
Lemma Constraint_reduce_missing `{SetOrder} `{Interpreter} k candidates h :
  collections_Iterable = false → Constraint.id k ∈ reducer h → pair_rule k →
  ∃ r, eval (Constraint_reduce k candidates) h = Ok r ∧ to_set r = Raise AttributeError.
Proof.
  intros Hm Hb Hk. unfold eval, Constraint_reduce, bind, get_reducer.
  rewrite bool_decide_true by done. unfold pair_rule in Hk.
  destruct (Constraint.variant k); try done;
    unfold reduce_sub, reduce_div; rewrite reduce_pairs_run;
    (eexists; split; [done|]); simpl; unfold flatten; by rewrite Hm.
Qed.

Lemma fold_intersect_missing `{SetOrder} `{Interpreter} p ks b h :
  collections_Iterable = false →
  (∀ k, k ∈ ks → Constraint.id k ∈ reducer h) → in_range p h → 0 ∉ b →
  Exists pair_rule ks →
  eval (fold_M (λ candidates k,
                  r <- Constraint_reduce k candidates ;;
                  reduced <- lift (to_set r) ;;
                  ret (candidates ∩ reduced)) ks b) h = Raise AttributeError.
Proof.
  intros Hm Hks Hr. revert b.
  induction ks as [|k ks IH]; intros b Hz Hex; [by apply Exists_nil in Hex|].
  simpl. rewrite eval_bind by readonly. rewrite reduce_step_eval.
  destruct (decide (pair_rule k)) as [Hk|Hk].
  - destruct (Constraint_reduce_missing k b h) as (r & -> & Hs);
      [done|apply Hks; left|done|].
    simpl. by rewrite Hs.
  - destruct (Constraint_reduce_ok p k b h) as (r & reduced & -> & Hs);
      [apply Hks; left|by intros ?|done|done|].
    simpl. rewrite Hs. simpl. apply IH.
    + intros k' Hk'. apply Hks. by right.
    + intros Hin. apply Hz. by apply elem_of_intersection in Hin as [? _].
    + by apply Exists_cons in Hex as [?|?].
Qed.

Lemma Cell_candidates_missing `{SetOrder} `{Interpreter} p cell h :
  collections_Iterable = false → well_formed p → cell ∈ Puzzle.cells p →
  domains_set p h → reducers_set p h → in_range p h →
  Exists pair_rule (Cell.constraints cell) →
  eval (Cell_candidates cell) h = Raise AttributeError.
Proof.
  intros Hm [_ Hwf] Hcell Hdom Hred Hr Hex. unfold Cell_candidates.
  rewrite eval_bind by readonly. unfold eval at 1, get_domain. simpl.
  rewrite (Hdom cell Hcell). simpl.
  pose proof (proj1 (Forall_forall _ _) Hwf cell Hcell) as Hks.
  apply (fold_intersect_missing p); [done| |done| |done].
  - intros k Hk. apply Hred. by apply (proj1 (Forall_forall _ _) Hks).
  - rewrite Puzzle_domain_spec. lia.
Qed.

Lemma map_M_raise {S A B} (f : A → M S B) l s e :
  (∀ x, readonly (f x)) →
  (∀ x, x ∈ l → (∃ y, eval (f x) s = Ok y) ∨ eval (f x) s = Raise e) →
  (∃ x, x ∈ l ∧ eval (f x) s = Raise e) →
  eval (map_M f l) s = Raise e.
Proof.
  intros Hf. induction l as [|x l IH]; intros Hl (x0 & Hx0 & He);
    [by apply elem_of_nil in Hx0|].
  simpl. rewrite eval_bind by done.
  destruct (Hl x) as [[y Hy]|Hx]; [left| |by rewrite Hx].
  rewrite Hy. simpl. rewrite eval_bind by by apply readonly_map_M.
  rewrite IH; [done| |].
  - intros z Hz. apply Hl. by right.
  - apply elem_of_cons in Hx0 as [->|Hx0]; [congruence|eauto].
Qed.

(** The sort keys are computed for every unassigned cell: one of them in a
    [-] or [/] cage is enough for the sort to raise. *)
Lemma solve_order_missing `{SetOrder} `{Interpreter} p h :
  collections_Iterable = false → well_formed p →
  domains_set p h → reducers_set p h → in_range p h →
  (∃ cell, cell ∈ unassigned_cells p h ∧ Exists pair_rule (Cell.constraints cell)) →
  eval (solve_order p) h = Raise AttributeError.
Proof.
  intros Hm Hwf Hdom Hred Hr (cell & Hcell & Hex). unfold solve_order.
  rewrite eval_bind by readonly.
  unfold eval at 1. rewrite Puzzle_unassigned_run. simpl.
  set (key := λ c : Cell.t, cs <- Cell_candidates c ;; ret (size cs, c)).
  assert (Hkey : ∀ c, readonly (key c)) by (intros c; unfold key; readonly).
  rewrite eval_bind by by apply readonly_map_M.
  rewrite (map_M_raise key (unassigned_cells p h) h AttributeError Hkey); [done| |].
  - intros c [Hc _]%unassigned_cells_spec. unfold key. rewrite eval_bind by readonly.
    destruct (decide (Exists pair_rule (Cell.constraints c))) as [Hp|Hp].
    + right. by rewrite (Cell_candidates_missing p c h).
    + left. destruct (Cell_candidates_returns p c h) as [cs ->]; [done| |done..|].
      { apply Forall_forall. intros k Hk Hpair. exfalso.
        apply Hp, Exists_exists. eauto. }
      simpl. eauto.
  - exists cell. split; [done|]. unfold key. rewrite eval_bind by readonly.
    apply unassigned_cells_spec in Hcell as [Hcell _].
    by rewrite (Cell_candidates_missing p cell h).
Qed.

(** X9.  On a well-formed puzzle entered with values in [1..N]: when the
    reductions of the puzzle can be consumed (no [-] or [/] cage, or an
    interpreter with [collections.Iterable]), [backtrack_solve] returns, the
    search raising no exception and not running out of its recursion
    budget; when [collections.Iterable] is missing (Python 3.10 and later)
    and some unassigned cell lies in a [-] or [/] cage, [backtrack_solve]
    raises [AttributeError]. *)
Theorem backtrack_solve_returns `{SetOrder} `{Interpreter} p h :
  well_formed p → in_range p h →
  (Forall flattens (Puzzle.constraints p) →
   ∃ success st h', backtrack_solve p h = Ok ((success, st), h')) ∧
  (collections_Iterable = false →
   (∃ cell, cell ∈ unassigned_cells p h ∧ Exists pair_rule (Cell.constraints cell)) →
   backtrack_solve p h = Raise AttributeError).
Proof.
  intros Hwf Hr.
  assert (Hrange : in_range p (initialized p h)).
  { unfold in_range. by rewrite initialized_value. }
  split.
  - intros Hfl. rewrite backtrack_solve_run.
    destruct (solve_safe (S (length (Puzzle.cells p))) p
                (mkSearch (initialized p h) (mkStats 0 0))) as (b & s' & ->);
      [done|done|apply initialized_domains|intros k Hk; by apply initialized_reducers
      |done| |eauto].
    pose proof (unassigned_cells_length p (initialized p h)). simpl. lia.
  - intros Hm Hcell. rewrite backtrack_solve_run, solve_S. simpl heap.
    rewrite (solve_order_missing p (initialized p h)); [done..| | |done|].
    + apply initialized_domains.
    + intros k Hk. by apply initialized_reducers.
    + unfold unassigned_cells. by rewrite initialized_value.
Qed.

Lemma puzzle_pairs_well_formed : well_formed puzzle_pairs.
Proof. apply (bool_decide_unpack _). vm_compute. exact I. Qed.

Lemma backtrack_solve_returns_witness :
  (∃ success st h',
     @backtrack_solve ascending_order python_3_9 puzzle_pairs fresh
     = Ok ((success, st), h')) ∧
  @backtrack_solve ascending_order python_3_10 puzzle_pairs fresh = Raise AttributeError.
Proof.
  assert (Hr : in_range puzzle_pairs fresh).
  { intros c v Hc. vm_compute in Hc. discriminate Hc. }
  split.
  - apply (@backtrack_solve_returns ascending_order python_3_9 puzzle_pairs fresh
             puzzle_pairs_well_formed Hr).
    apply (bool_decide_unpack _). vm_compute. exact I.
  - apply (@backtrack_solve_returns ascending_order python_3_10 puzzle_pairs fresh
             puzzle_pairs_well_formed Hr); [reflexivity|].
    exists (Cell.mk (0, 0) (constraints_of (Puzzle.constraints puzzle_pairs) (0, 0))).
    split; [apply list_elem_of_here|]. apply Exists_cons_hd. exact I.
Defined.

Lemma try_candidates_fills rec p cell cands :
  restores rec → fills p rec →
  ∀ s, cell ∈ unassigned_cells p (heap s) →
  ∀ b s', try_candidates rec p cell cands s = Ok (b, s') →
    value (heap s) ⊆ value (heap s') ∧
    (∀ c, c ∉ coords p → value (heap s') !! c = value (heap s) !! c) ∧
    (b = true → unassigned_cells p (heap s') = []).
Proof.
  intros Hres Hrec. induction cands as [|v rest IH]; intros s Hin b s'.
  - rewrite try_candidates_nil. by intros [= <- <-].
  - rewrite try_candidates_cons.
    pose proof Hin as [Hcell Hnone]%unassigned_cells_spec.
    assert (Hundo : heap (unassign cell (assign cell v s)) = heap s)
      by by apply with_value_undo.
    destruct (eval (Puzzle_consistent p) _) as [[]| |]; try done.
    + destruct (rec _) as [[[] s2]| |] eqn:Hr; try done.
      * intros [= <- <-]. apply Hrec in Hr as (Hsub & Hout & Hfull). simpl in *.
        split_and!; [|intros c Hc|done].
        -- etrans; [|exact Hsub]. by apply insert_subseteq.
        -- rewrite (Hout c Hc). apply lookup_insert_ne. intros <-.
           apply Hc. unfold coords. by apply list_elem_of_fmap_2.
      * apply Hres in Hr as (_ & _ & Hheap). specialize (Hheap eq_refl).
        assert (Heq : heap (unassign cell s2) = heap s).
        { unfold unassign. simpl. rewrite Hheap. by apply with_value_undo. }
        intros Ht. apply IH in Ht; [|by rewrite Heq]. by rewrite Heq in Ht.
    + intros Ht. apply IH in Ht; [|by rewrite Hundo]. by rewrite Hundo in Ht.
Qed.

Lemma solve_fills `{SetOrder} `{Interpreter} fuel p : fills p (solve fuel p).
Proof.
  induction fuel as [|fuel IH]; intros s b s'; [done|].
  rewrite solve_S.
  destruct (eval (solve_order p) (heap s)) as [[|cell order]| |] eqn:Ho; try done.
  - destruct (eval (Puzzle_solved p) (heap s)); simpl; try done. intros [= <- <-].
    split_and!; [done|done|]. intros _. by apply solve_order_nil.
  - destruct (eval (Cell_candidates cell) (heap s)) as [cs| |]; try done.
    apply try_candidates_fills; [apply solve_restores|done|].
    by apply solve_order_head in Ho as [? _].
Qed.

(** X10.  [backtrack_solve] keeps every value that was assigned at the
    call and writes no value outside the cells of the puzzle; on success it
    leaves every cell of the puzzle assigned.  Domains and reducers are as
    [initialize] set them. *)
Theorem backtrack_solve_fills `{SetOrder} `{Interpreter} p h success st h' :
  backtrack_solve p h = Ok ((success, st), h') →
  (∀ c v, value h !! c = Some v → value h' !! c = Some v) ∧
  (∀ c, c ∉ coords p → value h' !! c = value h !! c) ∧
  (success = true →
   ∀ cell, cell ∈ Puzzle.cells p → is_Some (value h' !! Cell.tuple cell)) ∧
  domain h' = domain (initialized p h) ∧ reducer h' = reducer (initialized p h).
Proof.
  rewrite backtrack_solve_run.
  destruct (solve _ p _) as [[b s]| |] eqn:Hsolve; try done.
  intros [= -> <- <-].
  pose proof (solve_restores _ _ _ _ _ Hsolve) as (Hdom & Hred & _).
  apply solve_fills in Hsolve as (Hsub & Hout & Hfull). simpl in *.
  rewrite initialized_value in Hsub. setoid_rewrite initialized_value in Hout.
  split_and!; try done.
  - intros c v Hc. by apply (lookup_weaken _ _ _ _ Hc).
  - intros -> cell Hcell. specialize (Hfull eq_refl).
    destruct (value (heap s) !! Cell.tuple cell) eqn:E; [by eexists|].
    assert (Hin : cell ∈ unassigned_cells p (heap s)) by by apply unassigned_cells_spec.
    rewrite Hfull in Hin. by apply elem_of_nil in Hin.
Qed.

Lemma backtrack_solve_fills_witness :
  let h := with_value (5, 5) (Some 9) fresh in
  let h' := with_value (1, 1) (Some 1) (with_value (1, 0) (Some 2)
              (with_value (0, 1) (Some 2) (with_value (0, 0) (Some 1)
                 (initialized puzzle_2x2 h)))) in
  backtrack_solve puzzle_2x2 h = Ok ((true, mkStats 0 4), h') ∧
  (∀ c v, value h !! c = Some v → value h' !! c = Some v) ∧
  (∀ c, c ∉ coords puzzle_2x2 → value h' !! c = value h !! c) ∧
  (true = true →
   ∀ cell, cell ∈ Puzzle.cells puzzle_2x2 → is_Some (value h' !! Cell.tuple cell)) ∧
  domain h' = domain (initialized puzzle_2x2 h) ∧
  reducer h' = reducer (initialized puzzle_2x2 h).
Proof.
  intros h h'.
  assert (Hrun : backtrack_solve puzzle_2x2 h = Ok ((true, mkStats 0 4), h'))
    by (vm_compute; reflexivity).
  split; [exact Hrun|].
  exact (backtrack_solve_fills puzzle_2x2 h true (mkStats 0 4) h' Hrun).
Defined.

Scheme call_tries_ind := Induction for call Sort Prop
  with tries_call_ind := Induction for tries Sort Prop.

(** A succeeding run has at least as many descents as exhausted loops; a
    failing run at most one exhausted loop more. *)
Lemma exhausts_descents c :
  (exhausts c ≤ descents c + (if success c then 0 else 1))%nat.
Proof.
  revert c.
  apply (call_tries_ind
    (λ c, (exhausts c ≤ descents c + (if success c then 0 else 1))%nat)
    (λ t, (exhausts_tries t ≤ descents_tries t + (if found t then 0 else 1))%nat));
    simpl.
  - intros []; lia.
  - auto.
  - lia.
  - auto.
  - intros v sub Hsub rest Hrest. destruct (success sub), (found rest); lia.
  - intros v sub Hsub. destruct (success sub); lia.
Qed.

(** X11.  When [backtrack_solve] returns, [backtracks] is at most
    [recursive_calls] on success and at most [recursive_calls + 1] on
    failure. *)
Theorem backtracks_le_recursive_calls `{SetOrder} `{Interpreter} p h success st h' :
  backtrack_solve p h = Ok ((success, st), h') →
  (backtracks st ≤ recursive_calls st + (if success then 0 else 1))%nat.
Proof.
  rewrite backtrack_solve_run.
  destruct (solve _ p _) as [[b s]| |] eqn:Hsolve; try done.
  intros [= -> <- <-].
  apply solve_traced in Hsolve as (c & _ & -> & Hrc & Hbt). simpl in *.
  rewrite Hrc, Hbt. apply exhausts_descents.
Qed.

Lemma backtracks_le_recursive_calls_witness :
  backtrack_solve puzzle_clash fresh
    = Ok ((false, mkStats 2 1), initialized puzzle_clash fresh) ∧
  (backtracks (mkStats 2 1) ≤ recursive_calls (mkStats 2 1) + 1)%nat.
Proof.
  assert (Hrun : backtrack_solve puzzle_clash fresh
                 = Ok ((false, mkStats 2 1), initialized puzzle_clash fresh))
    by (vm_compute; reflexivity).
  split; [exact Hrun|].
  exact (backtracks_le_recursive_calls puzzle_clash fresh false (mkStats 2 1)
           (initialized puzzle_clash fresh) Hrun).
Defined.

Lemma filter_ext_in {A} (P Q : A → Prop) `{∀ x, Decision (P x)}
    `{∀ x, Decision (Q x)} (l : list A) :
  (∀ x, x ∈ l → P x ↔ Q x) → filter P l = filter Q l.
Proof.
  induction l as [|x l IH]; intros Hl; [done|]. rewrite !filter_cons.
  rewrite IH by (intros y Hy; apply Hl; by right).
  pose proof (Hl x (list_elem_of_here _ _)).
  destruct (decide (P x)), (decide (Q x)); tauto || done.
Qed.

(** With one cell per coordinate, an assignment takes exactly one cell off
    the unassigned ones. *)
Lemma assign_decreases_by_one p cell v h :
  NoDup (coords p) → cell ∈ unassigned_cells p h →
  length (unassigned_cells p h)
  = S (length (unassigned_cells p (with_value (Cell.tuple cell) (Some v) h))).
Proof.
  unfold coords, unassigned_cells. intros Hnd [Hnone Hin]%list_elem_of_filter.
  simpl. induction (Puzzle.cells p) as [|c l IH]; [by apply elem_of_nil in Hin|].
  apply NoDup_cons in Hnd as [Hc Hnd]. rewrite !filter_cons.
  apply elem_of_cons in Hin as [<-|Hin].
  - rewrite decide_True by done. rewrite decide_False by by rewrite lookup_insert_eq.
    simpl. f_equal. f_equal. apply filter_ext_in.
    intros c' Hc'. rewrite lookup_insert_ne; [done|].
    intros Heq. apply Hc. rewrite Heq. by apply list_elem_of_fmap_2.
  - assert (Hne : Cell.tuple cell ≠ Cell.tuple c).
    { intros Heq. apply Hc. rewrite <- Heq. by apply list_elem_of_fmap_2. }
    rewrite lookup_insert_ne by done.
    destruct (decide (value h !! Cell.tuple c = None)); simpl; rewrite IH; done.
Qed.

Lemma runs_success_descents `{SetOrder} `{Interpreter} p h c :
  NoDup (coords p) → runs p h c → success c = true →
  (length (unassigned_cells p h) ≤ descents c)%nat.
Proof.
  intros Hnd. revert h c.
  apply (runs_loops_ind _ _ p
    (λ h c, success c = true → (length (unassigned_cells p h) ≤ descents c)%nat)
    (λ h cell cands t, cell ∈ unassigned_cells p h → found t = true →
       (length (unassigned_cells p h) ≤ descents_tries t)%nat)); simpl.
  - intros h solved -> _ _. simpl. lia.
  - auto.
  - done.
  - auto.
  - intros h cell v rest sub t _ _ _ _ _ IH Hin Hf. specialize (IH Hin Hf). lia.
  - intros h cell v rest sub _ _ IH Hs Hin _. specialize (IH Hs).
    rewrite (assign_decreases_by_one p cell v h Hnd Hin). lia.
Qed.

(** X12.  On a puzzle with one cell per coordinate, a successful
    [backtrack_solve] has counted at least one recursive call per cell that
    was unassigned at the call. *)
Theorem recursive_calls_on_success `{SetOrder} `{Interpreter} p h st h' :
  NoDup (coords p) →
  backtrack_solve p h = Ok ((true, st), h') →
  (length (unassigned_cells p h) ≤ recursive_calls st)%nat.
Proof.
  intros Hnd. rewrite backtrack_solve_run.
  destruct (solve _ p _) as [[b s]| |] eqn:Hsolve; try done.
  intros [= -> <- <-].
  apply solve_traced in Hsolve as (c & Hc & Hb & Hrc & _). simpl in *.
  rewrite Hrc. simpl.
  replace (unassigned_cells p h) with (unassigned_cells p (initialized p h))
    by (unfold unassigned_cells; by rewrite initialized_value).
  by apply runs_success_descents.
Qed.

Lemma recursive_calls_on_success_witness :
  let h' := with_value (1, 1) (Some 1) (with_value (1, 0) (Some 2)
              (with_value (0, 1) (Some 2) (with_value (0, 0) (Some 1)
                 (initialized puzzle_2x2 fresh)))) in
  backtrack_solve puzzle_2x2 fresh = Ok ((true, mkStats 0 4), h') ∧
  (length (unassigned_cells puzzle_2x2 fresh) ≤ recursive_calls (mkStats 0 4))%nat.
Proof.
  intros h'.
  assert (Hrun : backtrack_solve puzzle_2x2 fresh = Ok ((true, mkStats 0 4), h'))
    by (vm_compute; reflexivity).
  split; [exact Hrun|].
  apply (recursive_calls_on_success puzzle_2x2 fresh (mkStats 0 4) h'); [|exact Hrun].
  apply (bool_decide_unpack _). vm_compute. exact I.
Defined.

Lemma foldl_with_domain_fixed (cs : list Cell.t) d h :
  (∀ c, c ∈ cs → domain h !! Cell.tuple c = Some d) →
  foldl (λ h cell, with_domain (Cell.tuple cell) d h) h cs = h.
Proof.
  induction cs as [|c cs IH]; intros Hcs; [done|]. simpl.
  assert (Hfix : with_domain (Cell.tuple c) d h = h).
  { destruct h as [vals doms reds]. unfold with_domain. simpl. f_equal.
    apply insert_id. apply (Hcs c). left. }
  rewrite Hfix. apply IH. intros c' Hc'. apply Hcs. by right.
Qed.

Lemma foldl_with_reducer_fixed (ks : list Constraint.t) h :
  (∀ k, k ∈ ks → Constraint.id k ∈ reducer h) →
  foldl (λ h k, with_reducer (Constraint.id k) h) h ks = h.
Proof.
  induction ks as [|k ks IH]; intros Hks; [done|]. simpl.
  assert (Hfix : with_reducer (Constraint.id k) h = h).
  { destruct h as [vals doms reds]. unfold with_reducer. simpl. f_equal.
    apply subseteq_union_1_L, singleton_subseteq_l. apply (Hks k). left. }
  rewrite Hfix. apply IH. intros k' Hk'. apply Hks. by right.
Qed.

Lemma initialized_fixed p h :
  domains_set p h → reducers_set p h → initialized p h = h.
Proof.
  intros Hdom Hred. unfold initialized.
  rewrite foldl_with_domain_fixed by done. by apply foldl_with_reducer_fixed.
Qed.

Lemma initialized_with_value p c v h :
  initialized p (with_value c v h) = with_value c v (initialized p h).
Proof.
  unfold initialized.
  assert (Hd : ∀ cs h, foldl (λ h cell, with_domain (Cell.tuple cell) (Puzzle_domain p) h)
                         (with_value c v h) cs
                       = with_value c v
                           (foldl (λ h cell, with_domain (Cell.tuple cell) (Puzzle_domain p) h)
                              h cs)).
  { induction cs as [|c0 cs IH]; intros h0; [done|]. simpl. by rewrite <- IH. }
  assert (Hr : ∀ ks h, foldl (λ h k, with_reducer (Constraint.id k) h) (with_value c v h) ks
                       = with_value c v (foldl (λ h k, with_reducer (Constraint.id k) h) h ks)).
  { induction ks as [|k0 ks IH]; intros h0; [done|]. simpl. by rewrite <- IH. }
  by rewrite Hd, Hr.
Qed.

(** X13.  [initialize] is idempotent, does not depend on the values of the
    cells and does not change them: it commutes with any assignment, and
    running it before [backtrack_solve] changes nothing to the outcome. *)
Theorem initialize_idempotent `{SetOrder} `{Interpreter} p h :
  (initialize p ;;; initialize p) h = initialize p h ∧
  (∀ c v, (set_value c v ;;; initialize p) h = (initialize p ;;; set_value c v) h) ∧
  (∀ u h', initialize p h = Ok (u, h') → value h' = value h) ∧
  (initialize p ;;; backtrack_solve p) h = backtrack_solve p h.
Proof.
  assert (Hidem : initialized p (initialized p h) = initialized p h).
  { apply initialized_fixed; [apply initialized_domains|].
    intros k Hk. by apply initialized_reducers. }
  split_and!.
  - unfold bind. rewrite !initialize_run. by rewrite Hidem.
  - intros c v. unfold bind, set_value, modify. rewrite !initialize_run.
    by rewrite initialized_with_value.
  - intros u h'. rewrite initialize_run. intros [= _ <-]. apply initialized_value.
  - unfold bind. rewrite initialize_run, !backtrack_solve_run. by rewrite Hidem.
Qed.

Lemma solve_order_full `{SetOrder} `{Interpreter} p h :
  unassigned_cells p h = [] → eval (solve_order p) h = Ok [].
Proof.
  intros Hnil. unfold solve_order, eval, bind.
  rewrite Puzzle_unassigned_run, Hnil. done.
Qed.

(** X14.  Solving again after a success returns success at once, with both
    counters at 0 and the heap unchanged; solving again after a failure
    repeats the same outcome. *)
Theorem backtrack_solve_again `{SetOrder} `{Interpreter} p h success st h' :
  backtrack_solve p h = Ok ((success, st), h') →
  (success = true → backtrack_solve p h' = Ok ((true, mkStats 0 0), h')) ∧
  (success = false → backtrack_solve p h' = Ok ((false, st), h')).
Proof.
  intros Hrun. pose proof Hrun as Hfirst. rewrite backtrack_solve_run in Hrun.
  destruct (solve _ p _) as [[b s]| |] eqn:Hsolve; try done.
  injection Hrun as -> <- <-.
  pose proof (solve_restores _ _ _ _ _ Hsolve) as (Hdom & Hred & Hheap).
  simpl in Hdom, Hred, Hheap.
  assert (Hfix : initialized p (heap s) = heap s).
  { apply initialized_fixed.
    - intros c Hc. rewrite Hdom. by apply initialized_domains.
    - intros k Hk. rewrite Hred. by apply initialized_reducers. }
  split.
  - intros ->. pose proof (solve_sound _ _ _ _ Hsolve) as Hsolved.
    apply solve_fills in Hsolve as (_ & _ & Hfull). specialize (Hfull eq_refl).
    rewrite backtrack_solve_run, Hfix, solve_S. simpl heap.
    rewrite (solve_order_full p (heap s) Hfull), Hsolved. done.
  - intros ->. specialize (Hheap eq_refl).
    rewrite backtrack_solve_run, Hfix, Hheap.
    rewrite <- backtrack_solve_run, Hfirst. by rewrite Hheap.
Qed.

Lemma backtrack_solve_again_witness :
  let h' := with_value (1, 1) (Some 1) (with_value (1, 0) (Some 2)
              (with_value (0, 1) (Some 2) (with_value (0, 0) (Some 1)
                 (initialized puzzle_2x2 fresh)))) in
  backtrack_solve puzzle_2x2 fresh = Ok ((true, mkStats 0 4), h') ∧
  (true = true → backtrack_solve puzzle_2x2 h' = Ok ((true, mkStats 0 0), h')) ∧
  (true = false → backtrack_solve puzzle_2x2 h' = Ok ((false, mkStats 0 4), h')).
Proof.
  intros h'.
  assert (Hrun : backtrack_solve puzzle_2x2 fresh = Ok ((true, mkStats 0 4), h'))
    by (vm_compute; reflexivity).
  split; [exact Hrun|].
  exact (backtrack_solve_again puzzle_2x2 fresh true (mkStats 0 4) h' Hrun).
Defined.

(** ** Completeness of the search *)

Lemma solved_in_values h1 h2 k : value h1 = value h2 → solved_in h1 k = solved_in h2 k.
Proof. intros Hv. unfold solved_in, values_in. by rewrite Hv. Qed.

Lemma Puzzle_solved_values p h1 h2 :
  value h1 = value h2 → eval (Puzzle_solved p) h1 = eval (Puzzle_solved p) h2.
Proof.
  intros Hv. unfold Puzzle_solved.
  induction (Puzzle.constraints p) as [|k ks IH]; [done|]. simpl.
  rewrite !eval_bind by apply readonly_Constraint_solved.
  unfold eval at 1 3. rewrite !Constraint_solved_run, (solved_in_values h1 h2 k Hv).
  destruct (solved_in h2 k) as [[]| |]; simpl; done.
Qed.

Lemma completes_full p h hsol :
  completes p h hsol → unassigned_cells p h = [] → value h = value hsol.
Proof.
  intros (_ & _ & Hsub & _ & Honly) Hfull. apply map_eq. intros c.
  destruct (value hsol !! c) as [v|] eqn:Hc.
  - destruct (Honly c) as [[w Hw]|Hin]; [by eexists| |].
    + rewrite Hw. by rewrite (lookup_weaken _ _ _ _ Hw Hsub) in Hc.
    + apply list_elem_of_fmap in Hin as (cell & -> & Hcell).
      destruct (value h !! Cell.tuple cell) as [w|] eqn:Hw.
      * by rewrite (lookup_weaken _ _ _ _ Hw Hsub) in Hc.
      * assert (Hun : cell ∈ unassigned_cells p h) by by apply unassigned_cells_spec.
        rewrite Hfull in Hun. by apply elem_of_nil in Hun.
  - destruct (value h !! c) as [w|] eqn:Hw; [|done].
    by rewrite (lookup_weaken _ _ _ _ Hw Hsub) in Hc.
Qed.

Lemma values_in_weaken h hsol k vs :
  value h ⊆ value hsol → values_in h k = map Some vs → values_in hsol k = map Some vs.
Proof.
  intros Hsub. unfold values_in. revert vs.
  induction (Constraint.cells k) as [|c cs IH]; intros vs; simpl; [done|].
  destruct vs as [|v vs]; [done|]. simpl. intros [= Hc Hcs].
  rewrite (lookup_weaken _ _ _ _ Hc Hsub). f_equal. by apply IH.
Qed.

(** Below a solution every fully assigned constraint is solved, so the
    puzzle is consistent. *)
Lemma completes_consistent p h hsol :
  value h ⊆ value hsol → eval (Puzzle_solved p) hsol = Ok true →
  eval (Puzzle_consistent p) h = Ok true.
Proof.
  intros Hsub Hsolved. unfold eval, Puzzle_consistent.
  rewrite (all_M_lift _ (λ k, consistent_in h k)); [done| |].
  - intros k. apply Constraint_consistent_run.
  - intros k Hk. pose proof (Puzzle_solved_true p hsol k Hsolved Hk) as Hks.
    unfold consistent_in. unfold solved_in in Hks.
    destruct (all_assigned (values_in h k)) as [vs|] eqn:Hvs; [|done].
    apply all_assigned_Some in Hvs.
    apply (values_in_weaken h hsol k vs Hsub) in Hvs.
    apply all_assigned_Some in Hvs. by rewrite Hvs in Hks.
Qed.

(** Sums and products over the cells of a constraint, split between the
    cells assigned in [h] and the others. *)
Lemma foldr_add_split (f g : coord → option Z) (l : list coord) :
  (∀ c w, f c = Some w → g c = Some w) →
  foldr Z.add 0 (omap g l)
  = foldr Z.add 0 (omap f l) + foldr Z.add 0 (omap g (filter (λ c, f c = None) l)).
Proof.
  intros Hfg. induction l as [|c l IH]; [done|]. rewrite filter_cons. csimpl.
  destruct (f c) as [w|] eqn:Hf.
  - rewrite (Hfg c w Hf). destruct (decide (Some w = None)); [done|].
    csimpl. rewrite IH. lia.
  - destruct (decide (None = None)); [|done].
    csimpl. destruct (g c); csimpl; rewrite IH; lia.
Qed.

Lemma foldr_mul_split (f g : coord → option Z) (l : list coord) :
  (∀ c w, f c = Some w → g c = Some w) →
  foldr Z.mul 1 (omap g l)
  = foldr Z.mul 1 (omap f l) * foldr Z.mul 1 (omap g (filter (λ c, f c = None) l)).
Proof.
  intros Hfg. induction l as [|c l IH]; [done|]. rewrite filter_cons. csimpl.
  destruct (f c) as [w|] eqn:Hf.
  - rewrite (Hfg c w Hf). destruct (decide (Some w = None)); [done|].
    csimpl. rewrite IH. lia.
  - destruct (decide (None = None)); [|done].
    csimpl. destruct (g c); csimpl; rewrite IH; lia.
Qed.

Lemma foldr_add_member (ws : list Z) v :
  v ∈ ws → Forall (λ w, 1 ≤ w) ws →
  (length ws = 1%nat → foldr Z.add 0 ws = v) ∧
  (length ws ≠ 1%nat → foldr Z.add 0 ws - v > 0).
Proof.
  intros Hv Hall.
  assert (Hlow : ∀ l, Forall (λ w, 1 ≤ w) l → Z.of_nat (length l) ≤ foldr Z.add 0 l).
  { induction 1 as [|w l Hw _ IH]; simpl; lia. }
  induction Hall as [|w ws Hw Hall IH]; [by apply elem_of_nil in Hv|].
  simpl. apply elem_of_cons in Hv as [->|Hv].
  - specialize (Hlow ws Hall). destruct ws; simpl in *; split; lia.
  - destruct (IH Hv) as [IH1 IH2]. split; [destruct ws as [|? [|? ?]]; simpl; try lia|].
    + by apply elem_of_nil in Hv.
    + intros _. destruct (decide (length ws = 1%nat)) as [Hone|Hmany].
      * rewrite (IH1 Hone). lia.
      * specialize (IH2 Hmany). lia.
Qed.

Lemma foldr_mul_member (ws : list Z) v :
  v ∈ ws →
  (length ws = 1%nat → foldr Z.mul 1 ws = v) ∧ (v | foldr Z.mul 1 ws).
Proof.
  induction ws as [|w ws IH]; [by intros ?%elem_of_nil|].
  simpl. intros [->|Hv]%elem_of_cons.
  - split; [destruct ws; simpl; [lia|done]|]. apply Z.divide_factor_l.
  - destruct (IH Hv) as [_ IH2]. split.
    + destruct ws; [by apply elem_of_nil in Hv|done].
    + by apply Z.divide_mul_r.
Qed.

Lemma omap_all_Some (g : coord → option Z) (l : list coord) vs :
  map g l = map Some vs → omap g l = vs.
Proof.
  revert vs. induction l as [|c l IH]; intros [|v vs]; simpl; try done.
  intros [= -> Hl]. simpl. f_equal. by apply IH.
Qed.

Lemma NoDup_fmap_eq {A B} (f : A → B) (l : list A) a b :
  NoDup (f <$> l) → a ∈ l → b ∈ l → f a = f b → a = b.
Proof.
  induction l as [|x l IH]; simpl; [by intros _ ?%elem_of_nil|].
  intros [Hx Hnd]%NoDup_cons [->|Ha]%elem_of_cons [->|Hb]%elem_of_cons Heq; try done.
  - exfalso. apply Hx. rewrite Heq. by apply list_elem_of_fmap_2.
  - exfalso. apply Hx. rewrite <- Heq. by apply list_elem_of_fmap_2.
  - by apply IH.
Qed.

Lemma in_range_weaken p h hsol :
  value h ⊆ value hsol → in_range p hsol → in_range p h.
Proof. intros Hsub Hr c v Hc. apply (Hr c). by apply (lookup_weaken _ _ _ _ Hc Hsub). Qed.

Lemma unassigned_values_low p h hsol k :
  in_range p hsol →
  Forall (λ w, 1 ≤ w) (omap (λ c, value hsol !! c) (unassigned_in h k)).
Proof.
  intros Hr. apply Forall_forall. intros w (c & _ & Hc)%list_elem_of_omap.
  apply Hr in Hc. lia.
Qed.

Lemma omap_length_total (g : coord → option Z) (l : list coord) :
  (∀ c, c ∈ l → is_Some (g c)) → length (omap g l) = length l.
Proof.
  induction l as [|c l IH]; intros Hl; [done|]. csimpl.
  destruct (Hl c) as [w ->]; [left|]. csimpl. f_equal. apply IH.
  intros c' Hc'. apply Hl. by right.
Qed.

(** A reduction keeps the value that a solution gives to an unassigned
    cell of the constraint.  A pair reduction needs the partner's value
    among the candidates: it is there when the whole domain is reduced. *)
Lemma reduce_keeps_solution `{SetOrder} `{Interpreter} p k running h hsol c v :
  value h ⊆ value hsol → in_range p hsol →
  solved_in hsol k = Ok true → cage_ok k →
  c ∈ Constraint.cells k → value h !! c = None → value hsol !! c = Some v →
  Constraint.id k ∈ reducer h → flattens k →
  v ∈ running → 0 ∉ running →
  (pair_rule k → ∀ w, 1 ≤ w ≤ Puzzle.width p → w ∈ running) →
  ∃ r reduced, eval (Constraint_reduce k running) h = Ok r ∧
               to_set r = Ok reduced ∧ v ∈ reduced.
Proof.
  intros Hsub Hr Hsolved Hcage Hc Hnone Hv Hbound Hfl Hvr Hzero Hfull.
  destruct (solved_in_true hsol k Hsolved) as (vs & Hvs & _ & Hrule).
  unfold values_in in Hvs.
  pose proof (omap_all_Some _ _ _ Hvs) as Hom.
  assert (Hsome : ∀ d, d ∈ Constraint.cells k → is_Some (value hsol !! d)).
  { intros d Hd.
    assert (Hin : value hsol !! d ∈ map (λ c, value hsol !! c) (Constraint.cells k))
      by (by apply (list_elem_of_fmap_2 (λ c, value hsol !! c))).
    rewrite Hvs in Hin. apply list_elem_of_fmap in Hin as (w & -> & _). by eexists. }
  assert (HU : c ∈ unassigned_in h k) by (by apply list_elem_of_filter).
  assert (HvU : v ∈ omap (λ c, value hsol !! c) (unassigned_in h k)).
  { apply list_elem_of_omap. by exists c. }
  assert (HlenU : length (omap (λ c, value hsol !! c) (unassigned_in h k))
                  = length (unassigned_in h k)).
  { apply omap_length_total. intros d [_ Hd]%list_elem_of_filter. by apply Hsome. }
  assert (Hweak : ∀ d w, value h !! d = Some w → value hsol !! d = Some w)
    by (intros d w Hd; by apply (lookup_weaken _ _ _ _ Hd Hsub)).
  unfold eval, Constraint_reduce, bind, get_reducer. rewrite bool_decide_true by done.
  unfold rule, cage_ok, flattens, pair_rule in *.
  destruct (Constraint.variant k) as [|t|t|t|t|t] eqn:Hk.
  - rewrite reduce_unique_run. do 2 eexists. split; [done|]. split; [done|].
    unfold symmetric_difference.
    apply elem_of_union_l, elem_of_difference. split; [done|].
    intros Hin%elem_of_list_to_set. unfold assigned_values_in in Hin.
    apply list_elem_of_omap in Hin as (d & Hd & Hdv).
    assert (c = d) as ->; [|congruence].
    apply (NoDup_fmap_eq (λ c, value hsol !! c) (Constraint.cells k)); try done.
    + change (NoDup (map (λ c, value hsol !! c) (Constraint.cells k))).
      rewrite Hvs. apply (NoDup_fmap_2 Some), Hrule.
    + rewrite Hv. symmetry. by apply Hweak.
  - rewrite reduce_add_run. unfold remainder_in. rewrite Hk, sum_foldr.
    do 2 eexists. split; [done|]. split; [done|].
    pose proof (foldr_add_split (λ c, value h !! c) (λ c, value hsol !! c)
                  (Constraint.cells k) Hweak) as Hsplit.
    rewrite Hom, Hrule in Hsplit. fold (unassigned_in h k) in Hsplit.
    fold (assigned_values_in h k) in Hsplit.
    destruct (foldr_add_member _ v HvU (unassigned_values_low p h hsol k Hr)) as [H1 Hn].
    rewrite HlenU in H1, Hn. case_bool_decide as Hlen.
    + specialize (H1 Hlen).
      replace (t - foldr Z.add 0 (assigned_values_in h k)) with v by lia.
      rewrite bool_decide_true by done. by apply elem_of_singleton.
    + specialize (Hn Hlen). apply elem_of_filter. split; [lia|done].
  - rewrite reduce_mul_run. unfold remainder_in. rewrite Hk, product_foldr.
    pose proof (foldr_mul_split (λ c, value h !! c) (λ c, value hsol !! c)
                  (Constraint.cells k) Hweak) as Hsplit.
    rewrite Hom, Hrule in Hsplit. fold (unassigned_in h k) in Hsplit.
    fold (assigned_values_in h k) in Hsplit.
    assert (Htotal : foldr Z.mul 1 (assigned_values_in h k) ≠ 0).
    { rewrite <- product_foldr. eapply product_nonzero, assigned_values_nonzero.
      by apply (in_range_weaken p h hsol). }
    rewrite bool_decide_false by done.
    assert (Hrem : t `div` foldr Z.mul 1 (assigned_values_in h k)
                   = foldr Z.mul 1 (omap (λ c, value hsol !! c) (unassigned_in h k))).
    { rewrite Hsplit, Z.mul_comm. by apply Z.div_mul. }
    rewrite Hrem. destruct (foldr_mul_member _ v HvU) as [H1 Hdiv].
    rewrite HlenU in H1. case_bool_decide as Hlen.
    + do 2 eexists. split; [done|]. split; [done|]. rewrite (H1 Hlen).
      rewrite bool_decide_true by done. by apply elem_of_singleton.
    + rewrite bool_decide_false by done. do 2 eexists. split; [done|]. split; [done|].
      apply elem_of_filter. split; [|done]. apply Z.mod_divide; [by intros ->|done].
  - destruct Hcage as [Hlen Ht]. destruct Hrule as (a & b & rest & -> & Habs).
    destruct (Constraint.cells k) as [|c0 [|c1 [|]]] eqn:Hcells; try done. clear Hlen.
    simpl in Hvs. injection Hvs as Ha Hb _.
    unfold reduce_sub.
    destruct (reduce_pairs_partner k (λ x y, bool_decide (Z.abs (x - y) = t)) running h)
      as (items & -> & _ & Hitems).
    { intros x y. unfold evaluate. by rewrite Hk. }
    { intros x y. apply bool_decide_ext. lia. }
    destruct (Hitems (Hfl I)) as (l & -> & Hl).
    do 2 eexists. split; [done|]. split; [done|].
    apply elem_of_list_to_set, Hl. split; [done|].
    apply elem_of_cons in Hc as [->|Hc]; [|apply list_elem_of_singleton in Hc as ->].
    + assert (v = a) as -> by congruence. exists b. split_and!.
      * apply Hfull; [done|]. by apply (Hr c1).
      * lia.
      * apply bool_decide_eq_true. lia.
    + assert (v = b) as -> by congruence. exists a. split_and!.
      * apply Hfull; [done|]. by apply (Hr c0).
      * lia.
      * apply bool_decide_eq_true. lia.
  - destruct Hcage as [Hlen Ht]. destruct Hrule as (a & b & rest & -> & Hdiv).
    destruct (Constraint.cells k) as [|c0 [|c1 [|]]] eqn:Hcells; try done. clear Hlen.
    simpl in Hvs. injection Hvs as Ha Hb _.
    pose proof (Hr c0 a Ha) as Hra. pose proof (Hr c1 b Hb) as Hrb.
    unfold reduce_div.
    destruct (reduce_pairs_partner k
                (λ x y, bool_decide (x = y * t) || bool_decide (y = x * t)) running h)
      as (items & -> & _ & Hitems).
    { intros x y. unfold evaluate. by rewrite Hk. }
    { intros x y. apply orb_comm. }
    destruct (Hitems (Hfl I)) as (l & -> & Hl).
    do 2 eexists. split; [done|]. split; [done|].
    apply elem_of_list_to_set, Hl. split; [done|].
    apply elem_of_cons in Hc as [->|Hc]; [|apply list_elem_of_singleton in Hc as ->].
    + assert (v = a) as -> by congruence. exists b. split_and!.
      * by apply Hfull.
      * destruct Hdiv; nia.
      * apply orb_true_iff. destruct Hdiv; [left|right]; by apply bool_decide_eq_true.
    + assert (v = b) as -> by congruence. exists a. split_and!.
      * by apply Hfull.
      * destruct Hdiv; nia.
      * apply orb_true_iff. destruct Hdiv; [right|left]; by apply bool_decide_eq_true.
  - destruct Hrule as (a & rest & -> & ->).
    destruct (Constraint.cells k) as [|c0 [|]] eqn:Hcells; try done.
    simpl in Hvs. injection Hvs as Ha _.
    apply list_elem_of_singleton in Hc as ->. assert (v = t) as -> by congruence.
    rewrite reduce_con_run. unfold Constraint_value. rewrite Hk.
    do 2 eexists. split; [done|]. split; [done|]. rewrite bool_decide_true by done.
    by apply elem_of_singleton.
Qed.

Lemma fold_keeps_solution `{SetOrder} `{Interpreter} p ks running h hsol c v :
  value h ⊆ value hsol → in_range p hsol →
  Forall (λ k, solved_in hsol k = Ok true ∧ cage_ok k ∧ c ∈ Constraint.cells k ∧
               Constraint.id k ∈ reducer h ∧ ¬ pair_rule k) ks →
  value h !! c = None → value hsol !! c = Some v →
  v ∈ running → 0 ∉ running →
  ∃ cs, eval (fold_M (λ candidates k,
                        r <- Constraint_reduce k candidates ;;
                        reduced <- lift (to_set r) ;;
                        ret (candidates ∩ reduced)) ks running) h = Ok cs ∧
        v ∈ cs.
Proof.
  intros Hsub Hr Hks Hnone Hv. revert running.
  induction Hks as [|k ks (Hsolved & Hcage & Hc & Hbound & Hpair) _ IH];
    intros running Hvr Hzero; simpl.
  - exists running. done.
  - rewrite eval_bind by readonly. rewrite reduce_step_eval.
    assert (Hfk : flattens k) by (by intros ?).
    destruct (reduce_keeps_solution p k running h hsol c v)
      as (r & reduced & -> & Hs & Hvin); try done.
    simpl. rewrite Hs. simpl. apply IH.
    + by apply elem_of_intersection.
    + intros Hin. apply Hzero. by apply elem_of_intersection in Hin as [? _].
Qed.

Lemma Cell_candidates_keeps `{SetOrder} `{Interpreter} p cell h hsol v :
  game_shaped p → Forall flattens (Puzzle.constraints p) → cell ∈ Puzzle.cells p →
  domains_set p h → reducers_set p h →
  value h ⊆ value hsol → in_range p hsol → eval (Puzzle_solved p) hsol = Ok true →
  value h !! Cell.tuple cell = None → value hsol !! Cell.tuple cell = Some v →
  ∃ cs, eval (Cell_candidates cell) h = Ok cs ∧ v ∈ cs.
Proof.
  intros [Hcages Hcells] Hfl Hcell Hdom Hred Hsub Hr Hsolved Hnone Hv.
  pose proof (proj1 (Forall_forall _ _) Hcells cell Hcell) as [Hks Htail].
  assert (Hin : ∀ w, 1 ≤ w ≤ Puzzle.width p → w ∈ Puzzle_domain p)
    by (intros w; apply Puzzle_domain_spec).
  assert (Hzero : 0 ∉ Puzzle_domain p) by (rewrite Puzzle_domain_spec; lia).
  assert (Hfacts : ∀ k, k ∈ Cell.constraints cell →
            solved_in hsol k = Ok true ∧ cage_ok k ∧
            Cell.tuple cell ∈ Constraint.cells k ∧ Constraint.id k ∈ reducer h ∧
            flattens k).
  { intros k Hk. destruct (proj1 (Forall_forall _ _) Hks k Hk) as [Hkp Hck].
    split_and!; [by apply (Puzzle_solved_true p)| |done|by apply Hred|].
    - by apply (proj1 (Forall_forall _ _) Hcages).
    - by apply (proj1 (Forall_forall _ _) Hfl). }
  unfold Cell_candidates. rewrite eval_bind by readonly.
  unfold eval at 1, get_domain. simpl. rewrite (Hdom cell Hcell). simpl.
  destruct (Cell.constraints cell) as [|k ks] eqn:Hcs; simpl.
  - eexists. split; [done|]. apply Hin. by apply (Hr (Cell.tuple cell)).
  - rewrite eval_bind by readonly. rewrite reduce_step_eval.
    destruct (Hfacts k) as (Hsk & Hck & Hik & Hbk & Hfk); [left|].
    destruct (reduce_keeps_solution p k (Puzzle_domain p) h hsol (Cell.tuple cell) v)
      as (r & reduced & -> & Hs & Hvin); try done.
    { apply Hin. by apply (Hr (Cell.tuple cell)). }
    simpl. rewrite Hs. simpl.
    apply (fold_keeps_solution p ks _ h hsol (Cell.tuple cell) v); try done.
    + apply Forall_forall. intros k' Hk'.
      destruct (Hfacts k') as (? & ? & ? & ? & ?); [by right|]. split_and!; try done.
      by apply (proj1 (Forall_forall _ _) Htail).
    + apply elem_of_intersection. split; [|done].
      apply Hin. by apply (Hr (Cell.tuple cell)).
    + intros Hz. apply Hzero. by apply elem_of_intersection in Hz as [? _].
Qed.

Lemma game_shaped_well_formed p : game_shaped p → well_formed p.
Proof.
  intros [Hcages Hcells]. split.
  - eapply Forall_impl; [exact Hcages|]. intros k. unfold cage_ok, arity_ok.
    destruct (Constraint.variant k); try done; lia.
  - eapply Forall_impl; [exact Hcells|]. intros cell [Hks _].
    eapply Forall_impl; [exact Hks|]. by intros k [? _].
Qed.

Lemma completes_assign p cell v h hsol :
  completes p h hsol → value hsol !! Cell.tuple cell = Some v →
  completes p (with_value (Cell.tuple cell) (Some v) h) hsol.
Proof.
  intros (Hr & Hsolved & Hsub & Hall & Honly) Hv. split_and!; try done.
  - simpl. by apply insert_subseteq_l.
  - intros c Hc. simpl. destruct (Honly c Hc) as [[w Hw]|Hin]; [left|by right].
    destruct (decide (Cell.tuple cell = c)) as [->|Hne].
    + rewrite lookup_insert_eq. by eexists.
    + rewrite lookup_insert_ne by done. by eexists.
Qed.

Lemma try_candidates_complete rec p cell cands n hsol v :
  well_formed p → restores rec →
  (∀ s1, domains_set p (heap s1) → reducers_set p (heap s1) → in_range p (heap s1) →
         (length (unassigned_cells p (heap s1)) < n)%nat →
         ∃ b s2, rec s1 = Ok (b, s2)) →
  (∀ s1, domains_set p (heap s1) → reducers_set p (heap s1) →
         completes p (heap s1) hsol →
         (length (unassigned_cells p (heap s1)) < n)%nat →
         ∃ s2, rec s1 = Ok (true, s2)) →
  value hsol !! Cell.tuple cell = Some v →
  Forall (λ w, 1 ≤ w ≤ Puzzle.width p) cands → v ∈ cands →
  ∀ s, cell ∈ unassigned_cells p (heap s) →
       domains_set p (heap s) → reducers_set p (heap s) → completes p (heap s) hsol →
       (length (unassigned_cells p (heap s)) ≤ n)%nat →
       ∃ s', try_candidates rec p cell cands s = Ok (true, s').
Proof.
  intros Hwf Hres Hsafe Hcomplete Hv.
  induction cands as [|w rest IH]; intros Hall Hin s Hcell Hdom Hred Hsol Hn;
    [by apply elem_of_nil in Hin|].
  apply Forall_cons in Hall as [Hw Hall]. rewrite try_candidates_cons.
  assert (Hnone : value (heap s) !! Cell.tuple cell = None)
    by by apply unassigned_cells_spec in Hcell as [_ ?].
  assert (Hundo : heap (unassign cell (assign cell w s)) = heap s)
    by by apply with_value_undo.
  assert (Hrange : in_range p (heap s)).
  { destruct Hsol as (Hr & _ & Hsub & _). by apply (in_range_weaken p _ hsol). }
  assert (Hless : (length (unassigned_cells p (heap (count_recursive_call (assign cell w s))))
                   < n)%nat).
  { simpl. pose proof (assign_decreases p cell w (heap s) Hcell). lia. }
  destruct (decide (w = v)) as [->|Hne].
  - pose proof (completes_assign p cell v (heap s) hsol Hsol Hv) as Hsol'.
    rewrite (completes_consistent p (heap (assign cell v s)) hsol);
      [|by destruct Hsol' as (_ & _ & ? & _)|by destruct Hsol' as (_ & ? & _)].
    destruct (Hcomplete (count_recursive_call (assign cell v s))) as [s2 ->]; eauto.
  - apply elem_of_cons in Hin as [?|Hin]; [done|].
    destruct (Puzzle_consistent_ok p (heap (assign cell w s)) Hwf) as [[] ->].
    + destruct (Hsafe (count_recursive_call (assign cell w s))) as (b & s2 & Hr2);
        [exact Hdom|exact Hred|by apply in_range_assign|done|].
      rewrite Hr2. destruct b; [eauto|].
      apply Hres in Hr2 as (_ & _ & Hheap). specialize (Hheap eq_refl).
      assert (Heq : heap (unassign cell s2) = heap s).
      { unfold unassign. simpl. rewrite Hheap. by apply with_value_undo. }
      apply IH; by rewrite ?Heq.
    + apply IH; by rewrite ?Hundo.
Qed.

Lemma solve_complete `{SetOrder} `{Interpreter} fuel p hsol s :
  game_shaped p → Forall flattens (Puzzle.constraints p) →
  domains_set p (heap s) → reducers_set p (heap s) → completes p (heap s) hsol →
  (length (unassigned_cells p (heap s)) < fuel)%nat →
  ∃ s', solve fuel p s = Ok (true, s').
Proof.
  intros Hgame Hfl. pose proof (game_shaped_well_formed p Hgame) as Hwf.
  revert s. induction fuel as [|fuel IH]; intros s Hdom Hred Hsol Hlt; [lia|].
  pose proof Hsol as (Hr & Hsolved & Hsub & Hall & _).
  assert (Hrange : in_range p (heap s)) by by apply (in_range_weaken p _ hsol).
  rewrite solve_S.
  destruct (solve_order_ok p (heap s)) as [[|cell order] Ho]; try done; rewrite Ho.
  - apply solve_order_nil in Ho.
    rewrite (Puzzle_solved_values p (heap s) hsol) by by apply (completes_full p).
    rewrite Hsolved. simpl. eauto.
  - apply solve_order_head in Ho as [Hin _].
    pose proof Hin as [Hcell Hnone]%unassigned_cells_spec.
    destruct (Hall (Cell.tuple cell)) as [v Hv];
      [unfold coords; by apply list_elem_of_fmap_2|].
    destruct (Cell_candidates_keeps p cell (heap s) hsol v) as (cs & Hcs & Hvcs);
      try done.
    rewrite Hcs.
    apply (try_candidates_complete _ _ _ _ fuel hsol v); try done.
    + apply solve_restores.
    + intros s1 ? ? ? ?. by apply solve_safe.
    + apply Forall_forall. intros w Hw%set_iter_elem.
      apply Cell_candidates_subset in Hcs. apply Hcs in Hw.
      rewrite (Hdom cell Hcell) in Hw. by apply Puzzle_domain_spec.
    + by apply set_iter_elem.
    + lia.
Qed.

(** X15.  On a puzzle of the game whose reductions can be consumed (no
    [-] or [/] cage, or an interpreter with [collections.Iterable]), in a
    heap with the domains and reducers of [initialize], [Cell.candidates]
    never discards the value that a solution completing the heap gives to
    an unassigned cell: it returns, and that value is a candidate. *)
Theorem candidates_keep_solution `{SetOrder} `{Interpreter} p h hsol cell v :
  game_shaped p → Forall flattens (Puzzle.constraints p) → completes p h hsol →
  domain h = domain (initialized p h) → reducer h = reducer (initialized p h) →
  cell ∈ unassigned_cells p h → value hsol !! Cell.tuple cell = Some v →
  ∃ cs, eval (Cell_candidates cell) h = Ok cs ∧ v ∈ cs.
Proof.
  intros Hgame Hfl (Hr & Hsolved & Hsub & _) Hdom Hred
    [Hcell Hnone]%unassigned_cells_spec Hv.
  apply (Cell_candidates_keeps p cell h hsol v); try done.
  - intros c Hc. rewrite Hdom. by apply initialized_domains.
  - intros k Hk. rewrite Hred. by apply initialized_reducers.
Qed.

(** X16.  On a puzzle of the game whose reductions can be consumed (no
    [-] or [/] cage, or an interpreter with [collections.Iterable]), the
    search is complete: when some solution with values in [1..N] completes
    the heap of the call, [backtrack_solve] returns success, in a heap that
    solves the puzzle; hence a returned failure means that no such solution
    exists. *)
Theorem backtrack_solve_complete `{SetOrder} `{Interpreter} p h :
  game_shaped p → Forall flattens (Puzzle.constraints p) →
  (∀ hsol, completes p h hsol →
     ∃ st h', backtrack_solve p h = Ok ((true, st), h') ∧
              eval (Puzzle_solved p) h' = Ok true) ∧
  (∀ st h', backtrack_solve p h = Ok ((false, st), h') →
     ∀ hsol, ¬ completes p h hsol).
Proof.
  intros Hgame Hfl.
  assert (Hfind : ∀ hsol, completes p h hsol →
            ∃ st h', backtrack_solve p h = Ok ((true, st), h') ∧
                     eval (Puzzle_solved p) h' = Ok true).
  { intros hsol (Hr & Hsolved & Hsub & Hall & Honly). rewrite backtrack_solve_run.
    destruct (solve_complete (S (length (Puzzle.cells p))) p hsol
                (mkSearch (initialized p h) (mkStats 0 0))) as [s' Hsolve]; try done.
    - apply initialized_domains.
    - intros k Hk. by apply initialized_reducers.
    - simpl. split_and!; try done; by rewrite initialized_value.
    - pose proof (unassigned_cells_length p (initialized p h)). simpl. lia.
    - rewrite Hsolve. exists (stats s'), (heap s'). split; [done|].
      by apply solve_sound in Hsolve. }
  split; [done|]. intros st h' Hfail hsol Hsol.
  destruct (Hfind hsol Hsol) as (st2 & h2 & Hrun & _). congruence.
Qed.

Lemma puzzle_pairs_game_shaped : game_shaped puzzle_pairs.
Proof. apply (bool_decide_unpack _). vm_compute. exact I. Qed.

(** The grid 1 2 / 2 1 solves [puzzle_pairs]. *)
Lemma solved_2x2_completes h :
  value h = ∅ → completes puzzle_pairs h solved_2x2.
Proof.
  intros Hempty. split_and!.
  - change (map_Forall (λ _ v, 1 ≤ v ≤ 2) (value solved_2x2)).
    apply (bool_decide_unpack _). vm_compute. exact I.
  - vm_compute. reflexivity.
  - rewrite Hempty. apply map_empty_subseteq.
  - apply Forall_forall. apply (bool_decide_unpack _). vm_compute. exact I.
  - intros c [v Hv]. right. revert c v Hv.
    change (map_Forall (λ c _, c ∈ coords puzzle_pairs) (value solved_2x2)).
    apply (bool_decide_unpack _). vm_compute. exact I.
Qed.

Lemma candidates_keep_solution_witness :
  let h := initialized puzzle_pairs fresh in
  let cell := Cell.mk (0, 0) (constraints_of (Puzzle.constraints puzzle_pairs) (0, 0)) in
  ∃ cs, @eval Heap _ (@Cell_candidates ascending_order python_3_9 cell) h = Ok cs ∧ 1 ∈ cs.
Proof.
  intros h cell.
  apply (@candidates_keep_solution ascending_order python_3_9
           puzzle_pairs h solved_2x2 cell 1).
  - exact puzzle_pairs_game_shaped.
  - apply (bool_decide_unpack _). vm_compute. exact I.
  - apply solved_2x2_completes. reflexivity.
  - unfold h. apply (f_equal domain). symmetry. apply initialized_fixed.
    + apply initialized_domains.
    + intros k Hk. by apply initialized_reducers.
  - unfold h. apply (f_equal reducer). symmetry. apply initialized_fixed.
    + apply initialized_domains.
    + intros k Hk. by apply initialized_reducers.
  - apply unassigned_cells_spec. split; [simpl; apply list_elem_of_here|reflexivity].
  - reflexivity.
Defined.

Lemma backtrack_solve_complete_witness :
  completes puzzle_pairs fresh solved_2x2 ∧
  (∀ hsol, completes puzzle_pairs fresh hsol →
     ∃ st h', @backtrack_solve ascending_order python_3_9 puzzle_pairs fresh
              = Ok ((true, st), h') ∧
              eval (Puzzle_solved puzzle_pairs) h' = Ok true) ∧
  (∀ st h', @backtrack_solve ascending_order python_3_9 puzzle_pairs fresh
            = Ok ((false, st), h') →
     ∀ hsol, ¬ completes puzzle_pairs fresh hsol).
Proof.
  split; [by apply solved_2x2_completes|].
  apply (@backtrack_solve_complete ascending_order python_3_9 puzzle_pairs fresh
           puzzle_pairs_game_shaped).
  apply (bool_decide_unpack _). vm_compute. exact I.
Defined.

(** * Order of the cells of a constraint *)

Lemma sum_perm vs vs' : vs ≡ₚ vs' → sum vs = sum vs'.
Proof.
  intros Hp. rewrite !sum_foldr.
  apply (foldr_permutation_proper (=) Z.add 0); [intros; lia|done].
Qed.

Lemma product_perm vs vs' : vs ≡ₚ vs' → product vs = product vs'.
Proof.
  intros Hp. rewrite !product_foldr.
  apply (foldr_permutation_proper (=) Z.mul 1); [intros; lia|done].
Qed.

(** X17.  [UniquenessConstraint.evaluate] is true exactly when the values
    are pairwise distinct. *)
Theorem evaluate_unique_NoDup k values :
  Constraint.variant k = UniquenessConstraint →
  ∃ b, evaluate k values = Ok b ∧ (b = true ↔ NoDup values).
Proof.
  intros Hk. unfold evaluate. rewrite Hk. eexists. split; [done|].
  rewrite bool_decide_eq_true. split; [apply unique_NoDup|].
  intros Hnd. symmetry. by apply size_list_to_set.
Qed.

Lemma evaluate_unique_NoDup_witness :
  ∃ b, evaluate (Constraint.mk 0 [(0, 0); (0, 1); (0, 2)] UniquenessConstraint) [3; 1; 3]
       = Ok b ∧ (b = true ↔ NoDup [3; 1; 3]).
Proof.
  exact (evaluate_unique_NoDup
           (Constraint.mk 0 [(0, 0); (0, 1); (0, 2)] UniquenessConstraint) [3; 1; 3] eq_refl).
Defined.

Lemma evaluate_perm k values values' :
  values ≡ₚ values' →
  match Constraint.variant k with
  | SubConstraint _ | DivConstraint _ => length values = 2%nat
  | ConConstraint _ => length values = 1%nat
  | _ => True
  end →
  evaluate k values = evaluate k values'.
Proof.
  intros Hp Hlen. unfold evaluate.
  destruct (Constraint.variant k) as [|t|t|t|t|t].
  - f_equal. apply bool_decide_ext.
    by rewrite (Permutation_length Hp), (list_to_set_perm_L (C := gset Z) _ _ Hp).
  - by rewrite (sum_perm _ _ Hp).
  - by rewrite (product_perm _ _ Hp).
  - destruct values as [|a [|b [|]]]; try done.
    pose proof (Permutation_length Hp) as Hl.
    destruct values' as [|a' [|b' [|]]]; try done.
    apply Permutation_length_2 in Hp as [[-> ->]|[-> ->]]; [done|].
    f_equal. apply bool_decide_ext. lia.
  - destruct values as [|a [|b [|]]]; try done.
    pose proof (Permutation_length Hp) as Hl.
    destruct values' as [|a' [|b' [|]]]; try done.
    apply Permutation_length_2 in Hp as [[-> ->]|[-> ->]]; [done|].
    f_equal. apply orb_comm.
  - destruct values as [|a [|]]; try done.
    apply Permutation_singleton_l in Hp. by subst values'.
Qed.

(** X18.  [evaluate] does not depend on the order of the values, provided
    a [-] or [/] cage is given two values and a [$] cage one: the loader
    keeps the cells of a cage in a set, whose order is not the file's. *)
Theorem evaluate_order k values values' :
  values ≡ₚ values' →
  match Constraint.variant k with
  | SubConstraint _ | DivConstraint _ => length values = 2%nat
  | ConConstraint _ => length values = 1%nat
  | _ => True
  end →
  evaluate k values = evaluate k values'.
Proof. apply evaluate_perm. Qed.

Lemma omap_Some_id (vs : list Z) : omap id (map Some vs) = vs.
Proof. induction vs as [|v vs IH]; [done|]. csimpl. by rewrite IH. Qed.

Lemma evaluate_order_witness :
  evaluate (Constraint.mk 0 [(0, 0); (0, 1)] (DivConstraint 2)) [4; 2]
  = evaluate (Constraint.mk 0 [(0, 0); (0, 1)] (DivConstraint 2)) [2; 4].
Proof.
  apply (evaluate_order (Constraint.mk 0 [(0, 0); (0, 1)] (DivConstraint 2)) [4; 2] [2; 4]).
  - apply Permutation_swap.
  - reflexivity.
Defined.

Lemma remainder_in_perm h k k' :
  Constraint.variant k = Constraint.variant k' →
  Constraint.cells k ≡ₚ Constraint.cells k' →
  remainder_in h k = remainder_in h k'.
Proof.
  intros Hvar Hp. unfold remainder_in. rewrite Hvar.
  assert (Ha : assigned_values_in h k ≡ₚ assigned_values_in h k')
    by (unfold assigned_values_in; by rewrite Hp).
  destruct (Constraint.variant k'); try done.
  - by rewrite (sum_perm _ _ Ha).
  - by rewrite (product_perm _ _ Ha).
Qed.

(** X19.  [Constraint.reduce] gives the same outcome whatever the order in
    which the constraint lists its cells; so do [solved] and [consistent]
    when a [-] or [/] cage has two cells and a [$] cage one. *)
Theorem reduce_cell_order `{SetOrder} `{Interpreter} k k' h :
  Constraint.id k = Constraint.id k' →
  Constraint.variant k = Constraint.variant k' →
  Constraint.cells k ≡ₚ Constraint.cells k' →
  (∀ candidates,
     eval (Constraint_reduce k candidates) h = eval (Constraint_reduce k' candidates) h) ∧
  (cage_ok k →
   eval (Constraint_solved k) h = eval (Constraint_solved k') h ∧
   eval (Constraint_consistent k) h = eval (Constraint_consistent k') h).
Proof.
  intros Hid Hvar Hp.
  assert (Ha : assigned_values_in h k ≡ₚ assigned_values_in h k')
    by (unfold assigned_values_in; by rewrite Hp).
  assert (Hu : length (unassigned_in h k) = length (unassigned_in h k'))
    by (unfold unassigned_in; by rewrite Hp).
  pose proof (remainder_in_perm h k k' Hvar Hp) as Hrem.
  split.
  - intros candidates. unfold eval, Constraint_reduce, bind, get_reducer.
    rewrite Hid, Hvar. case_bool_decide; [|done].
    destruct (Constraint.variant k') as [|t|t|t|t|t] eqn:Hk'.
    + rewrite !reduce_unique_run.
      by rewrite (list_to_set_perm_L (C := gset Z) _ _ Ha).
    + by rewrite !reduce_add_run, Hrem, Hu.
    + by rewrite !reduce_mul_run, Hrem, Hu.
    + unfold reduce_sub. rewrite !reduce_pairs_run. unfold evaluate.
      by rewrite Hvar, Hk'.
    + unfold reduce_div. rewrite !reduce_pairs_run. unfold evaluate.
      by rewrite Hvar, Hk'.
    + rewrite !reduce_con_run. unfold Constraint_value. by rewrite Hvar, Hk'.
  - intros Hcage.
    assert (Hvals : values_in h k ≡ₚ values_in h k')
      by (unfold values_in; by apply (fmap_Permutation (λ c, value h !! c))).
    assert (Hsame : solved_in h k = solved_in h k' ∧ consistent_in h k = consistent_in h k').
    { unfold solved_in, consistent_in.
      destruct (all_assigned (values_in h k)) as [vs|] eqn:Hvs.
      - apply all_assigned_Some in Hvs.
        assert (Hin : ∀ o, o ∈ values_in h k' → is_Some o).
        { intros o Ho. rewrite <- Hvals, Hvs in Ho.
          apply list_elem_of_fmap in Ho as (w & -> & _). by eexists. }
        destruct (all_assigned (values_in h k')) as [vs'|] eqn:Hvs'.
        + apply all_assigned_Some in Hvs'.
          assert (Hperm : vs ≡ₚ vs').
          { rewrite <- (omap_Some_id vs), <- (omap_Some_id vs'), <- Hvs, <- Hvs'.
            by apply omap_Permutation. }
          assert (Hev : evaluate k vs = evaluate k' vs').
          { rewrite (evaluate_perm k vs vs' Hperm).
            - unfold evaluate. by rewrite Hvar.
            - unfold cage_ok in Hcage. apply (f_equal length) in Hvs.
              unfold values_in in Hvs. rewrite !length_map in Hvs.
              destruct (Constraint.variant k); try done; [| |lia];
                destruct Hcage as [Hcage _]; lia. }
          by rewrite Hev.
        + apply all_assigned_None in Hvs'. apply Hin in Hvs'. by destruct Hvs'.
      - apply all_assigned_None in Hvs. rewrite Hvals in Hvs.
        apply all_assigned_None in Hvs. by rewrite Hvs. }
    unfold eval. rewrite !Constraint_solved_run, !Constraint_consistent_run.
    destruct Hsame as [-> ->]. done.
Qed.

Lemma reduce_cell_order_witness :
  let k := Constraint.mk 0 [(0, 0); (0, 1); (0, 2)] (AddConstraint 6) in
  let k' := Constraint.mk 0 [(0, 2); (0, 0); (0, 1)] (AddConstraint 6) in
  let h := with_value (0, 0) (Some 2) (initialized (build 3 [] [k]) fresh) in
  eval (Constraint_reduce k {[1; 2; 3]}) h = Ok (PySet {[1; 2; 3]}) ∧
  (∀ candidates,
     eval (Constraint_reduce k candidates) h = eval (Constraint_reduce k' candidates) h) ∧
  (cage_ok k →
   eval (Constraint_solved k) h = eval (Constraint_solved k') h ∧
   eval (Constraint_consistent k) h = eval (Constraint_consistent k') h).
Proof.
  intros k k' h. split; [vm_compute; reflexivity|].
  apply (reduce_cell_order k k' h); [reflexivity|reflexivity|].
  simpl. symmetry.
  apply Permutation_cons_append with (l := [(0, 0); (0, 1)]) (x := (0, 2)).
Defined.

(** * The order of the search *)

(** The stable sort puts in front the first element with the least key. *)
Lemma sorted_head_first {A} (l : list (nat * A)) z r :
  sorted l = z :: r →
  ∃ l1 l2, l = l1 ++ z :: l2 ∧
    Forall (λ w, (fst z < fst w)%nat) l1 ∧ Forall (λ w, (fst z ≤ fst w)%nat) l2.
Proof.
  revert z r. induction l as [|x l IH]; intros z r; [done|]. simpl.
  destruct (sorted l) as [|y r'] eqn:Hs.
  - assert (l = []) as ->.
    { apply Permutation_nil_r. by rewrite <- (sorted_perm l), Hs. }
    simpl. intros [= <- <-]. exists [], []. by split_and!.
  - destruct (IH y r' eq_refl) as (l1 & l2 & -> & H1 & H2). simpl.
    case_bool_decide as Hle.
    + intros [= <- <-]. exists [], (l1 ++ y :: l2). split_and!; [done|done|].
      apply Forall_app. split; [|apply Forall_cons; split; [done|]].
      * eapply Forall_impl; [exact H1|]. simpl. lia.
      * eapply Forall_impl; [exact H2|]. simpl. lia.
    + intros [= <- <-]. exists (x :: l1), l2. split_and!; [done| |done].
      apply Forall_cons. split; [lia|done].
Qed.

Lemma Forall2_Forall_transfer {A B} (P : A → B → Prop) (Q : B → Prop)
    (R : A → Prop) l k :
  Forall2 P l k → Forall Q k → (∀ x y, P x y → Q y → R x) → Forall R l.
Proof.
  intros HP HQ Himp. induction HP as [|x y l k Hxy _ IH]; [constructor|].
  apply Forall_cons in HQ as [Hy HQ]. constructor; [by apply (Himp x y)|by apply IH].
Qed.

(** X20.  The cell that [solve] examines is the first unassigned cell, in
    the order of [puzzle.cells], among those with the fewest candidates:
    every unassigned cell before it has strictly more candidates, every one
    after it at least as many. *)
Theorem solve_order_first_least `{SetOrder} `{Interpreter} p h cell order :
  eval (solve_order p) h = Ok (cell :: order) →
  ∃ before after cs,
    unassigned_cells p h = before ++ cell :: after ∧
    eval (Cell_candidates cell) h = Ok cs ∧
    Forall (λ c', ∃ cs', eval (Cell_candidates c') h = Ok cs' ∧ (size cs < size cs')%nat)
           before ∧
    Forall (λ c', ∃ cs', eval (Cell_candidates c') h = Ok cs' ∧ (size cs ≤ size cs')%nat)
           after.
Proof.
  unfold solve_order. rewrite eval_bind by auto with readonly.
  unfold eval at 1. rewrite Puzzle_unassigned_run. simpl.
  set (key := λ c : Cell.t, cs <- Cell_candidates c ;; ret (size cs, c)).
  assert (Hkey : ∀ c, readonly (key c)) by (intros c; unfold key; readonly).
  rewrite eval_bind by by apply readonly_map_M.
  destruct (eval (map_M key _) h) as [keyed| |] eqn:Hk; simpl; try done.
  unfold eval, ret. intros [= Hsort].
  apply map_M_readonly_Forall2 in Hk; [|done].
  assert (Hread : ∀ c kc, eval (key c) h = Ok kc →
            snd kc = c ∧ ∃ cs, eval (Cell_candidates c) h = Ok cs ∧ fst kc = size cs).
  { intros c kc. unfold key. rewrite eval_bind by auto with readonly.
    destruct (eval (Cell_candidates c) h) as [cs| |]; simpl; try done.
    unfold eval, ret. intros [= <-]. eauto. }
  destruct (sorted keyed) as [|z r] eqn:Hz; [done|].
  simpl in Hsort. injection Hsort as Hcell _.
  destruct (sorted_head_first keyed z r Hz) as (k1 & k2 & -> & H1 & H2).
  apply Forall2_app_inv_r in Hk as (before & rest & Hb & Hrest & Hun).
  apply Forall2_cons_inv_r in Hrest as (c & after & Hc & Ha & ->).
  apply Hread in Hc as (Hsnd & cs & Hcs & Hfst). rewrite Hcell in Hsnd. subst c.
  exists before, after, cs. split_and!; [done|done| |].
  - apply (Forall2_Forall_transfer _ _ _ _ _ Hb H1). intros c' kc Hc' Hlt.
    apply Hread in Hc' as (_ & cs' & Hcs' & Hfst'). exists cs'. split; [done|]. lia.
  - apply (Forall2_Forall_transfer _ _ _ _ _ Ha H2). intros c' kc Hc' Hle.
    apply Hread in Hc' as (_ & cs' & Hcs' & Hfst'). exists cs'. split; [done|]. lia.
Qed.

Lemma solve_order_first_least_witness :
  let h := with_value (0, 0) (Some 1) (initialized puzzle_2x2 fresh) in
  let cell := Cell.mk (0, 1) (constraints_of (Puzzle.constraints puzzle_2x2) (0, 1)) in
  ∃ before after cs,
    unassigned_cells puzzle_2x2 h = before ++ cell :: after ∧
    eval (Cell_candidates cell) h = Ok cs ∧
    Forall (λ c', ∃ cs', eval (Cell_candidates c') h = Ok cs' ∧ (size cs < size cs')%nat)
           before ∧
    Forall (λ c', ∃ cs', eval (Cell_candidates c') h = Ok cs' ∧ (size cs ≤ size cs')%nat)
           after.
Proof.
  intros h cell.
  apply (solve_order_first_least puzzle_2x2 h cell
           (List.tl (List.tl (Puzzle.cells puzzle_2x2)))).
  vm_compute. reflexivity.
Defined.

(** X21.  A dead end is detected at once: when the keys of the sort are
    computed without exception and some unassigned cell has no candidate,
    the call assigns nothing and returns failure, with one backtrack
    counted and the heap as it was. *)
Theorem solve_dead_end `{SetOrder} `{Interpreter} fuel p s order c :
  eval (solve_order p) (heap s) = Ok order →
  c ∈ unassigned_cells p (heap s) →
  eval (Cell_candidates c) (heap s) = Ok ∅ →
  solve (S fuel) p s = Ok (false, count_backtrack s).
Proof.
  intros Ho Hc Hempty. rewrite solve_S, Ho.
  destruct order as [|cell order].
  - apply solve_order_nil in Ho. rewrite Ho in Hc. by apply elem_of_nil in Hc.
  - apply solve_order_head in Ho as (_ & cs & Hcs & Hmin).
    destruct (Hmin c Hc) as (cs' & Hcs' & Hle).
    assert (cs' = ∅) as -> by congruence. rewrite size_empty in Hle.
    assert (cs = ∅) as ->.
    { apply leibniz_equiv, size_empty_inv. lia. }
    rewrite Hcs, set_iter_empty by done. apply try_candidates_nil.
Qed.

Lemma solve_dead_end_witness :
  let s := mkSearch (with_value (0, 0) (Some 1) (initialized puzzle_clash fresh))
                    (mkStats 0 1) in
  solve 4 puzzle_clash s = Ok (false, count_backtrack s).
Proof.
  intros s.
  apply (solve_dead_end 3 puzzle_clash s (List.tl (Puzzle.cells puzzle_clash))
           (Cell.mk (0, 1) (constraints_of (Puzzle.constraints puzzle_clash) (0, 1)))).
  - vm_compute. reflexivity.
  - apply unassigned_cells_spec. split; [|reflexivity].
    simpl. apply list_elem_of_further, list_elem_of_here.
  - vm_compute. reflexivity.
Defined.
